(** * slate-edit-table: the table schema and two table commands

    A shallow embedding of the normalisation schema ([makeSchema] and its six
    rules), of [setColumnAlign] and of the up/down key handler [onUpDown],
    together with the properties the specification states about them and
    further properties of the code.

    The rules are written against the editing interface of the host editor
    (Slate): immutable nodes addressed by key, and a [Change] object whose
    methods edit the document of its state.  That interface is modelled here
    as far as the rules use it. *)

From stdpp Require Import gmap strings list fin_maps.
From Stdlib Require Import ZArith Ascii.

Set Warnings "-register-all".
Set Default Proof Using "Type".

Open Scope nat_scope.

(** ** Values stored in a node's data map

    The data of a node is an [Immutable.Map] from strings to JavaScript
    values.  The values the schema can meet there are modelled by [JsVal];
    numbers are the integers. [JArr] is a JavaScript array, [JObj] a plain
    object and [JList] an [Immutable.List]. *)

Inductive JsVal :=
| JUndefined
| JNull
| JNum (z : Z)
| JStr (s : string)
| JArr (l : list JsVal)
| JList (l : list JsVal)
| JObj (m : gmap string JsVal).

Abbreviation Data := (gmap string JsVal).

(** [collection.toJS()]: Immutable collections become plain arrays, deeply;
    values that are already plain JavaScript are returned as they are. *)
Fixpoint toJS (v : JsVal) : JsVal :=
  match v with
  | JList l => JArr (map toJS l)
  | _ => v
  end.

(** [data.toJS()] of a data map: a plain object with the converted values. *)
Definition Data_toJS (d : Data) : gmap string JsVal := toJS <$> d.

(** [map.get(key, notSetValue)] *)
Definition Map_get (d : Data) (k : string) (notSetValue : JsVal) : JsVal :=
  default notSetValue (d !! k).

(** [Object.assign(target, { k: v })] *)
Definition Object_assign (target : gmap string JsVal) (k : string) (v : JsVal)
  : gmap string JsVal := <[k := v]> target.

(** ** Completions: a JavaScript call returns a value or throws *)

Inductive JsError :=
| TypeError (msg : string)
| Error (msg : string).

Inductive Completion (A : Type) :=
| Return (a : A)
| Throw (e : JsError).
Arguments Return {A} a.
Arguments Throw {A} e.

(** ** Nodes

    Slate's node models.  A document, a block and an inline hold a key, a data
    map and a list of child nodes; a block and an inline also have a type.  A
    text node holds a key and its characters, and has neither [type] nor
    [nodes].  Keys are drawn from a global counter; the counter value stands
    for the key. *)

Definition Key := nat.

Inductive Shape :=
| Document
| Block (type : string)
| Inline (type : string).

Inductive Node :=
| Nd (shape : Shape) (key : Key) (data : Data) (nodes : list Node)
| Text (key : Key) (text : string).

(** [node.kind] *)
Definition kind (n : Node) : string :=
  match n with
  | Nd Document _ _ _ => "document"
  | Nd (Block _) _ _ _ => "block"
  | Nd (Inline _) _ _ _ => "inline"
  | Text _ _ => "text"
  end.

Definition key (n : Node) : Key :=
  match n with
  | Nd _ k _ _ => k
  | Text k _ => k
  end.

(** [node.type]; [None] is JavaScript's [undefined]. *)
Definition type (n : Node) : option string :=
  match n with
  | Nd (Block t) _ _ _ | Nd (Inline t) _ _ _ => Some t
  | _ => None
  end.

(** [node.nodes]; undefined on a text node. *)
Definition nodes (n : Node) : option (list Node) :=
  match n with
  | Nd _ _ _ ns => Some ns
  | Text _ _ => None
  end.

(** [node.data]; undefined on a text node. *)
Definition data (n : Node) : option Data :=
  match n with
  | Nd _ _ d _ => Some d
  | Text _ _ => None
  end.

(** The child list of a node, empty for a text node: used where the code has
    already established that the node is not a text node. *)
Definition children (n : Node) : list Node := default [] (nodes n).

(** [node.type === t] *)
Definition hasType (t : string) (n : Node) : bool :=
  bool_decide (type n = Some t).

(** [Slate.Block.isBlock(n)] and [n.kind === 'block'] *)
Definition isBlock (n : Node) : bool := bool_decide (kind n = "block").

(** [n.kind === 'text'] *)
Definition isText (n : Node) : bool := bool_decide (kind n = "text").

(** All keys of a tree, the node's own first. *)
Fixpoint keys (n : Node) : list Key :=
  match n with
  | Nd _ k _ ns => k :: concat (map keys ns)
  | Text k _ => [k]
  end.

(** All nodes of a tree, children before their parent: the order in which the
    host normalises them. *)
Fixpoint subtree (n : Node) : list Node :=
  match n with
  | Nd _ _ _ ns => concat (map subtree ns) ++ [n]
  | Text _ _ => [n]
  end.

(** *** Paths

    [getPath n k] is Slate's [node.getPath(key)]: the child indices leading
    from [n] to the first node with key [k] in document order, [[]] for [n]
    itself. *)

Fixpoint getPath (n : Node) (k : Key) : option (list nat) :=
  if decide (key n = k) then Some []
  else match n with
       | Nd _ _ _ ns =>
           (fix go (cs : list Node) (i : nat) : option (list nat) :=
              match cs with
              | [] => None
              | c :: cs' =>
                  match getPath c k with
                  | Some p => Some (i :: p)
                  | None => go cs' (S i)
                  end
              end) ns 0
       | Text _ _ => None
       end.

Fixpoint getAt (n : Node) (p : list nat) : option Node :=
  match p with
  | [] => Some n
  | i :: q =>
      match n with
      | Nd _ _ _ ns => match ns !! i with Some c => getAt c q | None => None end
      | Text _ _ => None
      end
  end.

(** Replace the child list of a node. *)
Definition withNodes (f : list Node → list Node) (n : Node) : Node :=
  match n with
  | Nd s k d ns => Nd s k d (f ns)
  | Text _ _ => n
  end.

(** Apply [f] to the node at path [p], leaving everything else as it is. *)
Fixpoint updateAt (p : list nat) (f : Node → Node) (n : Node) : Node :=
  match p with
  | [] => f n
  | i :: q => withNodes (alter (updateAt q f) i) n
  end.

(** [node.hasDescendant(key)]: a node other than [n] itself. *)
Definition hasDescendant (n : Node) (k : Key) : bool :=
  match getPath n k with
  | Some (_ :: _) => true
  | _ => false
  end.

(** A path split into the path of the parent and the index in the parent. *)
Fixpoint unsnoc (p : list nat) : option (list nat * nat) :=
  match p with
  | [] => None
  | [i] => Some ([], i)
  | i :: q => match unsnoc q with
              | Some (q', j) => Some (i :: q', j)
              | None => None
              end
  end.

(** [list.insert(index, value)] of an [Immutable.List]: an index beyond the
    end appends. *)
Definition insertAt {A} (i : nat) (x : A) (l : list A) : list A :=
  take i l ++ x :: drop i l.

(** [list.delete(index)] *)
Definition deleteAt {A} (i : nat) (l : list A) : list A :=
  take i l ++ drop (S i) l.

(** Replace the element at [i] by the elements of [xs]. *)
Definition spliceAt {A} (i : nat) (xs : list A) (l : list A) : list A :=
  take i l ++ xs ++ drop (S i) l.

(** ** The effect monad

    Creating a node draws its key from the global key counter, and any call
    may throw: a computation takes the counter and returns a completion with
    the new counter. *)

Definition JS (A : Type) : Type := Key → Completion (A * Key).

Definition ret {A} (a : A) : JS A := λ g, Return (a, g).

Definition bind {A B} (m : JS A) (f : A → JS B) : JS B :=
  λ g, match m g with
       | Return (a, g') => f a g'
       | Throw e => Throw e
       end.

Definition throw {A} (e : JsError) : JS A := λ _, Throw e.

(** Slate's [generateKey()] *)
Definition generateKey : JS Key := λ g, Return (g, S g).

Notation "'let*' x := m 'in' k" := (bind m (fun x => k))
  (at level 10, x pattern, m at level 100, k at level 200,
   format "'[v' 'let*'  x  :=  m  'in' '/' k ']'").

(** [list.forEach(f)] for a callback that edits the change it closes over. *)
Fixpoint forEach {A C} (l : list A) (f : A → C → JS C) (c : C) : JS C :=
  match l with
  | [] => ret c
  | x :: l' => let* c' := f x c in forEach l' f c'
  end.

(** ** State and change

    [Change] is the host's mutable edit builder: its methods replace the
    document of its state and record the operation.  The rules never read the
    selection and the model leaves it in place under an edit.  The methods are
    modelled as they edit the tree.  Unless it is called with
    [{ normalize: false }], a method ends by normalising the node it has
    touched against the host's core schema.  The rules make one such call in
    the middle of a repair, [insertTextByKey] in the cell rule, and for it the
    host's normalisation is part of the model: it is handed to
    [insertTextByKey] as a function.  Where such a call is the last step of a
    repair or of a command ([insertNodeByKey] in the table-content rule,
    [setNodeByKey] in [setColumnAlign]) the model ends with the edit. *)

Record Selection := { startKey : Key; startOffset : nat }.

Record State := { document : Node; selection : Selection }.

(** The properties [setNodeByKey] and [wrapBlockByKey] accept: a type, a data
    object, or both; a string argument stands for [{ type }]. *)
Record Properties := { p_type : option string; p_data : option Data }.

Inductive Operation :=
| op_insert_text (k : Key) (offset : nat) (s : string)
| op_unwrap_node (k : Key)
| op_wrap_block (k : Key) (props : Properties)
| op_remove_node (k : Key)
| op_insert_node (parent : Key) (index : nat) (n : Node)
| op_set_node (k : Key) (props : Properties).

Record Change := { state : State; operations : list Operation }.

(** The change after one operation has been applied. *)
Definition applied (c : Change) (doc : Node) (op : Operation) : Change :=
  {| state := {| document := doc; selection := selection (state c) |};
     operations := operations c ++ [op] |}.

(** [document.assertPath(key)] *)
Definition assertPath (doc : Node) (k : Key) : JS (list nat) :=
  match getPath doc k with
  | Some p => ret p
  | None => throw (Error "Could not find a node with that key")
  end.

(** The path of the parent of the node with key [k] and the node's index in
    it; the document itself has no parent. *)
Definition assertChildPath (doc : Node) (k : Key) : JS (list nat * nat) :=
  let* p := assertPath doc k in
  match unsnoc p with
  | Some qi => ret qi
  | None => throw (TypeError "Cannot read a property of null")
  end.

Definition assertAt (doc : Node) (p : list nat) : JS Node :=
  match getAt doc p with
  | Some n => ret n
  | None => throw (Error "Could not find a node at that path")
  end.

(** [change.removeNodeByKey(key)] *)
Definition removeNodeByKey (c : Change) (k : Key) : JS Change :=
  let doc := document (state c) in
  let* (q, i) := assertChildPath doc k in
  ret (applied c (updateAt q (withNodes (deleteAt i)) doc) (op_remove_node k)).

(** [change.insertNodeByKey(parentKey, index, node)].  The host gives a new key
    to an inserted node whose key is already in use under the parent; the
    properties below insert nodes with fresh keys only. *)
Definition insertNodeByKey (c : Change) (parent : Key) (index : nat) (n : Node)
  : JS Change :=
  let doc := document (state c) in
  let* p := assertPath doc parent in
  let* target := assertAt doc p in
  match target with
  | Nd _ _ _ _ =>
      ret (applied c (updateAt p (withNodes (insertAt index n)) doc)
             (op_insert_node parent index n))
  | Text _ _ => throw (TypeError "insertNode is not a function")
  end.

(** [record.merge(properties)]: a record refuses a key it does not have. *)
Definition merge (n : Node) (props : Properties) : JS Node :=
  match n with
  | Nd (Block t) k d ns =>
      ret (Nd (Block (default t (p_type props))) k (default d (p_data props)) ns)
  | Nd (Inline t) k d ns =>
      ret (Nd (Inline (default t (p_type props))) k (default d (p_data props)) ns)
  | Nd Document k d ns =>
      match p_type props with
      | Some _ => throw (Error "Cannot set unknown key type")
      | None => ret (Nd Document k (default d (p_data props)) ns)
      end
  | Text _ _ =>
      match p_type props, p_data props with
      | None, None => ret n
      | _, _ => throw (Error "Cannot set unknown key")
      end
  end.

(** [change.setNodeByKey(key, properties)] *)
Definition setNodeByKey (c : Change) (k : Key) (props : Properties) : JS Change :=
  let doc := document (state c) in
  let* p := assertPath doc k in
  let* n := assertAt doc p in
  let* n' := merge n props in
  ret (applied c (updateAt p (λ _, n') doc) (op_set_node k props)).

(** [change.wrapBlockByKey(key, block)]: the new block is created first, then
    the node is looked up and replaced by the block holding it. *)
Definition wrapBlockByKey (c : Change) (k : Key) (props : Properties) : JS Change :=
  let doc := document (state c) in
  match p_type props with
  | None => throw (Error "Block.create requires a type")
  | Some t =>
      let* bk := generateKey in
      let* (q, i) := assertChildPath doc k in
      let wrap n := Nd (Block t) bk (default ∅ (p_data props)) [n] in
      ret (applied c (updateAt q (withNodes (alter wrap i)) doc)
             (op_wrap_block k props))
  end.

Definition setKey (k : Key) (n : Node) : Node :=
  match n with
  | Nd s _ d ns => Nd s k d ns
  | Text _ t => Text k t
  end.

(** [change.unwrapNodeByKey(key)]: move the node out of its parent, next to
    it.  An only child replaces its parent; a first (last) child moves before
    (after) the parent; a child in between splits the parent in two, the
    second half under a new key. *)
Definition unwrapNodeByKey (c : Change) (k : Key) : JS Change :=
  let doc := document (state c) in
  let* (q, index) := assertChildPath doc k in
  let* parent := assertAt doc q in
  let* node := assertAt doc (q ++ [index]) in
  match unsnoc q with
  | None => throw (TypeError "Cannot read a property of null")
  | Some (qq, parentIndex) =>
      let size := length (children parent) in
      let* moved :=
        (if decide (size = 1) then ret [node]
         else if decide (index = 0) then
           ret [node; withNodes (deleteAt index) parent]
         else if decide (index = size - 1) then
           ret [withNodes (deleteAt index) parent; node]
         else
           let* k2 := generateKey in
           ret [withNodes (take index) parent; node;
                setKey k2 (withNodes (drop (S index)) parent)]) in
      ret (applied c (updateAt qq (withNodes (spliceAt parentIndex moved)) doc)
             (op_unwrap_node k))
  end.

(** [change.insertTextByKey(key, offset, text)], called without
    [{ normalize: false }]: the text is inserted, and then the host normalises
    the parent of the text node, and what is below it, against its core
    schema ([change.normalizeNodeByKey(parent.key, SCHEMA)]).  [normalize] is
    that normalisation, as a function of the parent: it gives the parent as
    the host leaves it, may create nodes and may throw. *)
Definition insertTextByKey (normalize : Node → JS Node) (c : Change) (k : Key)
    (offset : nat) (s : string) : JS Change :=
  let doc := document (state c) in
  let* p := assertPath doc k in
  let* n := assertAt doc p in
  match n with
  | Text tk t =>
      let t' := (String.substring 0 offset t ++ s
                 ++ String.substring offset (String.length t - offset) t)%string in
      let doc' := updateAt p (λ _, Text tk t') doc in
      match unsnoc p with
      | None => throw (TypeError "Cannot read a property of null")
      | Some (q, _) =>
          let* parent := assertAt doc' q in
          let* parent' := normalize parent in
          ret (applied c (updateAt q (λ _, parent') doc') (op_insert_text k offset s))
      end
  | Nd _ _ _ _ => throw (TypeError "insertText is not a function")
  end.

(** [Slate.Text.create(text)] and [Slate.Block.create({ type, nodes })] *)
Definition Text_create (s : string) : JS Node :=
  let* k := generateKey in ret (Text k s).

Definition Block_create (t : string) (d : Data) (ns : list Node) : JS Node :=
  let* k := generateKey in ret (Nd (Block t) k d ns).

(** [list.forEach((x, index) => ...)] *)
Fixpoint forEachFrom {A C} (i : nat) (l : list A) (f : nat → A → C → JS C) (c : C)
  : JS C :=
  match l with
  | [] => ret c
  | x :: l' => let* c' := f i x c in forEachFrom (S i) l' f c'
  end.

Definition forEachi {A C} (l : list A) (f : nat → A → C → JS C) (c : C) : JS C :=
  forEachFrom 0 l f c.

(** [Range(start, end)] of Immutable: ascending from [start] up to [end]
    excluded, and descending from [start] down to [end] excluded when
    [end < start]. *)
Definition Range (start stop : nat) : list nat :=
  if decide (start ≤ stop) then seq start (stop - start)
  else map (λ i, start - i) (seq 0 (start - stop)).

(** [node.nodes] and [node.data] where the code reads them unguarded. *)
Definition getNodes (n : Node) : JS (list Node) :=
  match nodes n with
  | Some ns => ret ns
  | None => throw (TypeError "Cannot read a property of undefined")
  end.

Definition getData (n : Node) : JS Data :=
  match data n with
  | Some d => ret d
  | None => throw (TypeError "Cannot read a property of undefined")
  end.

(** [value.length] *)
Definition getLength (v : JsVal) : JS JsVal :=
  match v with
  | JUndefined | JNull => throw (TypeError "Cannot read property length")
  | JArr l => ret (JNum (Z.of_nat (length l)))
  | JStr s => ret (JNum (Z.of_nat (String.length s)))
  | JObj m => ret (default JUndefined (m !! "length"))
  | JList _ | JNum _ => ret JUndefined
  end.

Definition newline : string := String "010"%char EmptyString.

(** The plugin options: the block types that stand for table, row and cell. *)
Record Options := { typeTable : string; typeRow : string; typeCell : string }.

(** The payload of the row rule: one entry per offending row. *)
Record InvalidRow := { row : Node; invalids : list Node; add : nat }.

(** What a rule's [validate] hands to its [normalize]. *)
Inductive Payload :=
| PNestedBlocks (nestedBlocks : list Node)
| PCells (cells : list Node)
| PRows (rows : list Node)
| PTable (invalids : list Node) (add : list Node)
| PInvalidRows (rows : list InvalidRow)
| PAlign (align : JsVal) (columns : nat).

(** A schema rule, as the host expects it. *)
Record Rule := {
  match_ : Node → bool;
  validate : Node → JS (option Payload);
  normalize : Change → Node → Payload → JS Change
}.

(** ** What the rules take from the language and from the host

    The alignment rule compares a length with a number by [==], which
    converts a string or an object to a number first; the cell rule makes the
    host normalise a block.  Neither conversion nor normalisation belongs to
    the program:
    - [StringToNumber s] is the number the string [s] converts to: [Some z]
      for the integer [z], [None] for any other number;
    - [ArrayToNumber v] is the number an array or an [Immutable.List]
      converts to, through its [toString]; the conversion throws when an
      element has no string form;
    - [normalizeCore n] is the node [n] as the host's normalisation against
      its core schema leaves it. *)
Record Host := {
  StringToNumber : string → option Z;
  ArrayToNumber : JsVal → Completion (option Z);
  normalizeCore : Node → JS Node
}.

Section Schema.

Variable host : Host.

(** [ALIGN.DEFAULT]: the table of alignment tags is not part of the sources;
    its default tag is a parameter. *)
Variable ALIGN_DEFAULT : string.

(** The number a value converts to (ToPrimitive, then ToNumber): [Some z] for
    the integer [z], [None] for any other number.  A plain object has no
    callable [valueOf] or [toString] of its own in this model; it converts
    through the inherited [toString] to a string that is no number, unless an
    entry of its own hides that [toString]: then the conversion throws. *)
Definition ToNumber (v : JsVal) : Completion (option Z) :=
  match v with
  | JNum z => Return (Some z)
  | JUndefined => Return None
  | JNull => Return (Some 0%Z)
  | JStr s => Return (StringToNumber host s)
  | JObj m =>
      match m !! "toString" with
      | Some _ => Throw (TypeError "Cannot convert object to primitive value")
      | None => Return None
      end
  | JArr _ | JList _ => ArrayToNumber host v
  end.

(** [v == n] for a number [n]: [null] and [undefined] equal no number and
    are not converted; any other value is compared as the number it converts
    to. *)
Definition looseEqNumber (v : JsVal) (n : nat) : JS bool :=
  match v with
  | JUndefined | JNull => ret false
  | _ => match ToNumber v with
         | Return (Some z) => ret (z =? Z.of_nat n)%Z
         | Return None => ret false
         | Throw e => throw e
         end
  end.

(** Modelled from the spec: [createAlign] is not part of the sources.  It
    returns a vector of length [width]; the positions below the length of
    [existing] copy its values and the remaining positions hold the default
    tag.  Only an array has positions; [existing] may be omitted
    ([JUndefined]). *)
Definition createAlign (width : nat) (existing : JsVal) : list JsVal :=
  map (λ i, match existing with
            | JArr l => default (JStr ALIGN_DEFAULT) (l !! i)
            | _ => JStr ALIGN_DEFAULT
            end) (seq 0 width).

Definition makeEmptyCell (opts : Options) : JS Node :=
  let* t := Text_create "" in
  Block_create (typeCell opts) ∅ [t].

Definition makeEmptyRow (opts : Options) : JS Node :=
  let* cell := makeEmptyCell opts in
  Block_create (typeRow opts) ∅ [cell].

(** *** Rule 1: cells only contain inlines or text *)

Definition noBlocksWithinCell_match (opts : Options) (node : Node) : bool :=
  bool_decide (kind node = "block") && hasType (typeCell opts) node.

Definition noBlocksWithinCell_validate (opts : Options) (node : Node)
  : JS (option (list Node)) :=
  let* ns := getNodes node in
  let nestedBlocks := List.filter isBlock ns in
  ret (if 0 <? length nestedBlocks then Some nestedBlocks else None).

Definition noBlocksWithinCell_normalize (opts : Options) (change : Change)
    (node : Node) (nestedBlocks : list Node) : JS Change :=
  forEachi nestedBlocks (λ index block change,
    let* grandChildren := getNodes block in
    forEach grandChildren (λ grandChild change,
      if hasDescendant (document (state change)) (key grandChild) then
        if isText grandChild && negb (index =? 0) then
          let* change := insertTextByKey (normalizeCore host) change
                           (key grandChild) 0 newline in
          unwrapNodeByKey change (key grandChild)
        else
          unwrapNodeByKey change (key grandChild)
      else ret change) change) change.

(** *** Rule 2: cells are always surrounded by a row *)

Definition cellsWithinTable_match (opts : Options) (node : Node) : bool :=
  (bool_decide (kind node = "document") || bool_decide (kind node = "block"))
  && negb (hasType (typeRow opts) node).

Definition cellsWithinTable_validate (opts : Options) (node : Node)
  : JS (option (list Node)) :=
  let* ns := getNodes node in
  let cells := List.filter (hasType (typeCell opts)) ns in
  ret (if bool_decide (cells = []) then None else Some cells).

Definition cellsWithinTable_normalize (opts : Options) (change : Change)
    (node : Node) (cells : list Node) : JS Change :=
  forEach cells (λ cell change,
    wrapBlockByKey change (key cell)
      {| p_type := Some (typeRow opts); p_data := None |}) change.

(** *** Rule 3: rows are always surrounded by a table *)

Definition rowsWithinTable_match (opts : Options) (node : Node) : bool :=
  (bool_decide (kind node = "document") || bool_decide (kind node = "block"))
  && negb (hasType (typeTable opts) node).

Definition rowsWithinTable_validate (opts : Options) (node : Node)
  : JS (option (list Node)) :=
  let* ns := getNodes node in
  let rows := List.filter (hasType (typeRow opts)) ns in
  ret (if bool_decide (rows = []) then None else Some rows).

Definition rowsWithinTable_normalize (opts : Options) (change : Change)
    (node : Node) (rows : list Node) : JS Change :=
  forEach rows (λ row change,
    let* cells := getNodes row in
    wrapBlockByKey change (key row)
      {| p_type := Some (typeTable opts);
         p_data := Some {[ "align" := JArr (createAlign (length cells) JUndefined) ]} |})
    change.

(** *** Rule 4: tables contain only rows, and at least one *)

Definition tablesContainOnlyRows_match (opts : Options) (node : Node) : bool :=
  hasType (typeTable opts) node.

Definition tablesContainOnlyRows_validate (opts : Options) (table : Node)
  : JS (option (list Node * list Node)) :=
  let isRow := hasType (typeRow opts) in
  let* ns := getNodes table in
  let invalids := List.filter (λ n, negb (isRow n)) ns in
  let* add := (if length invalids =? length ns
               then let* r := makeEmptyRow opts in ret [r]
               else ret []) in
  ret (if bool_decide (invalids = []) && (length add =? 0) then None
       else Some (invalids, add)).

Definition tablesContainOnlyRows_normalize (opts : Options) (change : Change)
    (node : Node) (value : list Node * list Node) : JS Change :=
  let '(invalids, add) := value in
  let* change := forEach invalids (λ child change,
                   removeNodeByKey change (key child)) change in
  forEach add (λ child change, insertNodeByKey change (key node) 0 child) change.

(** *** Rule 5: rows contain only cells, as many as the table has columns *)

Definition countCells (opts : Options) (row : Node) : nat :=
  length (List.filter (hasType (typeCell opts)) (children row)).

(** The number of columns of a table: the largest number of cells in one of
    its rows, and at least one. *)
Definition columnsOf (opts : Options) (rows : list Node) : nat :=
  fold_left (λ count row, Nat.max count (countCells opts row)) rows 1.

Definition rowsContainRequiredColumns_match (opts : Options) (node : Node) : bool :=
  hasType (typeTable opts) node.

(** The callback of [rows.map] in [validate]: [None] for a valid row (right
    count of cells and no extra node), else what is to be repaired. *)
Definition checkRow (opts : Options) (columns : nat) (row : Node) : option InvalidRow :=
  let isCell := hasType (typeCell opts) in
  let cells := countCells opts row in
  let invalids := List.filter (λ n, negb (isCell n)) (children row) in
  if bool_decide (invalids = []) && (cells =? columns) then None
  else Some {| row := row; invalids := invalids; add := columns - cells |}.

Definition rowsContainRequiredColumns_validate (opts : Options) (table : Node)
  : JS (option (list InvalidRow)) :=
  let isRow := hasType (typeRow opts) in
  let* ns := getNodes table in
  let rows := List.filter isRow ns in
  let columns := columnsOf opts rows in
  let invalidRows := omap (checkRow opts columns) rows in
  ret (if 0 <? length invalidRows then Some invalidRows else None).

Definition rowsContainRequiredColumns_normalize (opts : Options) (change : Change)
    (node : Node) (rows : list InvalidRow) : JS Change :=
  forEach rows (λ r change,
    let* change := forEach (invalids r) (λ child change,
        if negb (isBlock child) then
          wrapBlockByKey change (key child)
            {| p_type := Some (typeCell opts); p_data := None |}
        else
          setNodeByKey change (key child)
            {| p_type := Some (typeCell opts); p_data := None |}) change in
    forEachi (Range (length (invalids r)) (add r)) (λ index temp change,
        let* cell := makeEmptyCell opts in
        insertNodeByKey change (key (row r)) (length (invalids r) + index) cell)
      change) change.

(** *** Rule 6: the table node has all its align data *)

Definition tableContainAlignData_match (opts : Options) (node : Node) : bool :=
  hasType (typeTable opts) node.

Definition tableContainAlignData_validate (opts : Options) (table : Node)
  : JS (option (JsVal * nat)) :=
  let* d := getData table in
  let align := Map_get d "align" (JList []) in
  let* ns := getNodes table in
  let* cells := match head ns with
                | Some row => getNodes row
                | None => throw (TypeError "Cannot read property nodes of undefined")
                end in
  let columns := length cells in
  let* len := getLength align in
  let* same := looseEqNumber len columns in
  ret (if same then None else Some (align, columns)).

Definition tableContainAlignData_normalize (opts : Options) (transform : Change)
    (node : Node) (value : JsVal * nat) : JS Change :=
  let '(align, columns) := value in
  let* d := getData node in
  setNodeByKey transform (key node)
    {| p_type := None;
       p_data := Some (Object_assign (Data_toJS d) "align"
                         (JArr (createAlign columns align))) |}.

(** *** The schema *)

Definition badPayload : JS Change :=
  throw (TypeError "Cannot destructure the value handed to normalize").

Definition noBlocksWithinCell (opts : Options) : Rule :=
  {| match_ := noBlocksWithinCell_match opts;
     validate := λ n, let* v := noBlocksWithinCell_validate opts n in
                      ret (PNestedBlocks <$> v);
     normalize := λ c n v, match v with
                           | PNestedBlocks l => noBlocksWithinCell_normalize opts c n l
                           | _ => badPayload
                           end |}.

Definition cellsWithinTable (opts : Options) : Rule :=
  {| match_ := cellsWithinTable_match opts;
     validate := λ n, let* v := cellsWithinTable_validate opts n in
                      ret (PCells <$> v);
     normalize := λ c n v, match v with
                           | PCells l => cellsWithinTable_normalize opts c n l
                           | _ => badPayload
                           end |}.

Definition rowsWithinTable (opts : Options) : Rule :=
  {| match_ := rowsWithinTable_match opts;
     validate := λ n, let* v := rowsWithinTable_validate opts n in
                      ret (PRows <$> v);
     normalize := λ c n v, match v with
                           | PRows l => rowsWithinTable_normalize opts c n l
                           | _ => badPayload
                           end |}.

Definition tablesContainOnlyRows (opts : Options) : Rule :=
  {| match_ := tablesContainOnlyRows_match opts;
     validate := λ n, let* v := tablesContainOnlyRows_validate opts n in
                      ret ((λ '(i, a), PTable i a) <$> v);
     normalize := λ c n v, match v with
                           | PTable i a => tablesContainOnlyRows_normalize opts c n (i, a)
                           | _ => badPayload
                           end |}.

Definition rowsContainRequiredColumns (opts : Options) : Rule :=
  {| match_ := rowsContainRequiredColumns_match opts;
     validate := λ n, let* v := rowsContainRequiredColumns_validate opts n in
                      ret (PInvalidRows <$> v);
     normalize := λ c n v, match v with
                           | PInvalidRows l =>
                               rowsContainRequiredColumns_normalize opts c n l
                           | _ => badPayload
                           end |}.

Definition tableContainAlignData (opts : Options) : Rule :=
  {| match_ := tableContainAlignData_match opts;
     validate := λ n, let* v := tableContainAlignData_validate opts n in
                      ret ((λ '(a, c), PAlign a c) <$> v);
     normalize := λ c n v, match v with
                           | PAlign a k => tableContainAlignData_normalize opts c n (a, k)
                           | _ => badPayload
                           end |}.

Definition makeSchema (opts : Options) : list Rule :=
  [ noBlocksWithinCell opts;
    cellsWithinTable opts;
    rowsWithinTable opts;
    tablesContainOnlyRows opts;
    rowsContainRequiredColumns opts;
    tableContainAlignData opts ].

End Schema.

(** ** The rule engine

    Modelled from the spec: the engine belongs to the host editor and is not
    part of the sources.  For every node of the tree and every rule whose
    [match] holds, [validate] is called; on a violation the rule's [normalize]
    edits the change, and validation is run again on the edited tree, until no
    rule reports a violation or the iteration bound is exceeded.  Nodes are
    visited children first, rules in schema order. *)

Fixpoint validateNode (rules : list Rule) (n : Node) : JS (option (Rule * Payload)) :=
  match rules with
  | [] => ret None
  | r :: rules' =>
      if match_ r n then
        let* v := validate r n in
        match v with
        | Some value => ret (Some (r, value))
        | None => validateNode rules' n
        end
      else validateNode rules' n
  end.

Fixpoint findViolation (rules : list Rule) (ns : list Node)
  : JS (option (Node * Rule * Payload)) :=
  match ns with
  | [] => ret None
  | n :: ns' =>
      let* v := validateNode rules n in
      match v with
      | Some (r, value) => ret (Some (n, r, value))
      | None => findViolation rules ns'
      end
  end.

(** One repair: [None] when the tree has no violation left. *)
Definition normalizeStep (rules : list Rule) (c : Change) : JS (option Change) :=
  let* v := findViolation rules (subtree (document (state c))) in
  match v with
  | Some (n, r, value) => let* c' := normalize r c n value in ret (Some c')
  | None => ret None
  end.

Fixpoint normalizeWith (rules : list Rule) (fuel : nat) (c : Change) : JS Change :=
  let* r := normalizeStep rules c in
  match r with
  | None => ret c
  | Some c' =>
      match fuel with
      | 0 => throw (Error "A schema rule could not be validated after sufficient iterations")
      | S fuel' => normalizeWith rules fuel' c'
      end
  end.

(** A change that starts on a state, with no operation yet. *)
Definition Change_create (s : State) : Change := {| state := s; operations := [] |}.

(** ** The position resolver *)

(** The node [n] and the nodes below it along the path [p]. *)
Fixpoint along (n : Node) (p : list nat) : list Node :=
  n :: match p with
       | [] => []
       | i :: q => match children n !! i with
                   | Some c => along c q
                   | None => []
                   end
       end.

(** The position of the first element that satisfies [f], [-1] when there is
    none, as the language's index searches report it. *)
Definition findIndex {A} (f : A → bool) (l : list A) : Z :=
  match list_find (λ x, Is_true (f x)) l with
  | Some (i, _) => Z.of_nat i
  | None => (-1)%Z
  end.

(** The element at an index that may be negative or too large. *)
Definition getZ {A} (l : list A) (i : Z) : option A :=
  if (i <? 0)%Z then None else l !! Z.to_nat i.

Module TablePosition.

(** Modelled from the spec: the resolver is not part of the sources.  It
    walks the ancestors of the anchor node to the nearest row and the
    nearest table; the cell is the anchor itself when it is a cell, else its
    nearest cell ancestor.  The spec says what a position is inside a cell
    of a row of a table, and that resolving fails without a table; the
    model fails as well when the row or the cell is missing. *)
Record t := { table : Node; row : Node; cell : Node }.

Definition NotInTable : JsError := Error "NotInTable".

Definition create (opts : Options) (state : State) (anchorNode : Node) : JS t :=
  match getPath (document state) (key anchorNode) with
  | None => throw NotInTable
  | Some p =>
      let chain := rev (along (document state) p) in
      let ancestors := tail chain in
      match List.find (hasType (typeTable opts)) ancestors,
            List.find (hasType (typeRow opts)) ancestors,
            List.find (hasType (typeCell opts)) chain with
      | Some table, Some row, Some cell =>
          ret {| table := table; row := row; cell := cell |}
      | _, _, _ => throw NotInTable
      end
  end.

(** The rows of the table and the cells of a row: the children filtered to
    the relevant type. *)
Definition rows (opts : Options) (pos : t) : list Node :=
  List.filter (hasType (typeRow opts)) (children (table pos)).

Definition cellsOf (opts : Options) (r : Node) : list Node :=
  List.filter (hasType (typeCell opts)) (children r).

Definition getRowIndex (opts : Options) (pos : t) : Z :=
  findIndex (λ r, bool_decide (key r = key (row pos))) (rows opts pos).

Definition getColumnIndex (opts : Options) (pos : t) : Z :=
  findIndex (λ c, bool_decide (key c = key (cell pos))) (cellsOf opts (row pos)).

(** The table's column count: the widest row's cell count. *)
Definition getWidth (opts : Options) (pos : t) : nat :=
  foldr Nat.max 0 (map (λ r, length (cellsOf opts r)) (rows opts pos)).

Definition getHeight (opts : Options) (pos : t) : nat := length (rows opts pos).

Definition isFirstRow (opts : Options) (pos : t) : bool :=
  (getRowIndex opts pos =? 0)%Z.

Definition isLastRow (opts : Options) (pos : t) : bool :=
  (getRowIndex opts pos =? Z.of_nat (getHeight opts pos) - 1)%Z.

End TablePosition.

(** [state.startBlock]: the closest block above the start of the selection,
    [None] for [null]. *)
Definition startBlock (s : State) : option Node :=
  match getPath (document s) (startKey (selection s)) with
  | Some p => List.find isBlock (tail (rev (along (document s) p)))
  | None => None
  end.

(** The start block handed to the resolver; reading through [null] throws. *)
Definition assertStartBlock (s : State) : JS Node :=
  match startBlock s with
  | Some b => ret b
  | None => throw (TypeError "Cannot read a property of null")
  end.

(** [node.getFirstText()] *)
Definition getFirstText (n : Node) : option Node :=
  List.find isText (subtree n).

(** Modelled from the spec: [moveSelectionBy] is not part of the sources.  The
    target row is the row at the resolver's row index plus [y], the target
    cell the cell of that row at the column index plus [x]; the selection is
    put at the start of that cell.  The spec does not say what happens without
    such a cell; the model throws. *)
Definition moveSelectionBy (opts : Options) (change : Change) (x y : Z) : JS Change :=
  let* b := assertStartBlock (state change) in
  let* pos := TablePosition.create opts (state change) b in
  let rowIndex := TablePosition.getRowIndex opts pos in
  let colIndex := TablePosition.getColumnIndex opts pos in
  match getZ (TablePosition.rows opts pos) (rowIndex + y) with
  | None => throw (TypeError "Cannot read a property of undefined")
  | Some targetRow =>
      match getZ (TablePosition.cellsOf opts targetRow) (colIndex + x) with
      | None => throw (TypeError "Cannot read a property of undefined")
      | Some targetCell =>
          match getFirstText targetCell with
          | None => throw (TypeError "Cannot read a property of undefined")
          | Some t =>
              ret {| state := {| document := document (state change);
                                 selection := {| startKey := key t;
                                                 startOffset := 0 |} |};
                     operations := operations change |}
          end
      end
  end.

(** [array[i] = v]: an index past the end extends the array, the positions in
    between undefined; a negative index leaves the elements alone. *)
Definition arraySet (l : list JsVal) (i : Z) (v : JsVal) : list JsVal :=
  if (i <? 0)%Z then l
  else let n := Z.to_nat i in
       if n <? length l then <[n := v]> l
       else l ++ replicate (n - length l) JUndefined ++ [v].

(** The keyboard event, as far as the handler uses it.  [event.key] is the
    name the browser gives the key that was pressed: "ArrowUp" for the up
    arrow key and "ArrowDown" for the down arrow key. *)
Record Event := { event_key : string; defaultPrevented : bool }.

Definition preventDefault (e : Event) : Event :=
  {| event_key := event_key e; defaultPrevented := true |}.

Section Commands.

Variable ALIGN_DEFAULT : string.

(** [setColumnAlign(opts, change, align, at)]; an omitted argument is [None]. *)
Definition setColumnAlign (opts : Options) (change : Change)
    (align : option JsVal) (at_ : option Z) : JS Change :=
  let align := match align with
               | None | Some JUndefined => JStr ALIGN_DEFAULT
               | Some a => a
               end in
  let state := state change in
  let* startBlock := assertStartBlock state in
  let* pos := TablePosition.create opts state startBlock in
  let table := TablePosition.table pos in
  let at_ := match at_ with
             | None => TablePosition.getColumnIndex opts pos
             | Some a => a
             end in
  let* d := getData table in
  let newAlign := createAlign ALIGN_DEFAULT (TablePosition.getWidth opts pos)
                    (Map_get d "align" JUndefined) in
  let newAlign := arraySet newAlign at_ align in
  setNodeByKey change (key table)
    {| p_type := None;
       p_data := Some {[ "align" :=
                   JObj (Object_assign (Data_toJS d) "align" (JArr newAlign)) ]} |}.

End Commands.

(** [onUpDown(event, change, opts)]; the event comes back with the change, as
    the handler may have called [preventDefault] on it. *)
Definition onUpDown (event : Event) (change : Change) (opts : Options)
  : JS (Event * Change) :=
  let direction := if bool_decide (event_key event = "UpArrow") then (-1)%Z else 1%Z in
  let* b := assertStartBlock (state change) in
  let* pos := TablePosition.create opts (state change) b in
  if TablePosition.isFirstRow opts pos && (direction =? -1)%Z
     || TablePosition.isLastRow opts pos && (direction =? 1)%Z
  then ret (event, change)
  else
    let event := preventDefault event in
    let* change := moveSelectionBy opts change 0
                     (if bool_decide (event_key event = "UpArrow") then (-1)%Z else 1%Z) in
    ret (event, change).


(** ** Auxiliary definitions for the statements *)

(** The search of [getPath] among the children, from index [i] on. *)
Fixpoint getPathFrom (k : Key) (cs : list Node) (i : nat) : option (list nat) :=
  match cs with
  | [] => None
  | c :: cs' =>
      match getPath c k with
      | Some p => Some (i :: p)
      | None => getPathFrom k cs' (S i)
      end
  end.

(** A document is well keyed below a counter [g] when its keys are pairwise
    distinct and all were drawn before [g]. *)
Definition wellKeyed (g : Key) (n : Node) : Prop :=
  NoDup (keys n) ∧ Forall (λ k, k < g) (keys n).

(** The row [makeEmptyRow] builds when the key counter stands at [g]. *)
Definition emptyCellAt (opts : Options) (g : Key) : Node :=
  Nd (Block (typeCell opts)) (S g) ∅ [Text g ""].

Definition emptyRowAt (opts : Options) (g : Key) : Node :=
  Nd (Block (typeRow opts)) (S (S g)) ∅ [emptyCellAt opts g].


(** *** What the row rule makes of a table

    The outcome of [rowsContainRequiredColumns]'s [normalize], written as a
    function of the table's children and the key counter. *)

(** A child of an offending row: a cell stays, another block is retyped to a
    cell, any other node is wrapped in a new cell. *)
Definition convertChild (opts : Options) (child : Node) (g : Key) : Node * Key :=
  if hasType (typeCell opts) child then (child, g)
  else match child with
       | Nd (Block _) k d ns => (Nd (Block (typeCell opts)) k d ns, g)
       | _ => (Nd (Block (typeCell opts)) g ∅ [child], S g)
       end.

Fixpoint convertAll (opts : Options) (cs : list Node) (g : Key) : list Node * Key :=
  match cs with
  | [] => ([], g)
  | x :: cs' =>
      let '(x', g1) := convertChild opts x g in
      let '(cs'', g2) := convertAll opts cs' g1 in
      (x' :: cs'', g2)
  end.

(** [m] synthesized empty cells, built one after the other from counter [g]. *)
Definition emptyCells (opts : Options) (g : Key) (m : nat) : list Node :=
  map (λ j, emptyCellAt opts (g + 2 * j)) (seq 0 m).

(** The children of a row that are not cells. *)
Definition nonCells (opts : Options) (r : Node) : list Node :=
  List.filter (λ n, negb (hasType (typeCell opts) n)) (children r).

(** A row the rule reports: it has a child that is not a cell, or its number
    of cells is not the number of columns. *)
Definition offending (opts : Options) (columns : nat) (r : Node) : bool :=
  negb (bool_decide (nonCells opts r = []) && (countCells opts r =? columns)).

Definition padRow (opts : Options) (columns : nat) (r : Node) (g : Key) : Node * Key :=
  let inv := length (nonCells opts r) in
  let '(cs', g1) := convertAll opts (children r) g in
  let m := length (Range inv (columns - countCells opts r)) in
  (withNodes (λ _, take inv cs' ++ emptyCells opts g1 m ++ drop inv cs') r, g1 + 2 * m).

Fixpoint padRows (opts : Options) (columns : nat) (ns : list Node) (g : Key)
  : list Node * Key :=
  match ns with
  | [] => ([], g)
  | x :: ns' =>
      let '(x', g1) := if hasType (typeRow opts) x && offending opts columns x
                       then padRow opts columns x g else (x, g) in
      let '(ns'', g2) := padRows opts columns ns' g1 in
      (x' :: ns'', g2)
  end.

(** *** What the cell rule makes of a cell

    The outcome of [noBlocksWithinCell]'s [normalize] on the children of a
    cell.  [index] counts the block children met so far: it is the index of a
    block in [nestedBlocks]. *)

(** A grandchild as it arrives in the cell: a text node of a block that is
    not the first nested block has a newline put in front. *)
Definition markText (index : nat) (n : Node) : Node :=
  match n with
  | Text k t => if negb (index =? 0) then Text k (newline ++ t) else n
  | Nd _ _ _ _ => n
  end.

Fixpoint unwrapBlocks (index : nat) (cs : list Node) : list Node :=
  match cs with
  | [] => []
  | x :: cs' =>
      if isBlock x then
        match children x with
        | [] => [x]
        | gs => map (markText index) gs
        end ++ unwrapBlocks (S index) cs'
      else x :: unwrapBlocks index cs'
  end.

(** The nested block [b] as the cell rule hands it to the host: once for
    every text child of [b], with a newline in front of the characters of
    that child and with the children before it already moved out. *)
Fixpoint stagesOf (mk : list Node → Node) (gs : list Node) : list Node :=
  match gs with
  | [] => []
  | Text tk t :: rest => mk (Text tk (newline ++ t) :: rest) :: stagesOf mk rest
  | _ :: rest => stagesOf mk rest
  end.

Definition newlineStages (b : Node) : list Node :=
  match b with
  | Nd bs bk bd gs => stagesOf (Nd bs bk bd) gs
  | Text _ _ => []
  end.

(** The host's normalisation finds nothing to change in [n], and creates no
    node. *)
Definition leavesAlone (normalize : Node → JS Node) (n : Node) : Prop :=
  ∀ g, normalize n g = Return (n, g).

(** The host's normalisation does not step in while the cell rule repairs a
    cell with the children [cs]: it leaves alone every block the rule hands
    to it, which are the stages of the block children of the cell other than
    the first. *)
Definition hostLeaves (normalize : Node → JS Node) (cs : list Node) : Prop :=
  Forall (λ b, Forall (leavesAlone normalize) (newlineStages b))
    (tail (List.filter isBlock cs)).

(** *** Normalized trees *)

(** No rule of the schema that matches [n] reports a violation on it. *)
Definition noViolation (rules : list Rule) (n : Node) : Prop :=
  ∀ r, r ∈ rules → match_ r n = true →
       ∃ g g', validate r n g = Return (None, g').

(** The tree a normalisation pass stops on: no violation on any node. *)
Definition normalized (rules : list Rule) (doc : Node) : Prop :=
  ∀ n, n ∈ subtree doc → noViolation rules n.

(** A rule is steady when a validation that finds nothing draws no key. *)
Definition steady (r : Rule) : Prop :=
  ∀ n g g', validate r n g = Return (None, g') →
            ∀ g2, validate r n g2 = Return (None, g2).

(** The width of a table: the largest cell count of its rows, at least 1. *)
Definition width (opts : Options) (T : Node) : nat :=
  columnsOf opts (List.filter (hasType (typeRow opts)) (children T)).

(** *** The invariants of the six rules, in the words of the specification *)

Module Invariant.

(** 1. Cell content restriction: no block children inside a cell. *)
Definition cellContent (cell : Node) : Prop :=
  Forall (λ n, kind n ≠ "block") (children cell).

(** 2. Cell containment: the node has no direct cell children. *)
Definition cellContainment (opts : Options) (node : Node) : Prop :=
  Forall (λ n, type n ≠ Some (typeCell opts)) (children node).

(** 3. Row containment: the node has no direct row children. *)
Definition rowContainment (opts : Options) (node : Node) : Prop :=
  Forall (λ n, type n ≠ Some (typeRow opts)) (children node).

(** 4. Table content restriction: the table contains only rows, at least
    one. *)
Definition tableContent (opts : Options) (table : Node) : Prop :=
  children table ≠ []
  ∧ Forall (λ n, type n = Some (typeRow opts)) (children table).

(** 5. Row column completeness: every row has exactly as many cells as the
    table is wide, and no child that is not a cell. *)
Definition rowColumns (opts : Options) (table : Node) : Prop :=
  ∀ r, r ∈ children table → type r = Some (typeRow opts) →
       countCells opts r = width opts table
       ∧ Forall (λ n, type n = Some (typeCell opts)) (children r).

(** 6. Table alignment completeness: the length of the alignment vector is
    the table width, computed from the first row's cell count. *)
Definition alignment (opts : Options) (table : Node) : Prop :=
  ∃ d l r,
    data table = Some d ∧ d !! "align" = Some (JArr l)
    ∧ head (List.filter (hasType (typeRow opts)) (children table)) = Some r
    ∧ length l = countCells opts r.

End Invariant.

(** *** What the two containment rules make of a node

    The children that satisfy [P] are each wrapped in a new block of type
    [ty], whose data is computed from the child; the keys of the new blocks
    are drawn from [g] on, in order. *)
Fixpoint wrapEach (P : Node → bool) (ty : string) (pd : Node → option Data)
    (cs : list Node) (g : Key) : list Node :=
  match cs with
  | [] => []
  | x :: cs' =>
      if P x then Nd (Block ty) g (default ∅ (pd x)) [x] :: wrapEach P ty pd cs' (S g)
      else x :: wrapEach P ty pd cs' g
  end.

(** A node the schema has nothing to say about, whatever the key counter. *)
Definition quiet (rules : list Rule) (n : Node) : Prop :=
  ∀ g, validateNode rules n g = Return (None, g).

(** *** The text of a document *)

(** The text nodes of a tree, in document order. *)
Definition texts (n : Node) : list Node := List.filter isText (subtree n).

(** A text node as the cell rule may leave it: as it was, or with a newline
    put in front of its characters. *)
Definition sameOrNewline (a b : Node) : Prop :=
  b = a ∨ ∃ k t, a = Text k t ∧ b = Text k (newline ++ t).

(** A list of text nodes grown by empty text nodes only: the nodes of [l]
    are in [l'], in their order, and every other node of [l'] is an empty
    text. *)
Definition grownByEmpty (l l' : list Node) : Prop :=
  l `sublist_of` l' ∧ ∀ t, t ∈ l' → t ∈ l ∨ ∃ k, t = Text k "".

(** *** Concrete documents for the examples *)

Module Example.

(** The plugin's default options. *)
Definition opts : Options :=
  {| typeTable := "table"; typeRow := "table_row"; typeCell := "table_cell" |}.

(** Adjacent text nodes joined into the first of them, as the host's core
    schema does it. *)
Fixpoint joinTexts (ns : list Node) : list Node :=
  match ns with
  | [] => []
  | Text k a :: rest =>
      match joinTexts rest with
      | Text _ b :: rest' => Text k (a ++ b) :: rest'
      | rest' => Text k a :: rest'
      end
  | n :: rest => n :: joinTexts rest
  end.

(** A host for the examples: no string, no array and no list is numeric, and
    of the core schema the host knows one rule, to join the adjacent text
    nodes among the children of the node it normalises. *)
Definition host : Host :=
  {| StringToNumber := λ _, None;
     ArrayToNumber := λ _, Return None;
     normalizeCore := λ n, ret (withNodes joinTexts n) |}.

Definition DEFAULT : string := "default".

Definition schema : list Rule := makeSchema host DEFAULT opts.

Definition stateOf (doc : Node) (start : Key) : State :=
  {| document := doc; selection := {| startKey := start; startOffset := 0 |} |}.

Definition changeOf (doc : Node) (start : Key) : Change :=
  Change_create (stateOf doc start).

(** A cell with key [k] holding the text [s] under key [k + 1]. *)
Definition cell (k : Key) (s : string) : Node :=
  Nd (Block "table_cell") k ∅ [Text (S k) s].

Definition row (k : Key) (cells : list Node) : Node :=
  Nd (Block "table_row") k ∅ cells.

Definition paragraph (k : Key) (s : string) : Node :=
  Nd (Block "paragraph") k ∅ [Text (S k) s].

Definition aligned (l : list string) : Data :=
  {[ "align" := JArr (JStr <$> l) ]}.

(** Two sibling cells directly under the document. *)
Definition orphans : Node :=
  Nd Document 0 ∅ [cell 1 "a"; cell 3 "b"].

(** A table with a row of three cells and a row of one. *)
Definition ragged : Node :=
  Nd Document 0 ∅
    [Nd (Block "table") 1 (aligned ["default"; "default"; "default"])
       [row 2 [cell 3 "a"; cell 5 "b"; cell 7 "c"]; row 9 [cell 10 "d"]]].

(** A table whose only row holds a cell and two paragraphs. *)
Definition crowded : Node :=
  Nd Document 0 ∅
    [Nd (Block "table") 1 (aligned ["default"])
       [row 2 [cell 3 "a"; paragraph 5 "b"; paragraph 7 "c"]]].

(** A table whose first row holds a cell and a paragraph, with one
    alignment tag. *)
Definition lopsided : Node :=
  Nd (Block "table") 1 (aligned ["default"])
    [row 2 [cell 3 "a"; paragraph 5 "b"]].

(** A cell holding a text node and then a paragraph. *)
Definition mixedCell : Node :=
  Nd (Block "table_cell") 3 ∅ [Text 4 "a"; paragraph 5 "b"].


(** A table node whose only child is a text node. *)
Definition textTable : Node := Nd (Block "table") 1 ∅ [Text 2 "x"].

(** A table with a text, a row and a paragraph as children. *)
Definition littered : Node :=
  Nd Document 0 ∅
    [Nd (Block "table") 1 (aligned ["default"])
       [Text 2 "x"; row 3 [cell 4 "a"]; paragraph 6 "y"]].

(** A well-formed table of two rows and two columns. *)
Definition square : Node :=
  Nd Document 0 ∅
    [Nd (Block "table") 1 (aligned ["left"; "right"])
       [row 2 [cell 3 "a"; cell 5 "b"]; row 7 [cell 8 "c"; cell 10 "d"]]].

(** A row of two cells and a paragraph directly under the document. *)
Definition strayRow : Node :=
  Nd Document 0 ∅ [row 1 [cell 2 "a"; cell 4 "b"]; paragraph 6 "p"].

(** A table of one row of two cells, without alignment data. *)
Definition unaligned : Node :=
  Nd Document 0 ∅ [Nd (Block "table") 1 ∅ [row 2 [cell 3 "a"; cell 5 "b"]]].

(** A cell holding two paragraphs of one text each. *)
Definition twoParagraphs : Node :=
  Nd Document 0 ∅
    [Nd (Block "table") 1 (aligned ["default"])
       [row 2 [Nd (Block "table_cell") 3 ∅ [paragraph 4 "a"; paragraph 6 "b"]]]].

(** A cell holding a paragraph of one text and a paragraph of two adjacent
    texts. *)
Definition adjacentTexts : Node :=
  Nd Document 0 ∅
    [Nd (Block "table") 1 (aligned ["default"])
       [row 2 [Nd (Block "table_cell") 3 ∅
                 [paragraph 4 "x";
                  Nd (Block "paragraph") 6 ∅ [Text 7 "a"; Text 8 "b"]]]]].

(** A table whose align entry is an object with a length that does not
    convert to a primitive value. *)
Definition unconvertible : Node :=
  Nd (Block "table") 1
    {[ "align" := JObj {[ "length" :=
         JObj (<["valueOf" := JNum 0]> {[ "toString" := JNum 0 ]}) ]} ]}
    [row 2 [cell 3 "a"]].

(** A table without children and without data. *)
Definition bare : Node := Nd Document 0 ∅ [Nd (Block "table") 1 ∅ []].

End Example.
(** * Properties *)

(** ** Trees, keys and paths *)

Lemma Node_ind' (P : Node → Prop) :
  (∀ s k d ns, Forall P ns → P (Nd s k d ns)) →
  (∀ k t, P (Text k t)) →
  ∀ n, P n.
Proof.
  intros HN HT. fix IH 1. intros [s k d ns|k t]; [apply HN | apply HT].
  induction ns as [|c ns IHns]; constructor; [apply IH | apply IHns].
Qed.

Lemma getPath_Nd s k' d ns k :
  getPath (Nd s k' d ns) k
  = if decide (k' = k) then Some [] else getPathFrom k ns 0.
Proof.
  cbn [getPath key]. destruct (decide (k' = k)); [done|].
  generalize 0. induction ns as [|c ns IH]; intros i; [done|].
  cbn [getPathFrom]. destruct (getPath c k); [done|]. apply IH.
Qed.

Lemma getPath_Text k' t k :
  getPath (Text k' t) k = if decide (k' = k) then Some [] else None.
Proof. cbn [getPath key]. by destruct (decide (k' = k)). Qed.

Lemma keys_self n : key n ∈ keys n.
Proof. destruct n; cbn; left. Qed.

Lemma elem_of_concat_keys x (ns : list Node) :
  x ∈ concat (map keys ns) ↔ ∃ c, c ∈ ns ∧ x ∈ keys c.
Proof.
  induction ns as [|c ns IH]; cbn.
  - split; [by intros ?%elem_of_nil|]. by intros (? & ?%elem_of_nil & _).
  - rewrite elem_of_app, IH. split.
    + intros [Hx|(c' & Hc' & Hx)]; [exists c|exists c']; split; auto; by constructor.
    + intros (c' & [->|Hc']%elem_of_cons & Hx); eauto.
Qed.

Lemma keys_child s k d ns c x : c ∈ ns → x ∈ keys c → x ∈ keys (Nd s k d ns).
Proof. intros Hc Hx. cbn. right. apply elem_of_concat_keys. eauto. Qed.

Lemma getPath_keys n k p : getPath n k = Some p → k ∈ keys n.
Proof.
  revert p. induction n as [s k' d ns IH|k' t] using Node_ind'; intros p.
  - rewrite getPath_Nd. destruct (decide (k' = k)) as [->|Hne]; [intros _; left|].
    generalize 0. intros i Hp.
    induction ns as [|c ns IHns] in i, IH, Hp |- *; [done|].
    cbn [getPathFrom] in Hp. inversion_clear IH as [|? ? Hc Hns].
    destruct (getPath c k) as [q|] eqn:Hq.
    + eapply keys_child; [left|]. eauto.
    + specialize (IHns Hns _ Hp). cbn in IHns |- *.
      apply elem_of_cons in IHns as [->|Hin]; [left|].
      right. apply elem_of_app. by right.
  - rewrite getPath_Text. destruct (decide (k' = k)) as [->|]; [intros _; left|done].
Qed.

Lemma getAt_keys n p t : getAt n p = Some t → ∀ x, x ∈ keys t → x ∈ keys n.
Proof.
  revert n. induction p as [|i q IH]; intros n H x Hx.
  - by injection H as ->.
  - destruct n as [s k d ns|]; [|done]. cbn in H.
    destruct (ns !! i) as [c|] eqn:Hc; [|done].
    eapply keys_child; [by eapply list_elem_of_lookup_2|]. eauto.
Qed.

Lemma getPathFrom_lookup k cs i j c q :
  NoDup (concat (map keys cs)) →
  cs !! i = Some c → getPath c k = Some q →
  getPathFrom k cs j = Some ((j + i) :: q).
Proof.
  revert i j. induction cs as [|c' cs IH]; intros i j Hnd Hi Hq; [done|].
  cbn in Hnd. apply NoDup_app in Hnd as (Hc' & Hdisj & Hcs).
  destruct i as [|i]; cbn in Hi.
  - injection Hi as ->. cbn. rewrite Hq. by rewrite Nat.add_0_r.
  - cbn. destruct (getPath c' k) as [q'|] eqn:Hq'.
    + exfalso. apply getPath_keys in Hq', Hq.
      apply (Hdisj _ Hq'). apply elem_of_concat_keys.
      exists c. split; [by eapply list_elem_of_lookup_2|done].
    + rewrite (IH i (S j) Hcs Hi Hq). do 2 f_equal. lia.
Qed.

Lemma NoDup_keys_child s k d ns c : NoDup (keys (Nd s k d ns)) → c ∈ ns → NoDup (keys c).
Proof.
  cbn. intros Hnd%NoDup_cons_1_2 Hc.
  induction ns as [|c' ns IH]; [by apply elem_of_nil in Hc|].
  cbn in Hnd. apply NoDup_app in Hnd as (? & ? & ?).
  apply elem_of_cons in Hc as [->|Hc]; auto.
Qed.

(** With unique keys, looking up the key of the node at a path finds that
    path. *)
Lemma getPath_getAt n p t :
  NoDup (keys n) → getAt n p = Some t → getPath n (key t) = Some p.
Proof.
  revert n. induction p as [|i q IH]; intros n Hnd H.
  - injection H as ->. destruct t; cbn; by rewrite decide_True.
  - destruct n as [s k d ns|]; [|done]. cbn in H.
    destruct (ns !! i) as [c|] eqn:Hc; [|done].
    assert (c ∈ ns) as Hin by by eapply list_elem_of_lookup_2.
    rewrite getPath_Nd. rewrite decide_False.
    + rewrite (getPathFrom_lookup _ _ i 0 c q); [done| |done|].
      * by apply NoDup_cons_1_2 in Hnd.
      * apply IH; [|done]. by eapply NoDup_keys_child.
    + intros ->. cbn in Hnd. apply NoDup_cons_1_1 in Hnd. apply Hnd.
      apply elem_of_concat_keys. exists c. split; [done|].
      eapply getAt_keys; [done|apply keys_self].
Qed.

Lemma getAt_app n p q : getAt n (p ++ q) = getAt n p ≫= λ m, getAt m q.
Proof.
  revert n. induction p as [|i p IH]; intros n; [done|].
  destruct n as [s k d ns|]; [|done]. cbn. destruct (ns !! i); [apply IH|done].
Qed.

Lemma updateAt_app p q f n : updateAt (p ++ q) f n = updateAt p (updateAt q f) n.
Proof.
  revert n. induction p as [|i p IH]; intros n; [done|].
  destruct n as [s k d ns|]; [|done]. cbn. f_equal.
  apply list_alter_ext; auto.
Qed.

Lemma getAt_updateAt p f n : getAt (updateAt p f n) p = f <$> getAt n p.
Proof.
  revert n. induction p as [|i p IH]; intros n; [done|].
  destruct n as [s k d ns|]; [|done]. cbn.
  rewrite list_lookup_alter_eq. destruct (ns !! i); cbn; [apply IH|done].
Qed.

Lemma updateAt_updateAt p f g n :
  updateAt p g (updateAt p f n) = updateAt p (g ∘ f) n.
Proof.
  revert n. induction p as [|i p IH]; intros n; [done|].
  destruct n as [s k d ns|]; [|done]. cbn. f_equal.
  rewrite list_alter_alter_eq. apply list_alter_ext; [|done].
  intros x _. apply IH.
Qed.

(** Only the node at the path matters to an update. *)
Lemma updateAt_ext p f g n t :
  getAt n p = Some t → f t = g t → updateAt p f n = updateAt p g n.
Proof.
  revert n. induction p as [|i p IH]; intros n H Hfg.
  - injection H as ->. done.
  - destruct n as [s k d ns|]; [|done]. cbn in H |- *. f_equal.
    destruct (ns !! i) as [c|] eqn:Hc; [|done].
    apply list_alter_ext; [|done]. intros x Hx.
    rewrite Hc in Hx. injection Hx as <-. eauto.
Qed.

Lemma unsnoc_snoc p i : unsnoc (p ++ [i]) = Some (p, i).
Proof.
  induction p as [|j p IH]; [done|]. cbn [app unsnoc]. rewrite IH.
  by destruct p.
Qed.

(** The keys of a tree are listed in document order: an update at a path
    replaces one segment of the list. *)
Lemma keys_updateAt n p t :
  getAt n p = Some t →
  ∃ pre post, keys n = pre ++ keys t ++ post
              ∧ ∀ f, keys (updateAt p f n) = pre ++ keys (f t) ++ post.
Proof.
  revert n. induction p as [|i q IH]; intros n H.
  - injection H as ->. exists [], []. split; [|intros f]; cbn; by rewrite app_nil_r.
  - destruct n as [s k d ns|]; [|done]. cbn in H.
    destruct (ns !! i) as [c|] eqn:Hc; [|done].
    destruct (IH _ H) as (pre & post & Hk & Hf).
    apply list_elem_of_split_length in Hc as (l1 & l2 & -> & ->).
    exists (k :: concat (map keys l1) ++ pre), (post ++ concat (map keys l2)).
    split.
    + cbn. rewrite map_app, concat_app. cbn. rewrite Hk. by rewrite <-!app_assoc.
    + intros f. cbn. rewrite alter_app_r_alt by lia.
      rewrite Nat.sub_diag. cbn. rewrite map_app, concat_app. cbn.
      rewrite Hf. by rewrite <-!app_assoc.
Qed.

Lemma NoDup_updateAt doc p t t' :
  NoDup (keys doc) → getAt doc p = Some t →
  NoDup (keys t') →
  (∀ x, x ∈ keys t' → x ∈ keys t ∨ x ∉ keys doc) →
  NoDup (keys (updateAt p (λ _, t') doc)).
Proof.
  intros Hnd Hat Hnd' Hsub.
  destruct (keys_updateAt _ _ _ Hat) as (pre & post & Hk & Hf).
  rewrite Hf. rewrite Hk in Hnd, Hsub.
  apply NoDup_app in Hnd as (Hpre & Hd1 & Hnd).
  apply NoDup_app in Hnd as (_ & Hd2 & Hpost).
  apply NoDup_app. split_and!; [done| |apply NoDup_app; split_and!; [done| |done]].
  - intros x Hx [Hin|Hin]%elem_of_app.
    + destruct (Hsub _ Hin) as [Hin'|Hout].
      * apply (Hd1 x Hx). apply elem_of_app. by left.
      * apply Hout. apply elem_of_app. by left.
    + apply (Hd1 x Hx). apply elem_of_app. by right.
  - intros x Hin Hx. destruct (Hsub _ Hin) as [Hin'|Hout].
    + by apply (Hd2 x Hin').
    + apply Hout. rewrite !elem_of_app. auto.
Qed.

Lemma wellKeyed_updateAt g g' doc p t t' :
  wellKeyed g doc → getAt doc p = Some t →
  NoDup (keys t') →
  (∀ x, x ∈ keys t' → x ∈ keys t ∨ g ≤ x) →
  Forall (λ k, k < g') (keys t') → g ≤ g' →
  wellKeyed g' (updateAt p (λ _, t') doc).
Proof.
  intros [Hnd Hlt] Hat Hnd' Hsub Hlt' Hle. split.
  - eapply NoDup_updateAt; [done..|].
    intros x Hx. destruct (Hsub _ Hx) as [?|Hge]; [by left|right].
    intros Hin. rewrite Forall_forall in Hlt. specialize (Hlt _ Hin). lia.
  - destruct (keys_updateAt _ _ _ Hat) as (pre & post & Hk & Hf).
    rewrite Hf. rewrite Hk in Hlt.
    rewrite !Forall_app in Hlt |- *. destruct Hlt as (Hl1 & _ & Hl3).
    split_and!; [|done|]; eapply Forall_impl; eauto; cbn; lia.
Qed.

Lemma NoDup_getAt doc p t : NoDup (keys doc) → getAt doc p = Some t → NoDup (keys t).
Proof.
  intros Hnd Hat.
  destruct (keys_updateAt _ _ _ Hat) as (pre & post & Hk & _).
  rewrite Hk in Hnd.
  apply NoDup_app in Hnd as (_ & _ & Hnd). by apply NoDup_app in Hnd as (? & _ & _).
Qed.

Lemma wellKeyed_getAt g doc p t : wellKeyed g doc → getAt doc p = Some t → wellKeyed g t.
Proof.
  intros [Hnd Hlt] Hat.
  destruct (keys_updateAt _ _ _ Hat) as (pre & post & Hk & _).
  rewrite Hk in Hnd, Hlt. split.
  - apply NoDup_app in Hnd as (_ & _ & Hnd). by apply NoDup_app in Hnd as (? & _ & _).
  - rewrite !Forall_app in Hlt. tauto.
Qed.

(** ** The edits, on a document with unique keys *)

Lemma bind_Return {A B} (m : JS A) (f : A → JS B) g a g' :
  m g = Return (a, g') → bind m f g = f a g'.
Proof. unfold bind. by intros ->. Qed.

Lemma bind_Throw {A B} (m : JS A) (f : A → JS B) g e :
  m g = Throw e → bind m f g = Throw e.
Proof. unfold bind. by intros ->. Qed.

Lemma assertPath_getAt doc p t g :
  NoDup (keys doc) → getAt doc p = Some t →
  assertPath doc (key t) g = Return (p, g).
Proof. intros Hnd H. unfold assertPath. by rewrite (getPath_getAt _ _ _ Hnd H). Qed.

Lemma getAt_snoc doc p i s k d cs c :
  getAt doc p = Some (Nd s k d cs) → cs !! i = Some c → getAt doc (p ++ [i]) = Some c.
Proof. intros H Hc. rewrite getAt_app, H. cbn. by rewrite Hc. Qed.

Lemma assertChildPath_child doc p i s k d cs c g :
  NoDup (keys doc) → getAt doc p = Some (Nd s k d cs) → cs !! i = Some c →
  assertChildPath doc (key c) g = Return ((p, i), g).
Proof.
  intros Hnd H Hc. unfold assertChildPath.
  erewrite bind_Return; [|apply assertPath_getAt; [done|by eapply getAt_snoc]].
  by rewrite unsnoc_snoc.
Qed.

Lemma updateAt_same p doc t : getAt doc p = Some t → updateAt p (λ _, t) doc = doc.
Proof.
  revert doc. induction p as [|i p IH]; intros n H; [by injection H as ->|].
  destruct n as [s k d ns|]; [|done]. cbn in H |- *. f_equal.
  destruct (ns !! i) as [c|] eqn:Hc; [|done].
  apply list_eq. intros j. rewrite list_lookup_alter.
  destruct (decide (i = j)) as [->|]; [|done]. rewrite Hc. cbn. f_equal. by apply IH.
Qed.

Section Edits.

Context (c : Change).
Local Abbreviation doc := (document (state c)).

Lemma removeNodeByKey_child p s k d cs i child g :
  NoDup (keys doc) → getAt doc p = Some (Nd s k d cs) → cs !! i = Some child →
  removeNodeByKey c (key child) g
  = Return (applied c (updateAt p (λ _, Nd s k d (deleteAt i cs)) doc)
              (op_remove_node (key child)), g).
Proof.
  intros Hnd H Hc. unfold removeNodeByKey.
  erewrite bind_Return; [|by eapply assertChildPath_child]. unfold ret.
  erewrite updateAt_ext; [reflexivity|done|done].
Qed.

Lemma insertNodeByKey_at p s k d cs index n g :
  NoDup (keys doc) → getAt doc p = Some (Nd s k d cs) →
  insertNodeByKey c k index n g
  = Return (applied c (updateAt p (λ _, Nd s k d (insertAt index n cs)) doc)
              (op_insert_node k index n), g).
Proof.
  intros Hnd H. unfold insertNodeByKey.
  erewrite bind_Return; [|by apply (assertPath_getAt _ _ (Nd s k d cs))].
  unfold assertAt. rewrite H. cbn. unfold ret.
  erewrite updateAt_ext; [reflexivity|done|done].
Qed.

Lemma setNodeByKey_at p t t' props g :
  NoDup (keys doc) → getAt doc p = Some t →
  merge t props g = Return (t', g) →
  setNodeByKey c (key t) props g
  = Return (applied c (updateAt p (λ _, t') doc) (op_set_node (key t) props), g).
Proof.
  intros Hnd H Hm. unfold setNodeByKey.
  erewrite bind_Return; [|by apply assertPath_getAt].
  unfold assertAt. rewrite H. cbn.
  erewrite bind_Return; [|done]. done.
Qed.

Lemma wrapBlockByKey_child p s k d cs i child ty pd g :
  NoDup (keys doc) → getAt doc p = Some (Nd s k d cs) → cs !! i = Some child →
  wrapBlockByKey c (key child) {| p_type := Some ty; p_data := pd |} g
  = Return (applied c
              (updateAt p (λ _, Nd s k d
                 (<[i := Nd (Block ty) g (default ∅ pd) [child]]> cs)) doc)
              (op_wrap_block (key child) {| p_type := Some ty; p_data := pd |}), S g).
Proof.
  intros Hnd H Hc. unfold wrapBlockByKey. cbn [p_type p_data].
  erewrite bind_Return; [|reflexivity].
  erewrite bind_Return; [|by eapply assertChildPath_child]. unfold ret.
  erewrite updateAt_ext; [reflexivity|done|]. cbn. f_equal.
  apply list_eq. intros j. rewrite list_lookup_alter, list_lookup_insert.
  destruct (decide (i = j)) as [->|].
  - rewrite Hc. cbn. rewrite decide_True; [done|].
    split; [done|]. by eapply lookup_lt_Some.
  - rewrite decide_False by tauto. done.
Qed.

(** Inserting characters into a text node, where the host's normalisation
    leaves the parent of the text node alone. *)
Lemma insertTextByKey_at H q i s k d cs tk t offset s' g :
  let t' := (String.substring 0 offset t ++ s'
             ++ String.substring offset (String.length t - offset) t)%string in
  NoDup (keys doc) → getAt doc q = Some (Nd s k d cs) → cs !! i = Some (Text tk t) →
  leavesAlone H (Nd s k d (<[i := Text tk t']> cs)) →
  insertTextByKey H c tk offset s' g
  = Return (applied c (updateAt (q ++ [i]) (λ _, Text tk t') doc)
              (op_insert_text tk offset s'), g).
Proof.
  intros t' Hnd Hq Hi Halone. unfold insertTextByKey.
  pose proof (getAt_snoc _ _ _ _ _ _ _ _ Hq Hi) as Ht.
  erewrite bind_Return; [|by apply (assertPath_getAt _ _ (Text tk t))].
  erewrite bind_Return; [|by unfold assertAt; rewrite Ht].
  cbn beta iota. rewrite unsnoc_snoc. fold t'.
  assert (getAt (updateAt (q ++ [i]) (λ _, Text tk t') doc) q
          = Some (Nd s k d (<[i := Text tk t']> cs))) as Hq'.
  { rewrite updateAt_app, getAt_updateAt, Hq. cbn. do 2 f_equal.
    apply list_eq. intros j. rewrite list_lookup_alter, list_lookup_insert.
    destruct (decide (i = j)) as [->|].
    - rewrite Hi. cbn. rewrite decide_True; [done|].
      split; [done|]. by eapply lookup_lt_Some.
    - rewrite decide_False by tauto. done. }
  erewrite bind_Return; [|by unfold assertAt; rewrite Hq'].
  erewrite bind_Return; [|apply Halone]. unfold ret.
  by rewrite (updateAt_same _ _ _ Hq').
Qed.

End Edits.

(** ** Rule 4: the table-content rule *)

Lemma makeEmptyCell_eq opts g :
  makeEmptyCell opts g = Return (emptyCellAt opts g, S (S g)).
Proof. reflexivity. Qed.

Lemma makeEmptyRow_eq opts g :
  makeEmptyRow opts g = Return (emptyRowAt opts g, S (S (S g))).
Proof. reflexivity. Qed.

Lemma keys_children_sublist s k d (cs cs' : list Node) :
  cs' `sublist_of` cs → keys (Nd s k d cs') `sublist_of` keys (Nd s k d cs).
Proof.
  intros H. cbn. apply sublist_skip.
  induction H as [|x l1 l2 _ IH|x l1 l2 _ IH]; cbn; [done| |].
  - by apply sublist_app.
  - by apply sublist_inserts_l.
Qed.

Lemma deleteAt_app_length {A} (l1 l2 : list A) x :
  deleteAt (length l1) (l1 ++ x :: l2) = l1 ++ l2.
Proof.
  unfold deleteAt. rewrite take_app_length, drop_app_ge by lia.
  by replace (S (length l1) - length l1) with 1 by lia.
Qed.

Lemma insertAt_app_length {A} (l1 l2 : list A) x :
  insertAt (length l1) x (l1 ++ l2) = l1 ++ x :: l2.
Proof. unfold insertAt. by rewrite take_app_length, drop_app_length. Qed.

Lemma spliceAt_app_length {A} (l1 l2 xs : list A) x :
  spliceAt (length l1) xs (l1 ++ x :: l2) = l1 ++ xs ++ l2.
Proof.
  unfold spliceAt. rewrite take_app_length, drop_app_ge by lia.
  by replace (S (length l1) - length l1) with 1 by lia.
Qed.

Lemma insert_app_length {A} (l1 l2 : list A) x y :
  <[length l1 := y]> (l1 ++ x :: l2) = l1 ++ y :: l2.
Proof. by rewrite <-(Nat.add_0_r (length l1)), insert_app_r. Qed.

Lemma lookup_app_length {A} (l1 l2 : list A) x :
  (l1 ++ x :: l2) !! length l1 = Some x.
Proof. by rewrite lookup_app_r, Nat.sub_diag. Qed.

(** Removing, by key, the children that satisfy [P] leaves the others. *)
Lemma remove_children_loop (P : Node → bool) p s k d rest :
  ∀ kept c g,
    NoDup (keys (document (state c))) →
    getAt (document (state c)) p = Some (Nd s k d (kept ++ rest)) →
    ∃ c', forEach (List.filter P rest)
            (λ child change, removeNodeByKey change (key child)) c g
          = Return (c', g)
        ∧ document (state c')
          = updateAt p (λ _, Nd s k d (kept ++ List.filter (λ n, negb (P n)) rest))
              (document (state c))
        ∧ operations c'
          = operations c ++ map (λ n, op_remove_node (key n)) (List.filter P rest).
Proof.
  induction rest as [|x rest IH]; intros kept c g Hnd Hat.
  - exists c. cbn. split_and!; [done| |by rewrite app_nil_r].
    symmetry. by apply updateAt_same.
  - cbn [List.filter]. destruct (P x) eqn:HP; cbn [negb].
    + cbn [forEach].
      erewrite bind_Return;
        [|eapply removeNodeByKey_child; [done..|apply lookup_app_length]].
      set (c1 := applied c _ _).
      pose proof (deleteAt_app_length kept rest x) as Hdel.
      assert (keys (Nd s k d (kept ++ rest))
              `sublist_of` keys (Nd s k d (kept ++ x :: rest))) as Hsub.
      { apply keys_children_sublist, sublist_app; [done|by apply sublist_cons]. }
      destruct (IH kept c1 g) as (c' & Hrun & Hdoc & Hops).
      * subst c1. cbn. rewrite Hdel. eapply NoDup_updateAt; [done..| |].
        -- eapply sublist_NoDup; [|done]. by eapply NoDup_getAt.
        -- intros y Hy. left. by eapply elem_of_sublist.
      * subst c1. cbn. by rewrite getAt_updateAt, Hat, Hdel.
      * exists c'. split_and!; [done| |].
        -- rewrite Hdoc. subst c1. cbn. by rewrite updateAt_updateAt.
        -- rewrite Hops. subst c1. cbn. by rewrite <-app_assoc.
    + destruct (IH (kept ++ [x]) c g) as (c' & Hrun & Hdoc & Hops);
        [done|by rewrite <-app_assoc|].
      exists c'. split_and!; [done| |done].
      by rewrite Hdoc, <-app_assoc.
Qed.

Lemma filter_nil_iff {A} (P : A → bool) (l : list A) :
  List.filter P l = [] ↔ ∀ x, x ∈ l → P x = false.
Proof.
  induction l as [|a l IH]; cbn.
  - split; [by intros _ x ?%elem_of_nil|done].
  - destruct (P a) eqn:Ha.
    + split; [done|]. intros H. rewrite H in Ha; [done|left].
    + rewrite IH. split.
      * intros H x [->|?]%elem_of_cons; auto.
      * intros H x Hx. apply H. by right.
Qed.

Lemma filter_negb_length {A} (P : A → bool) (l : list A) :
  length (List.filter (λ x, negb (P x)) l) = length l ↔ List.filter P l = [].
Proof.
  pose proof (List.filter_length P l) as H. split.
  - intros Heq. apply length_zero_iff_nil. lia.
  - intros Heq. rewrite Heq in H. cbn in H. lia.
Qed.

(** C6: for a table at any place of a well-keyed document, whose
    children include a node that is not a row, or all of whose children are
    not rows (a table without children included), the table-content rule
    reports the children that are not rows, removes each of them by key and,
    exactly when no child is left then, inserts one synthesized empty row (a
    row holding one cell holding one empty text) at index 0: the table ends
    with its rows, or with that one row; nothing else in the document
    changes. *)
Theorem tablesContainOnlyRows_repairs opts c p s k d ns g :
  let doc := document (state c) in
  let table := Nd s k d ns in
  let isRow := hasType (typeRow opts) in
  wellKeyed g doc →
  getAt doc p = Some table →
  tablesContainOnlyRows_match opts table = true →
  (∃ n, n ∈ ns ∧ isRow n = false) ∨ (∀ n, n ∈ ns → isRow n = false) →
  ∃ invalids add g1 c',
    tablesContainOnlyRows_validate opts table g = Return (Some (invalids, add), g1)
    ∧ invalids = List.filter (λ n, negb (isRow n)) ns
    ∧ add = (if decide (List.filter isRow ns = []) then [emptyRowAt opts g] else [])
    ∧ tablesContainOnlyRows_normalize opts c table (invalids, add) g1 = Return (c', g1)
    ∧ operations c'
      = operations c ++ map (λ n, op_remove_node (key n)) invalids
        ++ map (op_insert_node k 0) add
    ∧ document (state c')
      = updateAt p (λ _, Nd s k d (add ++ List.filter isRow ns)) doc.
Proof.
  intros doc table isRow [Hnd _] Hat _ Hbad. subst doc table.
  set (invalids := List.filter (λ n, negb (isRow n)) ns).
  set (add := if decide (List.filter isRow ns = []) then [emptyRowAt opts g] else []).
  exists invalids, add.
  destruct (remove_children_loop (λ n, negb (isRow n)) p s k d ns [] c
              (if decide (List.filter isRow ns = []) then S (S (S g)) else g)
              Hnd Hat) as (c1 & Hrun & Hdoc & Hops).
  cbn [app] in Hdoc.
  assert (List.filter (λ n, negb (negb (isRow n))) ns = List.filter isRow ns) as Hnn.
  { apply List.filter_ext. intros n. apply negb_involutive. }
  rewrite Hnn in Hdoc.
  assert (getAt (document (state c1)) p = Some (Nd s k d (List.filter isRow ns))) as Hat1.
  { by rewrite Hdoc, getAt_updateAt, Hat. }
  assert (NoDup (keys (document (state c1)))) as Hnd1.
  { rewrite Hdoc. eapply NoDup_updateAt; [done..| |].
    - eapply sublist_NoDup; [by eapply NoDup_getAt|].
      apply keys_children_sublist. clear. induction ns as [|x l IH]; cbn; [done|].
      destruct (isRow x); by constructor.
    - intros x Hx. left. eapply elem_of_sublist; [done|].
      apply keys_children_sublist. clear. induction ns as [|y l IH]; cbn; [done|].
      destruct (isRow y); by constructor. }
  unfold tablesContainOnlyRows_validate, tablesContainOnlyRows_normalize.
  fold isRow. cbn [getNodes nodes]. fold invalids.
  erewrite bind_Return; [|reflexivity].
  destruct (decide (List.filter isRow ns = [])) as [Hnil|Hrows].
  - (* no row: one empty row is synthesized *)
    subst invalids.
    rewrite (proj2 (Nat.eqb_eq _ _) (proj2 (filter_negb_length isRow ns) Hnil)).
    exists (S (S (S g))), (applied c1 (updateAt p
                (λ _, Nd s k d (insertAt 0 (emptyRowAt opts g) (List.filter isRow ns)))
                (document (state c1))) (op_insert_node k 0 (emptyRowAt opts g))).
    split_and!; [|done|done| | |].
    + erewrite bind_Return; [|erewrite bind_Return; [reflexivity|apply makeEmptyRow_eq]].
      unfold ret. subst add. cbn. by rewrite andb_false_r.
    + erewrite bind_Return; [|exact Hrun]. subst add. cbn [forEach].
      erewrite bind_Return; [reflexivity|]. by eapply insertNodeByKey_at.
    + cbn. rewrite Hops. subst add. cbn. by rewrite <-app_assoc.
    + cbn. rewrite Hdoc, updateAt_updateAt. subst add. by rewrite Hnil.
  - subst invalids.
    rewrite (proj2 (Nat.eqb_neq _ _)) by by rewrite filter_negb_length.
    exists g, c1. subst add. cbn [app map]. rewrite app_nil_r.
    split_and!; [|done|done| |done|done].
    + erewrite bind_Return; [|reflexivity]. unfold ret. cbn.
      rewrite andb_true_r. rewrite bool_decide_eq_false_2; [done|].
      intros Hinv. destruct Hbad as [(n & Hn & Hrow)|Hall].
      * pose proof (proj1 (filter_nil_iff _ ns) Hinv n Hn) as Hn'.
        cbn in Hn'. by rewrite Hrow in Hn'.
      * by apply Hrows, filter_nil_iff.
    + erewrite bind_Return; [|exact Hrun]. reflexivity.
Qed.

(** ** Rule 5: the row rule *)

Lemma updateAt_child p i f doc s k d cs :
  getAt doc p = Some (Nd s k d cs) →
  updateAt (p ++ [i]) f doc = updateAt p (λ _, Nd s k d (alter f i cs)) doc.
Proof. intros H. rewrite updateAt_app. by eapply updateAt_ext. Qed.

Lemma alter_app_length {A} (f : A → A) (l1 l2 : list A) x :
  alter f (length l1) (l1 ++ x :: l2) = l1 ++ f x :: l2.
Proof. by rewrite alter_app_r_alt, Nat.sub_diag by lia. Qed.

Lemma keys_Nd_app s k d (l1 l2 : list Node) x :
  keys (Nd s k d (l1 ++ x :: l2)) ≡ₚ keys x ++ keys (Nd s k d (l1 ++ l2)).
Proof.
  cbn. rewrite !map_app, !concat_app. cbn.
  rewrite (Permutation_app_swap_app (concat (map keys l1))).
  by rewrite Permutation_middle.
Qed.

(** Replacing the subtree at a path by one with the same keys and some fresh
    ones keeps the document well keyed. *)
Lemma wellKeyed_updateAt_fresh g g' doc p t t' fresh :
  wellKeyed g doc → getAt doc p = Some t →
  keys t' ≡ₚ fresh ++ keys t → NoDup fresh →
  Forall (λ x, g ≤ x < g') fresh → g ≤ g' →
  wellKeyed g' (updateAt p (λ _, t') doc).
Proof.
  intros Hwk Hat Hperm Hnd Hfresh Hle.
  pose proof (wellKeyed_getAt _ _ _ _ Hwk Hat) as [Hndt Hltt].
  rewrite Forall_forall in Hfresh, Hltt.
  eapply wellKeyed_updateAt; [done..| | | |done].
  - rewrite Hperm. apply NoDup_app. split_and!; [done| |done].
    intros x Hx Hin. specialize (Hfresh _ Hx). specialize (Hltt _ Hin). lia.
  - intros x. rewrite Hperm, elem_of_app. intros [Hx|Hx]; [right|by left].
    by apply Hfresh.
  - rewrite Hperm, Forall_app. split; apply Forall_forall; intros x Hx.
    + specialize (Hfresh _ Hx). lia.
    + specialize (Hltt _ Hx). lia.
Qed.

Lemma hasType_Nd t n : hasType t n = true → ∃ s k d ns, n = Nd s k d ns.
Proof.
  destruct n as [s k d ns|]; [eauto|]. unfold hasType. cbn.
  by intros ?%bool_decide_eq_true.
Qed.

Lemma isBlock_Nd n : isBlock n = true → ∃ t k d ns, n = Nd (Block t) k d ns.
Proof.
  unfold isBlock. intros H%bool_decide_eq_true.
  destruct n as [[]|]; cbn in H; try discriminate. eauto.
Qed.

Lemma keys_Nd_replace s k d (l1 l2 : list Node) x x' fresh :
  keys x' ≡ₚ fresh ++ keys x →
  keys (Nd s k d (l1 ++ x' :: l2)) ≡ₚ fresh ++ keys (Nd s k d (l1 ++ x :: l2)).
Proof.
  intros H. rewrite !keys_Nd_app, H. by rewrite <-app_assoc.
Qed.

(** The first loop of the row rule: every child that is not a cell is made
    one. *)
Lemma convert_loop opts q rs rk rd todo :
  ∀ seen c g,
    wellKeyed g (document (state c)) →
    getAt (document (state c)) q = Some (Nd rs rk rd (seen ++ todo)) →
    ∃ c',
      forEach (List.filter (λ n, negb (hasType (typeCell opts) n)) todo)
        (λ child change,
           if negb (isBlock child) then
             wrapBlockByKey change (key child)
               {| p_type := Some (typeCell opts); p_data := None |}
           else
             setNodeByKey change (key child)
               {| p_type := Some (typeCell opts); p_data := None |}) c g
      = Return (c', (convertAll opts todo g).2)
      ∧ document (state c')
        = updateAt q (λ _, Nd rs rk rd (seen ++ (convertAll opts todo g).1))
            (document (state c))
      ∧ wellKeyed (convertAll opts todo g).2 (document (state c')).
Proof.
  induction todo as [|x todo IH]; intros seen c g Hwk Hat.
  - exists c. cbn. split_and!; [done| |done]. symmetry. by apply updateAt_same.
  - cbn [List.filter convertAll].
    destruct (hasType (typeCell opts) x) eqn:Hcell; cbn [negb].
    + unfold convertChild. rewrite Hcell.
      destruct (IH (seen ++ [x]) c g) as (c' & Hrun & Hdoc & Hwk');
        [done|by rewrite <-app_assoc|].
      destruct (convertAll opts todo g) as [cs' g2] eqn:Hconv. cbn in *.
      exists c'. split_and!; [done| |done]. by rewrite Hdoc, <-app_assoc.
    + cbn [forEach].
      assert (∃ x' g1 c1,
        (if negb (isBlock x) then
           wrapBlockByKey c (key x) {| p_type := Some (typeCell opts); p_data := None |}
         else
           setNodeByKey c (key x) {| p_type := Some (typeCell opts); p_data := None |}) g
        = Return (c1, g1)
        ∧ convertChild opts x g = (x', g1)
        ∧ document (state c1)
          = updateAt q (λ _, Nd rs rk rd (seen ++ x' :: todo)) (document (state c))
        ∧ wellKeyed g1 (document (state c1))) as (x' & g1 & c1 & Hstep & Hx' & Hdoc1 & Hwk1).
      { destruct (isBlock x) eqn:Hblock; cbn [negb].
        - apply isBlock_Nd in Hblock as (t & xk & xd & xns & ->).
          exists (Nd (Block (typeCell opts)) xk xd xns), g,
            (applied c
               (updateAt q (λ _, Nd rs rk rd
                  (seen ++ Nd (Block (typeCell opts)) xk xd xns :: todo))
                  (document (state c)))
               (op_set_node xk {| p_type := Some (typeCell opts); p_data := None |})).
          split_and!; [|by unfold convertChild; rewrite Hcell|reflexivity|].
          + erewrite (setNodeByKey_at c (q ++ [length seen]) (Nd (Block t) xk xd xns));
              [|apply Hwk|eapply getAt_snoc; [done|apply lookup_app_length]|reflexivity].
            cbn [default p_type p_data key].
            erewrite updateAt_child by done. by rewrite alter_app_length.
          + cbn. eapply (wellKeyed_updateAt_fresh g g _ _ _ _ []); [done..| | | |done].
            * cbn [app]. by apply (keys_Nd_replace _ _ _ _ _ _ _ []).
            * constructor.
            * constructor.
        - exists (Nd (Block (typeCell opts)) g ∅ [x]), (S g),
            (applied c
               (updateAt q (λ _, Nd rs rk rd
                  (seen ++ Nd (Block (typeCell opts)) g ∅ [x] :: todo))
                  (document (state c)))
               (op_wrap_block (key x)
                  {| p_type := Some (typeCell opts); p_data := None |})).
          split_and!; [| |reflexivity|].
          + erewrite wrapBlockByKey_child;
              [|apply Hwk|done|apply lookup_app_length].
            by rewrite insert_app_length.
          + unfold convertChild. rewrite Hcell. by destruct x as [[]|].
          + cbn. eapply (wellKeyed_updateAt_fresh g (S g) _ _ _ _ [g]); [done..| | | |lia].
            * apply (keys_Nd_replace _ _ _ _ _ _ _ [g]). cbn. by rewrite app_nil_r.
            * apply NoDup_singleton.
            * repeat constructor; lia. }
      rewrite Hx'. erewrite bind_Return; [|exact Hstep].
      destruct (IH (seen ++ [x']) c1 g1) as (c' & Hrun & Hdoc & Hwk');
        [done|by rewrite Hdoc1, getAt_updateAt, Hat, <-app_assoc|].
      destruct (convertAll opts todo g1) as [cs' g2] eqn:Hconv. cbn in *.
      exists c'. split_and!; [done| |done].
      by rewrite Hdoc, Hdoc1, updateAt_updateAt, <-app_assoc.
Qed.

Lemma emptyCells_S opts g m :
  emptyCells opts g (S m) = emptyCellAt opts g :: emptyCells opts (S (S g)) m.
Proof.
  unfold emptyCells. cbn [seq map]. rewrite <-seq_shift, map_map.
  f_equal; [f_equal; lia|]. apply map_ext. intros j. f_equal. lia.
Qed.

(** The second loop of the row rule: the synthesized cells go in after the
    first [inv] children, one behind the other. *)
Lemma insert_loop opts q rs rk rd pre post inv l :
  length pre = inv →
  ∀ i mid c g,
    length mid = i →
    wellKeyed g (document (state c)) →
    getAt (document (state c)) q = Some (Nd rs rk rd (pre ++ mid ++ post)) →
    ∃ c',
      forEachFrom i l
        (λ index (temp : nat) change,
           let* cell := makeEmptyCell opts in
           insertNodeByKey change rk (inv + index) cell) c g
      = Return (c', g + 2 * length l)
      ∧ document (state c')
        = updateAt q (λ _, Nd rs rk rd
                             (pre ++ mid ++ emptyCells opts g (length l) ++ post))
            (document (state c))
      ∧ wellKeyed (g + 2 * length l) (document (state c')).
Proof.
  intros Hpre. induction l as [|x l IH]; intros i mid c g Hmid Hwk Hat.
  - exists c. cbn. rewrite Nat.add_0_r. split_and!; [done| |done].
    symmetry. by apply updateAt_same.
  - cbn [forEachFrom length].
    erewrite bind_Return; [|erewrite bind_Return; [|apply makeEmptyCell_eq];
                            eapply insertNodeByKey_at; [apply Hwk|done]].
    set (c1 := applied c _ _).
    assert (insertAt (inv + i) (emptyCellAt opts g) (pre ++ mid ++ post)
            = pre ++ (mid ++ [emptyCellAt opts g]) ++ post) as Hins.
    { rewrite (app_assoc pre mid post).
      replace (inv + i) with (length (pre ++ mid)) by (rewrite length_app; lia).
      rewrite insertAt_app_length. by rewrite <-!app_assoc. }
    destruct (IH (S i) (mid ++ [emptyCellAt opts g]) c1 (S (S g)))
      as (c' & Hrun & Hdoc & Hwk').
    + rewrite length_app. cbn. lia.
    + subst c1. cbn. rewrite Hins.
      eapply (wellKeyed_updateAt_fresh g (S (S g)) _ _ _ _ [S g; g]); [done..| | | |lia].
      * replace (pre ++ (mid ++ [emptyCellAt opts g]) ++ post)
          with ((pre ++ mid) ++ emptyCellAt opts g :: post)
          by (by rewrite <-!app_assoc).
        rewrite (app_assoc pre mid post). apply keys_Nd_app.
      * apply NoDup_cons. split; [|apply NoDup_singleton].
        intros ?%list_elem_of_singleton. lia.
      * repeat constructor; lia.
    + subst c1. cbn. by rewrite getAt_updateAt, Hat, Hins.
    + exists c'. replace (g + 2 * S (length l)) with (S (S g) + 2 * length l) by lia.
      split_and!; [done| |done].
      rewrite Hdoc. subst c1. cbn [document state applied].
      rewrite updateAt_updateAt, emptyCells_S. unfold compose.
      by rewrite <-!app_assoc.
Qed.

Lemma convertAll_length opts cs g : length (convertAll opts cs g).1 = length cs.
Proof.
  revert g. induction cs as [|x cs IH]; intros g; [done|]. cbn.
  destruct (convertChild opts x g) as [x' g1].
  specialize (IH g1). destruct (convertAll opts cs g1). cbn in *. by rewrite IH.
Qed.

Lemma checkRow_offending opts columns x :
  checkRow opts columns x
  = if offending opts columns x
    then Some {| row := x; invalids := nonCells opts x;
                 add := columns - countCells opts x |}
    else None.
Proof.
  unfold checkRow, offending, nonCells.
  by destruct (bool_decide _ && _).
Qed.

(** The outer loop of the row rule, over the offending rows of a table. *)
Lemma rows_loop opts columns p s k d ttodo :
  ∀ tseen c g,
    wellKeyed g (document (state c)) →
    getAt (document (state c)) p = Some (Nd s k d (tseen ++ ttodo)) →
    ∃ c',
      rowsContainRequiredColumns_normalize opts c (Nd s k d (tseen ++ ttodo))
        (omap (checkRow opts columns) (List.filter (hasType (typeRow opts)) ttodo)) g
      = Return (c', (padRows opts columns ttodo g).2)
      ∧ document (state c')
        = updateAt p (λ _, Nd s k d (tseen ++ (padRows opts columns ttodo g).1))
            (document (state c))
      ∧ wellKeyed (padRows opts columns ttodo g).2 (document (state c')).
Proof.
  unfold rowsContainRequiredColumns_normalize.
  induction ttodo as [|x ttodo IH]; intros tseen c g Hwk Hat.
  - exists c. cbn. split_and!; [done| |done]. symmetry. by apply updateAt_same.
  - cbn [List.filter padRows].
    destruct (hasType (typeRow opts) x) eqn:Hrow; cbn [andb].
    2:{ destruct (IH (tseen ++ [x]) c g) as (c' & Hrun & Hdoc & Hwk');
          [done|by rewrite <-app_assoc|].
        destruct (padRows opts columns ttodo g) as [ns' g2]. cbn in *.
        exists c'. split_and!; [done| |done]. by rewrite Hdoc, <-app_assoc. }
    cbn [omap list_omap]. rewrite checkRow_offending.
    destruct (offending opts columns x) eqn:Hoff.
    2:{ destruct (IH (tseen ++ [x]) c g) as (c' & Hrun & Hdoc & Hwk');
          [done|by rewrite <-app_assoc|].
        destruct (padRows opts columns ttodo g) as [ns' g2]. cbn in *.
        exists c'. split_and!; [done| |done]. by rewrite Hdoc, <-app_assoc. }
    destruct (hasType_Nd _ _ Hrow) as (xs & xk & xd & xcs & ->).
    cbn [forEach row invalids add key].
    set (q := p ++ [length tseen]).
    assert (getAt (document (state c)) q = Some (Nd xs xk xd ([] ++ xcs))) as Hatq.
    { eapply getAt_snoc; [done|apply lookup_app_length]. }
    destruct (convert_loop opts q xs xk xd xcs [] c g Hwk Hatq)
      as (c1 & Hrun1 & Hdoc1 & Hwk1).
    cbn [app] in Hdoc1.
    unfold padRow, nonCells in *.
    change (children (Nd xs xk xd xcs)) with xcs in *.
    set (inv := length (List.filter (λ n, negb (hasType (typeCell opts) n)) xcs)) in *.
    destruct (convertAll opts xcs g) as [cs' g1] eqn:Hconv. cbn [fst snd] in *.
    assert (length cs' = length xcs) as Hlen
      by (by rewrite <-(convertAll_length opts xcs g), Hconv).
    assert (inv ≤ length xcs) as Hinv by apply List.filter_length_le.
    set (l := Range inv (columns - countCells opts (Nd xs xk xd xcs))).
    destruct (insert_loop opts q xs xk xd (take inv cs') (drop inv cs') inv l
                (ltac:(rewrite length_take; lia)) 0 [] c1 g1 eq_refl Hwk1)
      as (c2 & Hrun2 & Hdoc2 & Hwk2).
    { cbn [app]. by rewrite Hdoc1, getAt_updateAt, Hatq, take_drop. }
    cbn [app] in Hdoc2.
    rewrite Hdoc1, updateAt_updateAt in Hdoc2. unfold compose in Hdoc2.
    unfold q in Hdoc2. erewrite updateAt_child in Hdoc2 by done.
    rewrite alter_app_length in Hdoc2.
    set (x' := Nd xs xk xd (take inv cs' ++ emptyCells opts g1 (length l) ++ drop inv cs')) in *.
    destruct (IH (tseen ++ [x']) c2 (g1 + 2 * length l)) as (c' & Hrun & Hdoc & Hwk');
      [done|by rewrite Hdoc2, getAt_updateAt, Hat, <-app_assoc|].
    cbn [withNodes].
    destruct (padRows opts columns ttodo (g1 + 2 * length l)) as [ns' g2]. cbn [fst snd] in *.
    exists c'. split_and!; [| |done].
    + erewrite bind_Return; [exact Hrun|].
      erewrite bind_Return; [exact Hrun2|exact Hrun1].
    + by rewrite Hdoc, Hdoc2, updateAt_updateAt, <-app_assoc.
Qed.

Lemma convertChild_cell opts x g : hasType (typeCell opts) (convertChild opts x g).1 = true.
Proof.
  unfold convertChild. destruct (hasType (typeCell opts) x) eqn:Hx; [done|].
  unfold hasType. destruct x as [[]|]; by apply bool_decide_eq_true_2.
Qed.

Lemma convertAll_lookup opts cs g i child :
  cs !! i = Some child →
  ∃ gi, (convertAll opts cs g).1 !! i = Some (convertChild opts child gi).1.
Proof.
  revert g i. induction cs as [|x cs IH]; intros g i Hi; [done|].
  cbn [convertAll]. destruct (convertChild opts x g) as [x' g1] eqn:Hx.
  specialize (IH g1). destruct (convertAll opts cs g1) as [cs' g2].
  destruct i as [|i]; cbn in Hi |- *.
  - injection Hi as <-. exists g. by rewrite Hx.
  - by apply IH.
Qed.

Lemma convertAll_cells opts cs g :
  Forall (λ n, hasType (typeCell opts) n = true) (convertAll opts cs g).1.
Proof.
  apply Forall_lookup. intros i x' Hi.
  assert (i < length cs) as Hlt.
  { rewrite <-(convertAll_length opts cs g). by eapply lookup_lt_Some. }
  destruct (lookup_lt_is_Some_2 cs i Hlt) as [x Hx].
  destruct (convertAll_lookup opts cs g i x Hx) as [gi Hgi].
  rewrite Hgi in Hi. injection Hi as <-. apply convertChild_cell.
Qed.

Lemma emptyCells_cells opts g m :
  Forall (λ n, hasType (typeCell opts) n = true) (emptyCells opts g m).
Proof.
  unfold emptyCells. apply Forall_map, Forall_forall. intros j _.
  unfold hasType. by apply bool_decide_eq_true_2.
Qed.

Lemma Range_length_le start stop : start ≤ stop → length (Range start stop) = stop - start.
Proof. intros H. unfold Range. rewrite decide_True by done. apply length_seq. Qed.

Lemma padRows_lookup opts columns ns g j r :
  ns !! j = Some r →
  ∃ gr, (padRows opts columns ns g).1 !! j
        = Some (if hasType (typeRow opts) r && offending opts columns r
                then (padRow opts columns r gr).1 else r).
Proof.
  revert g j. induction ns as [|x ns IH]; intros g j Hj; [done|].
  cbn [padRows].
  destruct (if hasType (typeRow opts) x && offending opts columns x
            then padRow opts columns x g else (x, g)) as [x' g1] eqn:Hx.
  specialize (IH g1). destruct (padRows opts columns ns g1) as [ns' g2].
  destruct j as [|j]; cbn in Hj |- *.
  - injection Hj as <-. exists g. f_equal.
    destruct (hasType (typeRow opts) x && offending opts columns x);
      [by rewrite Hx|by injection Hx as <-].
  - by apply IH.
Qed.

Lemma padRows_length opts columns ns g : length (padRows opts columns ns g).1 = length ns.
Proof.
  revert g. induction ns as [|x ns IH]; intros g; [done|]. cbn [padRows].
  destruct (if hasType (typeRow opts) x && offending opts columns x
            then padRow opts columns x g else (x, g)) as [x' g1].
  specialize (IH g1). destruct (padRows opts columns ns g1). cbn in *. by rewrite IH.
Qed.

Lemma filter_all {A} (P : A → bool) (l : list A) :
  Forall (λ x, P x = true) l → List.filter P l = l.
Proof.
  induction 1 as [|x l Hx _ IH]; [done|]. cbn. by rewrite Hx, IH.
Qed.

(** The repair of the row rule on rows that are not crowded: in a well-keyed
    document, for a table at any place and the payload its [validate]
    reports, [normalize] leaves the children of the table that are not
    offending rows as they are, and in every offending row with no more
    children than the table has columns (the largest cell count of its rows,
    at least 1) it retypes each block that is not a cell to a cell, wraps
    each other child that is not a cell in a new cell, and then inserts
    synthesized empty cells, one behind the other from the child index equal
    to the number of converted children, until the row holds exactly as many
    cells as the table has columns, and nothing else. *)
Theorem rowsContainRequiredColumns_pads opts c p s k d ns g rows :
  let doc := document (state c) in
  let table := Nd s k d ns in
  let columns := columnsOf opts (List.filter (hasType (typeRow opts)) ns) in
  wellKeyed g doc →
  getAt doc p = Some table →
  rowsContainRequiredColumns_match opts table = true →
  rowsContainRequiredColumns_validate opts table g = Return (Some rows, g) →
  ∃ c' g' ns',
    rowsContainRequiredColumns_normalize opts c table rows g = Return (c', g')
    ∧ document (state c') = updateAt p (λ _, Nd s k d ns') doc
    ∧ length ns' = length ns
    ∧ ∀ j r, ns !! j = Some r →
        (hasType (typeRow opts) r && offending opts columns r = false →
         ns' !! j = Some r)
        ∧ (hasType (typeRow opts) r = true → offending opts columns r = true →
           length (children r) ≤ columns →
           ∃ gr r',
             let inv := length (nonCells opts r) in
             let cs' := (convertAll opts (children r) gr).1 in
             let gr' := (convertAll opts (children r) gr).2 in
             ns' !! j = Some r'
             ∧ r' = withNodes (λ _, take inv cs'
                                    ++ emptyCells opts gr' (columns - length (children r))
                                    ++ drop inv cs') r
             ∧ (∀ i child, children r !! i = Some child →
                  ∃ gi, cs' !! i = Some (convertChild opts child gi).1)
             ∧ Forall (λ n, hasType (typeCell opts) n = true) (children r')
             ∧ countCells opts r' = columns).
Proof.
  intros doc table columns Hwk Hat _ Hval. subst doc table.
  unfold rowsContainRequiredColumns_validate in Hval.
  cbn [getNodes nodes] in Hval. erewrite bind_Return in Hval; [|reflexivity].
  fold columns in Hval. unfold ret in Hval.
  assert (rows = omap (checkRow opts columns) (List.filter (hasType (typeRow opts)) ns))
    as ->.
  { injection Hval as Hval. destruct (0 <? length _) in Hval; [|done].
    by injection Hval as <-. }
  destruct (rows_loop opts columns p s k d ns [] c g Hwk Hat) as (c' & Hrun & Hdoc & _).
  cbn [app] in Hrun, Hdoc.
  exists c', (padRows opts columns ns g).2, (padRows opts columns ns g).1.
  split_and!; [done|done|apply padRows_length|].
  intros j r Hj.
  destruct (padRows_lookup opts columns ns g j r Hj) as [gr Hlook].
  split.
  - intros Hno. by rewrite Hno in Hlook.
  - intros Hrow Hoff Hlen. rewrite Hrow, Hoff in Hlook. cbn [andb] in Hlook.
    destruct (hasType_Nd _ _ Hrow) as (rs & rk & rd & rcs & ->).
    unfold padRow, nonCells in Hlook |- *.
    change (children (Nd rs rk rd rcs)) with rcs in *.
    pose proof (convertAll_length opts rcs gr) as Hlen'.
    pose proof (convertAll_cells opts rcs gr) as Hcells.
    pose proof (convertAll_lookup opts rcs gr) as Hpoint.
    destruct (convertAll opts rcs gr) as [cs' g1] eqn:Hconv. cbn [fst snd] in *.
    set (inv := length (List.filter (λ n, negb (hasType (typeCell opts) n)) rcs)) in *.
    assert (countCells opts (Nd rs rk rd rcs) + inv = length rcs) as Hsum
      by apply List.filter_length.
    rewrite Range_length_le in Hlook by lia.
    replace (columns - countCells opts (Nd rs rk rd rcs) - inv)
      with (columns - length rcs) in Hlook by lia.
    cbn [withNodes] in Hlook |- *.
    eexists gr, _. cbn zeta. rewrite Hconv. cbn [fst snd].
    split_and!; [exact Hlook|reflexivity|by intros; apply Hpoint| |].
    + cbn [children nodes default from_option id].
      rewrite !Forall_app. split_and!;
        [by apply Forall_take|apply emptyCells_cells|by apply Forall_drop].
    + unfold countCells. cbn [children nodes default from_option id].
      rewrite filter_all.
      * rewrite !length_app, length_take, length_drop.
        unfold emptyCells. rewrite length_map, length_seq. lia.
      * rewrite !Forall_app. split_and!;
          [by apply Forall_take|apply emptyCells_cells|by apply Forall_drop].
Qed.

(** ** Rule 1: the cell rule *)

Lemma NoDup_updateAt_sub doc p t t' dropped :
  NoDup (keys doc) → getAt doc p = Some t →
  keys t ≡ₚ dropped ++ keys t' →
  NoDup (keys (updateAt p (λ _, t') doc)).
Proof.
  intros Hnd Hat Hperm.
  pose proof (NoDup_getAt _ _ _ Hnd Hat) as Hndt. rewrite Hperm in Hndt.
  apply NoDup_app in Hndt as (_ & _ & Hndt').
  eapply NoDup_updateAt; [done..|].
  intros x Hx. left. rewrite Hperm, elem_of_app. by right.
Qed.

Lemma hasDescendant_child doc p i s k d cs x :
  NoDup (keys doc) → getAt doc p = Some (Nd s k d cs) → cs !! i = Some x →
  hasDescendant doc (key x) = true.
Proof.
  intros Hnd Hat Hx. unfold hasDescendant.
  rewrite (getPath_getAt doc (p ++ [i]) x Hnd); [|by eapply getAt_snoc].
  by destruct p.
Qed.

Lemma substring_all t : String.substring 0 (String.length t) t = t.
Proof. induction t as [|a t IH]; [done|]. cbn. by rewrite IH. Qed.

Lemma insert_text_front t s' :
  (String.substring 0 0 t ++ s' ++ String.substring 0 (String.length t - 0) t)%string
  = (s' ++ t)%string.
Proof. rewrite Nat.sub_0_r, substring_all. by destruct t. Qed.

(** Unwrapping the first child of a nested node. *)
Lemma unwrapNodeByKey_first c q s k d pre post bs bk bd x rest g :
  NoDup (keys (document (state c))) →
  getAt (document (state c)) q
  = Some (Nd s k d (pre ++ Nd bs bk bd (x :: rest) :: post)) →
  unwrapNodeByKey c (key x) g
  = Return (applied c
              (updateAt q (λ _, Nd s k d
                 (pre ++ match rest with
                         | [] => [x]
                         | _ => [x; Nd bs bk bd rest]
                         end ++ post)) (document (state c)))
              (op_unwrap_node (key x)), g).
Proof.
  intros Hnd Hat. unfold unwrapNodeByKey.
  assert (getAt (document (state c)) (q ++ [length pre])
          = Some (Nd bs bk bd (x :: rest))) as Hb.
  { eapply getAt_snoc; [done|apply lookup_app_length]. }
  erewrite bind_Return; [|by eapply (assertChildPath_child _ _ 0)].
  cbn beta iota. unfold assertAt. rewrite Hb. cbn beta iota.
  erewrite bind_Return; [|reflexivity].
  rewrite (getAt_snoc _ _ 0 _ _ _ _ x Hb eq_refl).
  erewrite bind_Return; [|reflexivity].
  rewrite unsnoc_snoc.
  change (children (Nd bs bk bd (x :: rest))) with (x :: rest).
  destruct rest as [|y rest].
  - cbn [length]. rewrite decide_True by done.
    erewrite bind_Return; [|reflexivity]. unfold ret.
    erewrite updateAt_ext; [reflexivity|done|].
    cbn [withNodes]. by rewrite spliceAt_app_length.
  - cbn [length]. rewrite decide_False by done. rewrite decide_True by done.
    erewrite bind_Return; [|reflexivity]. unfold ret.
    erewrite updateAt_ext; [reflexivity|done|].
    cbn [withNodes]. by rewrite spliceAt_app_length.
Qed.

Lemma keys_markText index x : keys (markText index x) = keys x.
Proof. destruct x; [done|]. cbn. by destruct (index =? 0). Qed.

(** The inner loop of the cell rule: the children of one nested block move
    into the cell, in order, and the emptied block goes. *)
Lemma unwrap_loop H index q s k d bs bk bd post gs :
  ∀ pre c g,
    gs ≠ [] →
    (index ≠ 0 → Forall (leavesAlone H) (stagesOf (Nd bs bk bd) gs)) →
    NoDup (keys (document (state c))) →
    getAt (document (state c)) q
    = Some (Nd s k d (pre ++ Nd bs bk bd gs :: post)) →
    ∃ c',
      forEach gs
        (λ grandChild change,
           if hasDescendant (document (state change)) (key grandChild) then
             if isText grandChild && negb (index =? 0) then
               let* change := insertTextByKey H change (key grandChild) 0 newline in
               unwrapNodeByKey change (key grandChild)
             else unwrapNodeByKey change (key grandChild)
           else ret change) c g
      = Return (c', g)
      ∧ document (state c')
        = updateAt q (λ _, Nd s k d (pre ++ map (markText index) gs ++ post))
            (document (state c))
      ∧ NoDup (keys (document (state c'))).
Proof.
  induction gs as [|x rest IH]; intros pre c g Hne Halone Hnd Hat; [done|].
  cbn [forEach map].
  assert (getAt (document (state c)) (q ++ [length pre])
          = Some (Nd bs bk bd (x :: rest))) as Hb.
  { eapply getAt_snoc; [done|apply lookup_app_length]. }
  rewrite (hasDescendant_child _ (q ++ [length pre]) 0 bs bk bd (x :: rest) x Hnd Hb eq_refl).
  (* the newline, when it is due *)
  assert (∃ c1,
    (if isText x && negb (index =? 0) then
       let* change := insertTextByKey H c (key x) 0 newline in
       unwrapNodeByKey change (key x)
     else unwrapNodeByKey c (key x)) g
    = unwrapNodeByKey c1 (key (markText index x)) g
    ∧ NoDup (keys (document (state c1)))
    ∧ getAt (document (state c1)) q
      = Some (Nd s k d (pre ++ Nd bs bk bd (markText index x :: rest) :: post))
    ∧ ∀ f, updateAt q f (document (state c1))
           = updateAt q (λ _, f (Nd s k d
               (pre ++ Nd bs bk bd (markText index x :: rest) :: post)))
               (document (state c)))
    as (c1 & Hstep & Hnd1 & Hat1 & Hupd1).
  { destruct (isText x && negb (index =? 0)) eqn:Hmark.
    - apply andb_true_iff in Hmark as [Htext Hidx].
      destruct x as [|tk t]; [by destruct shape|].
      cbn [markText key]. rewrite Hidx.
      apply negb_true_iff, Nat.eqb_neq in Hidx as Hidx'.
      specialize (Halone Hidx'). cbn [stagesOf] in Halone.
      apply Forall_cons in Halone as [Halone _].
      erewrite bind_Return;
        [|eapply (insertTextByKey_at c H (q ++ [length pre]) 0); [done..|];
          cbn [insert list_insert]; by rewrite insert_text_front].
      rewrite insert_text_front.
      erewrite (updateAt_child (q ++ [length pre])) by done.
      erewrite (updateAt_child q) by done. rewrite alter_app_length.
      cbn [alter list_alter].
      eexists. split_and!; [reflexivity| | |].
      + cbn. eapply (NoDup_updateAt_sub _ _ _ _ []); [done..|].
        cbn [app]. by rewrite !keys_Nd_app.
      + cbn. by rewrite getAt_updateAt, Hat.
      + intros f. cbn. by rewrite updateAt_updateAt.
    - exists c. split_and!.
      + f_equal. destruct x as [|tk t]; [done|]. cbn.
        cbn in Hmark. by destruct (index =? 0).
      + done.
      + rewrite Hat. do 4 f_equal. destruct x as [|tk t]; [done|]. cbn.
        cbn in Hmark. by destruct (index =? 0).
      + intros f. eapply updateAt_ext; [done|]. do 6 f_equal.
        destruct x as [|tk t]; [done|]. cbn.
        cbn in Hmark. by destruct (index =? 0). }
  erewrite bind_Return;
    [|rewrite Hstep;
      apply (unwrapNodeByKey_first c1 q s k d pre post bs bk bd _ rest g Hnd1 Hat1)].
  rewrite Hupd1. set (c2 := applied c1 _ _).
  destruct rest as [|y rest].
  - exists c2. split_and!; [done|done|].
    subst c2. cbn [document state applied].
    eapply (NoDup_updateAt_sub _ _ _ _ [bk]); [done..|].
    cbn [app]. rewrite !keys_Nd_app, keys_markText. cbn. by rewrite app_nil_r.
  - destruct (IH (pre ++ [markText index x]) c2 g) as (c' & Hrun & Hdoc & Hnd');
      [done| | | |].
    + intros Hidx. specialize (Halone Hidx). cbn [stagesOf] in Halone.
      destruct x; [done|]. by apply Forall_cons in Halone as [_ ?].
    + subst c2. cbn [document state applied].
      eapply (NoDup_updateAt_sub _ _ _ _ []); [done..|].
      cbn [app]. rewrite (keys_Nd_app _ _ _ pre (_ :: post)).
      rewrite !keys_Nd_app, keys_markText.
      rewrite !app_assoc. apply Permutation_app_tail. cbn.
      by rewrite Permutation_middle.
    + subst c2. cbn [document state applied].
      rewrite getAt_updateAt, Hat. cbn. by rewrite <-app_assoc.
    + exists c'. split_and!; [done| |done].
      rewrite Hdoc. subst c2. cbn [document state applied].
      rewrite updateAt_updateAt. unfold compose. by rewrite <-!app_assoc.
Qed.

(** The outer loop of the cell rule, over the nested blocks of a cell. *)
Lemma unwrap_blocks_loop H q s k d todo :
  ∀ seen index c g,
    Forall (λ b, Forall (leavesAlone H) (newlineStages b))
      (if index =? 0 then tail (List.filter isBlock todo)
       else List.filter isBlock todo) →
    NoDup (keys (document (state c))) →
    getAt (document (state c)) q = Some (Nd s k d (seen ++ todo)) →
    ∃ c',
      forEachFrom index (List.filter isBlock todo)
        (λ index block change,
           let* grandChildren := getNodes block in
           forEach grandChildren (λ grandChild change,
             if hasDescendant (document (state change)) (key grandChild) then
               if isText grandChild && negb (index =? 0) then
                 let* change := insertTextByKey H change (key grandChild) 0 newline in
                 unwrapNodeByKey change (key grandChild)
               else unwrapNodeByKey change (key grandChild)
             else ret change) change) c g
      = Return (c', g)
      ∧ document (state c')
        = updateAt q (λ _, Nd s k d (seen ++ unwrapBlocks index todo))
            (document (state c))
      ∧ NoDup (keys (document (state c'))).
Proof.
  induction todo as [|x todo IH]; intros seen index c g Halone Hnd Hat.
  - exists c. cbn. split_and!; [done| |done]. symmetry. by apply updateAt_same.
  - cbn [List.filter unwrapBlocks] in *. destruct (isBlock x) eqn:Hblock.
    2:{ destruct (IH (seen ++ [x]) index c g) as (c' & Hrun & Hdoc & Hnd');
          [done|done|by rewrite <-app_assoc|].
        exists c'. split_and!; [done| |done]. by rewrite Hdoc, <-app_assoc. }
    apply isBlock_Nd in Hblock as (t & xk & xd & gs & ->).
    assert (Forall (λ b, Forall (leavesAlone H) (newlineStages b))
              (List.filter isBlock todo)) as Hrest.
    { destruct (index =? 0); [done|]. by apply Forall_cons in Halone as [_ ?]. }
    assert (index ≠ 0 → Forall (leavesAlone H) (stagesOf (Nd (Block t) xk xd) gs))
      as Hhere.
    { intros Hidx. apply Nat.eqb_neq in Hidx. rewrite Hidx in Halone.
      by apply Forall_cons in Halone as [? _]. }
    cbn [forEachFrom]. change (children (Nd (Block t) xk xd gs)) with gs.
    destruct gs as [|y gs].
    + erewrite bind_Return; [|erewrite bind_Return; [|reflexivity]; reflexivity].
      destruct (IH (seen ++ [Nd (Block t) xk xd []]) (S index) c g)
        as (c' & Hrun & Hdoc & Hnd'); [done|done|by rewrite <-app_assoc|].
      exists c'. split_and!; [done| |done]. by rewrite Hdoc, <-app_assoc.
    + destruct (unwrap_loop H index q s k d (Block t) xk xd todo (y :: gs) seen c g)
        as (c1 & Hrun1 & Hdoc1 & Hnd1); [done..|].
      destruct (IH (seen ++ map (markText index) (y :: gs)) (S index) c1 g)
        as (c' & Hrun & Hdoc & Hnd'); [done|done| |].
      { by rewrite Hdoc1, getAt_updateAt, Hat, <-app_assoc. }
      exists c'. split_and!; [|
        by rewrite Hdoc, Hdoc1, updateAt_updateAt, <-app_assoc|done].
      erewrite bind_Return;
        [exact Hrun|erewrite bind_Return; [exact Hrun1|reflexivity]].
Qed.


(** ** Rule 6: the alignment rule *)

Lemma createAlign_length DEF w e : length (createAlign DEF w e) = w.
Proof. unfold createAlign. by rewrite length_map, length_seq. Qed.


Lemma looseEqNumber_JNum host (a b : nat) g :
  looseEqNumber host (JNum (Z.of_nat a)) b g = Return (bool_decide (a = b), g).
Proof.
  cbn. unfold ret. do 2 f_equal. destruct (Z.eqb_spec (Z.of_nat a) (Z.of_nat b)) as [H|H].
  - rewrite bool_decide_eq_true_2; [done|lia].
  - rewrite bool_decide_eq_false_2; [done|]. intros ->. done.
Qed.

Lemma looseEqNumber_Return host len n g :
  (∀ e, ToNumber host len ≠ Throw e) → ∃ b, looseEqNumber host len n g = Return (b, g).
Proof.
  intros H. unfold looseEqNumber.
  destruct len; try (by eexists);
    (destruct (ToNumber host _) as [[z|]|e] eqn:Hc; [by eexists..|by destruct (H e)]).
Qed.

Lemma looseEqNumber_counter host len n g b g1 g2 :
  looseEqNumber host len n g = Return (b, g1) →
  g1 = g ∧ looseEqNumber host len n g2 = Return (b, g2).
Proof.
  unfold looseEqNumber.
  destruct len; try (by intros [= <- <-]);
    (destruct (ToNumber host _) as [[z|]|e]; [by intros [= <- <-]..|done]).
Qed.

Lemma looseEqNumber_Throw host len n g e :
  ToNumber host len = Throw e → looseEqNumber host len n g = Throw e.
Proof.
  intros H. unfold looseEqNumber.
  destruct len; try done; by rewrite H.
Qed.

(** C10 (amended): on a node the alignment rule matches, [validate] throws
    when the table has no child, and also when its first child is a text
    node, which has no node list.  On every table whose first child has a
    node list and whose align entry, if there is one, is neither null nor
    undefined, the length of the align entry is read, and [validate] returns,
    either no violation or a payload, and leaves the key counter alone,
    whenever the comparison of that length with the column count can convert
    the length to a number, as it can when the length is a number, a string,
    undefined or null; when the conversion throws, because the length is an
    object that has neither a callable valueOf nor a callable toString,
    [validate] throws. *)
Theorem tableContainAlignData_validate_defined host opts table g :
  tableContainAlignData_match opts table = true →
  (children table = [] →
   ∃ e, tableContainAlignData_validate host opts table g = Throw e)
  ∧ (∀ k t rest, children table = Text k t :: rest →
     ∃ e, tableContainAlignData_validate host opts table g = Throw e)
  ∧ (∀ first rest cs d,
       children table = first :: rest → nodes first = Some cs →
       data table = Some d →
       d !! "align" ≠ Some JUndefined → d !! "align" ≠ Some JNull →
       ∃ len,
         getLength (Map_get d "align" (JList [])) g = Return (len, g)
         ∧ ((∀ e, ToNumber host len ≠ Throw e) →
            ∃ r, tableContainAlignData_validate host opts table g = Return (r, g))
         ∧ (∀ e, ToNumber host len = Throw e →
                 tableContainAlignData_validate host opts table g = Throw e)
         ∧ (match len with
            | JNum _ | JStr _ | JUndefined | JNull => True
            | _ => False
            end → ∀ e, ToNumber host len ≠ Throw e)).
Proof.
  intros Hm. apply hasType_Nd in Hm as (s & k & d & ns & ->).
  change (children (Nd s k d ns)) with ns.
  unfold tableContainAlignData_validate. cbn [getData data getNodes nodes].
  split_and!.
  - intros ->. eexists. reflexivity.
  - intros tk t rest ->. eexists. reflexivity.
  - intros first rest cs d' -> Hcs [= <-] Hu Hn.
    assert (∃ len, getLength (Map_get d "align" (JList [])) g = Return (len, g))
      as [len Hlen].
    { unfold Map_get. destruct (d !! "align") as [[]|] eqn:Ha; cbn [default getLength];
        try done; by eexists. }
    exists len. split_and!; [exact Hlen| | |].
    + intros Hconv.
      erewrite bind_Return; [|reflexivity]. erewrite bind_Return; [|reflexivity].
      cbn [head]. unfold getNodes at 1. rewrite Hcs.
      erewrite bind_Return; [|reflexivity]. erewrite bind_Return; [|exact Hlen].
      destruct (looseEqNumber_Return host len (length cs) g Hconv) as [b Hb].
      erewrite bind_Return; [|exact Hb]. by eexists.
    + intros e He.
      erewrite bind_Return; [|reflexivity]. erewrite bind_Return; [|reflexivity].
      cbn [head]. unfold getNodes at 1. rewrite Hcs.
      erewrite bind_Return; [|reflexivity]. erewrite bind_Return; [|exact Hlen].
      erewrite bind_Throw; [done|]. by apply looseEqNumber_Throw.
    + by destruct len.
Qed.

Lemma countCells_all opts r :
  Forall (λ n, hasType (typeCell opts) n = true) (children r) →
  countCells opts r = length (children r).
Proof. intros H. unfold countCells. by rewrite filter_all. Qed.


(** ** The rule engine *)

Lemma validateNode_None rules n :
  ∀ g g', validateNode rules n g = Return (None, g') → noViolation rules n.
Proof.
  induction rules as [|r rules IH]; intros g g' H r' Hr' Hm.
  - by apply elem_of_nil in Hr'.
  - cbn [validateNode] in H. destruct (match_ r n) eqn:Hmr.
    + unfold bind in H. destruct (validate r n g) as [[[v|] g1]|e] eqn:Hv; try done.
      apply elem_of_cons in Hr' as [->|Hr']; [eauto|]. by eapply IH.
    + apply elem_of_cons in Hr' as [->|Hr']; [congruence|]. by eapply IH.
Qed.

Lemma validateNode_steady rules n :
  Forall steady rules →
  ∀ g g', validateNode rules n g = Return (None, g') →
          ∀ g2, validateNode rules n g2 = Return (None, g2).
Proof.
  induction 1 as [|r rules Hr _ IH]; intros g g' H g2; [done|].
  cbn [validateNode] in H |- *. destruct (match_ r n); [|by eapply IH].
  unfold bind in H |- *. destruct (validate r n g) as [[[v|] g1]|e] eqn:Hv; try done.
  rewrite (Hr _ _ _ Hv g2). rewrite (Hr _ _ _ Hv g) in Hv.
  injection Hv as <-. by eapply IH.
Qed.

Lemma findViolation_None rules ns :
  ∀ g g', findViolation rules ns g = Return (None, g') →
          ∀ n, n ∈ ns → noViolation rules n.
Proof.
  induction ns as [|m ns IH]; intros g g' H n Hn; [by apply elem_of_nil in Hn|].
  cbn [findViolation] in H. unfold bind in H.
  destruct (validateNode rules m g) as [[[[r v]|] g1]|e] eqn:Hv; try done.
  apply elem_of_cons in Hn as [->|Hn]; [by eapply validateNode_None|by eapply IH].
Qed.

Lemma findViolation_steady rules ns :
  Forall steady rules →
  ∀ g g', findViolation rules ns g = Return (None, g') →
          ∀ g2, findViolation rules ns g2 = Return (None, g2).
Proof.
  intros Hst. induction ns as [|m ns IH]; intros g g' H g2; [done|].
  cbn [findViolation] in H |- *. unfold bind in H |- *.
  destruct (validateNode rules m g) as [[[[r v]|] g1]|e] eqn:Hv; try done.
  rewrite (validateNode_steady _ _ Hst _ _ Hv g2).
  rewrite (validateNode_steady _ _ Hst _ _ Hv g) in Hv. injection Hv as <-.
  by eapply IH.
Qed.

Lemma normalizeWith_unfold rules fuel c :
  normalizeWith rules fuel c
  = (let* r := normalizeStep rules c in
     match r with
     | None => ret c
     | Some c' =>
         match fuel with
         | 0 => throw (Error "A schema rule could not be validated after sufficient iterations")
         | S fuel' => normalizeWith rules fuel' c'
         end
     end).
Proof. by destruct fuel. Qed.

(** The engine stops on a tree on which its last validation found nothing. *)
Lemma normalizeWith_last rules fuel :
  ∀ c g c' g', normalizeWith rules fuel c g = Return (c', g') →
    ∃ g1, findViolation rules (subtree (document (state c'))) g1 = Return (None, g').
Proof.
  induction fuel as [|fuel IH]; intros c g c' g' H;
    rewrite normalizeWith_unfold in H; unfold bind at 1 in H;
    destruct (normalizeStep rules c g) as [[[c1|] g1]|e] eqn:Hstep; try done.
  - injection H as <- <-. unfold normalizeStep, bind in Hstep.
    destruct (findViolation _ _ g) as [[[[[n r] v]|] g2]|e] eqn:Hf; try done.
    + by destruct (normalize r c n v g2) as [[]|].
    + injection Hstep as <-. eauto.
  - by eapply IH.
  - injection H as <- <-. unfold normalizeStep, bind in Hstep.
    destruct (findViolation _ _ g) as [[[[[n r] v]|] g2]|e] eqn:Hf; try done.
    + by destruct (normalize r c n v g2) as [[]|].
    + injection Hstep as <-. eauto.
Qed.

Lemma normalizeWith_normalized rules fuel c g c' g' :
  normalizeWith rules fuel c g = Return (c', g') →
  normalized rules (document (state c')).
Proof.
  intros H. destruct (normalizeWith_last _ _ _ _ _ _ H) as [g1 Hf].
  intros n Hn. by eapply findViolation_None.
Qed.

(** A second pass over the outcome of a pass makes no edit. *)
Lemma normalizeWith_again rules fuel c g c' g' :
  Forall steady rules →
  normalizeWith rules fuel c g = Return (c', g') →
  ∀ fuel2, normalizeWith rules fuel2 (Change_create (state c')) g'
           = Return (Change_create (state c'), g').
Proof.
  intros Hst H fuel2. destruct (normalizeWith_last _ _ _ _ _ _ H) as [g1 Hf].
  rewrite normalizeWith_unfold. unfold bind at 1, normalizeStep, bind. cbn [state Change_create].
  by rewrite (findViolation_steady _ _ Hst _ _ Hf g').
Qed.

(** ** What the six validations compute *)

Lemma noBlocksWithinCell_validate_Nd opts s k d ns g :
  noBlocksWithinCell_validate opts (Nd s k d ns) g
  = Return (if 0 <? length (List.filter isBlock ns)
            then Some (List.filter isBlock ns) else None, g).
Proof. reflexivity. Qed.

Lemma cellsWithinTable_validate_Nd opts s k d ns g :
  cellsWithinTable_validate opts (Nd s k d ns) g
  = Return (if bool_decide (List.filter (hasType (typeCell opts)) ns = [])
            then None else Some (List.filter (hasType (typeCell opts)) ns), g).
Proof. reflexivity. Qed.

Lemma rowsWithinTable_validate_Nd opts s k d ns g :
  rowsWithinTable_validate opts (Nd s k d ns) g
  = Return (if bool_decide (List.filter (hasType (typeRow opts)) ns = [])
            then None else Some (List.filter (hasType (typeRow opts)) ns), g).
Proof. reflexivity. Qed.

Lemma tablesContainOnlyRows_validate_Nd opts s k d ns g :
  let invalids := List.filter (λ n, negb (hasType (typeRow opts) n)) ns in
  tablesContainOnlyRows_validate opts (Nd s k d ns) g
  = if length invalids =? length ns
    then Return (Some (invalids, [emptyRowAt opts g]), S (S (S g)))
    else Return (if bool_decide (invalids = []) then None
                 else Some (invalids, []), g).
Proof.
  intros invalids. unfold tablesContainOnlyRows_validate.
  cbn [getNodes nodes]. erewrite bind_Return; [|reflexivity]. fold invalids.
  destruct (length invalids =? length ns).
  - erewrite bind_Return; [|erewrite bind_Return; [reflexivity|apply makeEmptyRow_eq]].
    unfold ret. cbn. by rewrite andb_false_r.
  - erewrite bind_Return; [|reflexivity]. unfold ret. cbn. by rewrite andb_true_r.
Qed.

Lemma rowsContainRequiredColumns_validate_Nd opts s k d ns g :
  let rows := List.filter (hasType (typeRow opts)) ns in
  let invalidRows := omap (checkRow opts (columnsOf opts rows)) rows in
  rowsContainRequiredColumns_validate opts (Nd s k d ns) g
  = Return (if 0 <? length invalidRows then Some invalidRows else None, g).
Proof. reflexivity. Qed.

Lemma tableContainAlignData_validate_None host opts n g g' :
  tableContainAlignData_validate host opts n g = Return (None, g') →
  g' = g
  ∧ ∃ s k d fs fk fd cs rest len,
      n = Nd s k d (Nd fs fk fd cs :: rest)
      ∧ getLength (Map_get d "align" (JList [])) g = Return (len, g)
      ∧ ∀ g2, looseEqNumber host len (length cs) g2 = Return (true, g2).
Proof.
  unfold tableContainAlignData_validate.
  destruct n as [s k d [|[fs fk fd cs|] rest]|]; try done.
  cbn [getData data getNodes nodes head].
  erewrite bind_Return; [|reflexivity]. erewrite bind_Return; [|reflexivity].
  erewrite bind_Return; [|reflexivity].
  unfold bind, ret.
  destruct (getLength (Map_get d "align" (JList [])) g) as [[len g1]|e] eqn:Hlen; [|done].
  assert (g1 = g) as ->.
  { by destruct (Map_get d "align" (JList [])); cbn in Hlen; try done;
      injection Hlen as _ <-. }
  destruct (looseEqNumber host len (length cs) g) as [[same g1]|e] eqn:Heq; [|done].
  destruct (looseEqNumber_counter _ _ _ _ _ _ g Heq) as [-> _].
  destruct same; [|done].
  intros [= <-]. split; [done|].
  exists s, k, d, fs, fk, fd, cs, rest, len. split_and!; [done..|].
  intros g2. by destruct (looseEqNumber_counter _ _ _ _ _ _ g2 Heq).
Qed.

Lemma getLength_counter v g len g1 g2 :
  getLength v g = Return (len, g1) → getLength v g2 = Return (len, g2).
Proof.
  destruct v; cbn; unfold ret, throw; try done; by intros [= <- _].
Qed.

(** The rules of the schema are steady. *)
Lemma makeSchema_steady host DEF opts : Forall steady (makeSchema host DEF opts).
Proof.
  unfold makeSchema. repeat apply Forall_cons_2; [..|apply Forall_nil_2];
    intros n g g' H g2; cbn [validate noBlocksWithinCell cellsWithinTable
      rowsWithinTable tablesContainOnlyRows rowsContainRequiredColumns
      tableContainAlignData] in *.
  - destruct n as [s k d ns|]; [|done]. unfold bind in *.
    rewrite noBlocksWithinCell_validate_Nd in *.
    by destruct (0 <? _).
  - destruct n as [s k d ns|]; [|done]. unfold bind in *.
    rewrite cellsWithinTable_validate_Nd in *. by destruct (bool_decide _).
  - destruct n as [s k d ns|]; [|done]. unfold bind in *.
    rewrite rowsWithinTable_validate_Nd in *. by destruct (bool_decide _).
  - destruct n as [s k d ns|]; [|done]. unfold bind in *.
    rewrite tablesContainOnlyRows_validate_Nd in *.
    destruct (_ =? _); [done|]. by destruct (bool_decide _).
  - destruct n as [s k d ns|]; [|done]. unfold bind in *.
    rewrite rowsContainRequiredColumns_validate_Nd in *. by destruct (0 <? _).
  - unfold bind in H.
    destruct (tableContainAlignData_validate host opts n g)
      as [[[[a w]|] g1]|e] eqn:Hv; try done.
    apply tableContainAlignData_validate_None in Hv
      as (-> & s & k & d & fs & fk & fd & cs & rest & len & -> & Hlen & Heq).
    unfold tableContainAlignData_validate.
    cbn [getData data getNodes nodes head].
    erewrite bind_Return; [|erewrite bind_Return; [|reflexivity];
      erewrite bind_Return; [|reflexivity]; erewrite bind_Return; [|reflexivity];
      erewrite bind_Return; [|by eapply getLength_counter];
      erewrite bind_Return; [|apply Heq]; reflexivity].
    done.
Qed.

(** ** The width invariant *)

Lemma omap_nil {A B} (f : A → option B) (l : list A) :
  omap f l = [] → ∀ x, x ∈ l → f x = None.
Proof.
  induction l as [|a l IH]; intros H x Hx; [by apply elem_of_nil in Hx|].
  cbn in H. destruct (f a) eqn:Ha; [done|].
  apply elem_of_cons in Hx as [->|Hx]; auto.
Qed.

Lemma filter_negb_nil {A} (P : A → bool) (l : list A) :
  List.filter (λ x, negb (P x)) l = [] → List.filter P l = l.
Proof.
  intros H. apply filter_all, Forall_forall. intros x Hx.
  pose proof (proj1 (filter_nil_iff _ _) H x Hx) as Hn. cbn in Hn.
  by destruct (P x).
Qed.

Lemma in_schema host DEF opts i r :
  makeSchema host DEF opts !! i = Some r → r ∈ makeSchema host DEF opts.
Proof. apply list_elem_of_lookup_2. Qed.

(** What a table looks like when rules 4, 5 and 6 find nothing on it. *)
Lemma table_noViolation host DEF opts T :
  noViolation (makeSchema host DEF opts) T →
  hasType (typeTable opts) T = true →
  ∃ s k d fs fk fd cs rest a len,
    T = Nd s k d (Nd fs fk fd cs :: rest)
    ∧ Forall (λ n, hasType (typeRow opts) n = true) (children T)
    ∧ (∀ r, r ∈ children T →
         nonCells opts r = [] ∧ countCells opts r = width opts T)
    ∧ d !! "align" = Some a
    ∧ (∀ g, getLength a g = Return (len, g))
    ∧ ∀ g, looseEqNumber host len (width opts T) g = Return (true, g).
Proof.
  intros Hno HT.
  (* rule 6 *)
  destruct (Hno _ (in_schema host DEF opts 5 _ eq_refl) HT) as (g6 & g6' & H6).
  cbn [validate tableContainAlignData] in H6. unfold bind in H6.
  destruct (tableContainAlignData_validate host opts T g6)
    as [[[[a0 w]|] g1]|e] eqn:Hv; try done.
  apply tableContainAlignData_validate_None in Hv
    as (-> & s & k & d & fs & fk & fd & cs & rest & len & -> & Hlen & Heq).
  set (T := Nd s k d (Nd fs fk fd cs :: rest)) in *.
  set (ns := Nd fs fk fd cs :: rest) in *.
  (* rule 4 *)
  destruct (Hno _ (in_schema host DEF opts 3 _ eq_refl) HT) as (g4 & g4' & H4).
  cbn [validate tablesContainOnlyRows] in H4. unfold bind in H4.
  unfold T in H4. rewrite tablesContainOnlyRows_validate_Nd in H4.
  destruct (_ =? _); [done|]. unfold ret in H4.
  destruct (bool_decide _) eqn:Hinv in H4; [|done].
  apply bool_decide_eq_true in Hinv. apply filter_negb_nil in Hinv.
  (* rule 5 *)
  destruct (Hno _ (in_schema host DEF opts 4 _ eq_refl) HT) as (g5 & g5' & H5).
  cbn [validate rowsContainRequiredColumns] in H5. unfold bind in H5.
  unfold T in H5. rewrite rowsContainRequiredColumns_validate_Nd in H5.
  unfold ret in H5. destruct (0 <? _) eqn:Hz in H5; [done|].
  apply Nat.ltb_ge in Hz. apply Nat.le_0_r, length_zero_iff_nil in Hz.
  fold ns in Hinv, Hz. rewrite Hinv in Hz.
  assert (∀ r, r ∈ ns → nonCells opts r = [] ∧ countCells opts r = width opts T)
    as Hrows.
  { intros r Hr. pose proof (omap_nil _ _ Hz r Hr) as Hc.
    unfold width. change (children T) with ns. rewrite Hinv.
    rewrite checkRow_offending in Hc.
    destruct (offending opts (columnsOf opts ns) r) eqn:Hoff; [done|].
    unfold offending in Hoff. apply negb_false_iff, andb_true_iff in Hoff as [H1 H2].
    split; [by apply bool_decide_eq_true in H1|by apply Nat.eqb_eq in H2]. }
  assert (length cs = width opts T) as Hcs.
  { destruct (Hrows (Nd fs fk fd cs)) as [Hnc Hcount]; [left|].
    rewrite <-Hcount. symmetry. apply countCells_all.
    unfold nonCells in Hnc. apply filter_negb_nil in Hnc.
    rewrite <-Hnc. apply Forall_forall. intros x Hx.
    apply list_elem_of_In, List.filter_In in Hx. tauto. }
  unfold Map_get in Hlen. destruct (d !! "align") as [a|] eqn:Ha.
  2:{ cbn in Hlen. injection Hlen as <-. by specialize (Heq 0). }
  exists s, k, d, fs, fk, fd, cs, rest, a, len.
  split_and!; [done| |done|done| |by intros g; rewrite <-Hcs].
  - change (children T) with ns. rewrite <-Hinv. apply Forall_forall. intros x Hx.
    apply list_elem_of_In, List.filter_In in Hx. tauto.
  - intros g. by eapply getLength_counter.
Qed.

(** C1: when a full normalisation pass has come to its fixpoint, every table
    node T of the tree has only rows as children, every row of T has exactly
    width(T) cells and no other child, and the length of T's align entry
    equals width(T): the entry is there, its [length] equals the width in the
    sense of the rule's comparison, and an array there has exactly width(T)
    elements; width(T) is the largest cell count of T's rows, at least 1. *)
Theorem width_invariant host DEF opts fuel c g c' g' T :
  normalizeWith (makeSchema host DEF opts) fuel c g = Return (c', g') →
  T ∈ subtree (document (state c')) →
  hasType (typeTable opts) T = true →
  (∀ r, r ∈ children T →
     hasType (typeRow opts) r = true
     ∧ countCells opts r = width opts T
     ∧ length (children r) = width opts T)
  ∧ ∃ d a len,
      data T = Some d ∧ d !! "align" = Some a
      ∧ (∀ g0, getLength a g0 = Return (len, g0))
      ∧ (∀ g0, looseEqNumber host len (width opts T) g0 = Return (true, g0))
      ∧ ∀ l, a = JArr l → length l = width opts T.
Proof.
  intros Hrun HT Htable.
  pose proof (normalizeWith_normalized _ _ _ _ _ _ Hrun T HT) as Hno.
  destruct (table_noViolation _ _ _ _ Hno Htable)
    as (s & k & d & fs & fk & fd & cs & rest & a & len & -> & Hrows & Hcells & Ha & Hlen & Heq).
  split.
  - intros r Hr. rewrite Forall_forall in Hrows.
    destruct (Hcells r Hr) as [Hnc Hcount]. split_and!; [auto|done|].
    rewrite <-Hcount. symmetry. apply countCells_all.
    unfold nonCells in Hnc. apply filter_negb_nil in Hnc.
    rewrite <-Hnc. apply Forall_forall. intros x Hx.
    apply list_elem_of_In, List.filter_In in Hx. tauto.
  - exists d, a, len. split_and!; [done..|].
    intros l ->. specialize (Hlen 0). cbn in Hlen. injection Hlen as <-.
    specialize (Heq 0). rewrite looseEqNumber_JNum in Heq.
    injection Heq as Heq. by apply bool_decide_eq_true in Heq.
Qed.

(** ** Idempotence *)

Lemma omap_all_None {A B} (f : A → option B) (l : list A) :
  (∀ x, x ∈ l → f x = None) → omap f l = [].
Proof.
  induction l as [|a l IH]; intros H; [done|]. cbn.
  rewrite (H a) by left. apply IH. intros x Hx. apply H. by right.
Qed.

Lemma filter_none {A} (P : A → bool) (l : list A) :
  Forall (λ x, P x = false) l → List.filter P l = [].
Proof. intros H. apply filter_nil_iff. by apply Forall_forall. Qed.

Lemma hasType_true t n : hasType t n = true ↔ type n = Some t.
Proof. apply bool_decide_eq_true. Qed.

Lemma hasType_false t n : hasType t n = false ↔ type n ≠ Some t.
Proof. apply bool_decide_eq_false. Qed.

(** C2 (amended): each of the first five rules is idempotent: on a node the
    rule matches and that satisfies the rule's invariant, [validate] returns
    no violation, so [normalize] is not invoked.  The alignment rule returns no
    violation on a table that satisfies its invariant and the invariants of
    the table-content and row rules as well.  And a second normalisation pass
    over the tree a first pass ended on returns that tree and makes no
    edit. *)
Theorem rules_idempotent host DEF opts :
  (∀ n g, noBlocksWithinCell_match opts n = true → Invariant.cellContent n →
          noBlocksWithinCell_validate opts n g = Return (None, g))
  ∧ (∀ n g, cellsWithinTable_match opts n = true → Invariant.cellContainment opts n →
            cellsWithinTable_validate opts n g = Return (None, g))
  ∧ (∀ n g, rowsWithinTable_match opts n = true → Invariant.rowContainment opts n →
            rowsWithinTable_validate opts n g = Return (None, g))
  ∧ (∀ n g, tablesContainOnlyRows_match opts n = true → Invariant.tableContent opts n →
            tablesContainOnlyRows_validate opts n g = Return (None, g))
  ∧ (∀ n g, rowsContainRequiredColumns_match opts n = true →
            Invariant.rowColumns opts n →
            rowsContainRequiredColumns_validate opts n g = Return (None, g))
  ∧ (∀ n g, tableContainAlignData_match opts n = true →
            Invariant.alignment opts n →
            Invariant.tableContent opts n → Invariant.rowColumns opts n →
            tableContainAlignData_validate host opts n g = Return (None, g))
  ∧ (∀ fuel c g c' g',
       normalizeWith (makeSchema host DEF opts) fuel c g = Return (c', g') →
       ∀ fuel2,
         normalizeWith (makeSchema host DEF opts) fuel2 (Change_create (state c')) g'
         = Return (Change_create (state c'), g')).
Proof.
  split_and!.
  - intros n g Hm Hinv. apply andb_true_iff in Hm as [_ Hm].
    apply hasType_Nd in Hm as (s & k & d & ns & ->).
    rewrite noBlocksWithinCell_validate_Nd. rewrite filter_none; [done|].
    eapply Forall_impl; [exact Hinv|]. intros x Hx. by apply bool_decide_eq_false.
  - intros n g Hm Hinv. destruct n as [s k d ns|]; [|done].
    rewrite cellsWithinTable_validate_Nd. rewrite filter_none; [done|].
    eapply Forall_impl; [exact Hinv|]. intros x Hx. by apply hasType_false.
  - intros n g Hm Hinv. destruct n as [s k d ns|]; [|done].
    rewrite rowsWithinTable_validate_Nd. rewrite filter_none; [done|].
    eapply Forall_impl; [exact Hinv|]. intros x Hx. by apply hasType_false.
  - intros n g Hm [Hne Hall]. apply hasType_Nd in Hm as (s & k & d & ns & ->).
    change (children (Nd s k d ns)) with ns in *.
    rewrite tablesContainOnlyRows_validate_Nd. cbn zeta.
    rewrite filter_none.
    + destruct ns; [done|]. done.
    + eapply Forall_impl; [exact Hall|]. intros x Hx. cbn.
      by rewrite (proj2 (hasType_true _ _) Hx).
  - intros n g Hm Hinv. apply hasType_Nd in Hm as (s & k & d & ns & ->).
    rewrite rowsContainRequiredColumns_validate_Nd. cbn zeta.
    rewrite omap_all_None; [done|]. intros r Hr.
    apply list_elem_of_In, List.filter_In in Hr as [Hr Hrow].
    apply list_elem_of_In in Hr. apply hasType_true in Hrow.
    destruct (Hinv r Hr Hrow) as [Hcount Hcells].
    rewrite checkRow_offending. unfold offending, nonCells.
    rewrite filter_none.
    + rewrite bool_decide_eq_true_2 by done. cbn.
      fold (width opts (Nd s k d ns)). rewrite Hcount, Nat.eqb_refl. done.
    + eapply Forall_impl; [exact Hcells|]. intros x Hx. cbn.
      by rewrite (proj2 (hasType_true _ _) Hx).
  - intros n g Hm (d' & l & r & Hd & Hl & Hr & Hlen) [Hne Hall] Hcols.
    apply hasType_Nd in Hm as (s & k & d & ns & ->).
    change (children (Nd s k d ns)) with ns in *. injection Hd as <-.
    rewrite filter_all in Hr
      by (eapply Forall_impl; [exact Hall|]; intros x Hx; by apply hasType_true).
    destruct ns as [|first rest]; [done|]. injection Hr as ->.
    assert (type r = Some (typeRow opts)) as Hrow by by inversion Hall.
    destruct (Hcols r) as [_ Hcells]; [left|done|].
    destruct (hasType_Nd _ _ (proj2 (hasType_true _ _) Hrow)) as (fs & fk & fd & cs & ->).
    unfold tableContainAlignData_validate. cbn [getData data getNodes nodes head].
    erewrite bind_Return; [|reflexivity]. erewrite bind_Return; [|reflexivity].
    erewrite bind_Return; [|reflexivity].
    unfold Map_get. rewrite Hl. cbn [default getLength from_option id].
    erewrite bind_Return; [|reflexivity].
    erewrite bind_Return; [|apply looseEqNumber_JNum]. unfold ret.
    rewrite Hlen.
    rewrite countCells_all.
    + by rewrite bool_decide_eq_true_2.
    + eapply Forall_impl; [exact Hcells|]. intros x Hx. by apply hasType_true.
  - intros fuel c g c' g' Hrun fuel2.
    eapply normalizeWith_again; [apply makeSchema_steady|done].
Qed.

(** ** The up/down key handler *)

Lemma findIndex_lt {A} (f : A → bool) (l : list A) :
  (findIndex f l < Z.of_nat (length l))%Z.
Proof.
  unfold findIndex. destruct (list_find _ l) as [[i x]|] eqn:H; [|lia].
  apply list_find_Some in H as (Hl & _). apply lookup_lt_Some in Hl. lia.
Qed.

(** The handler on its own reading of the key, which takes the name "UpArrow"
    for up and every other name for down: for a selection that resolves to a
    position in a table, the handler returns the change untouched and the
    event not prevented exactly when the position is in the first row and the
    key reads as up, or in the last row and the key reads as down; in every
    other case it prevents the event's default and moves the selection by
    [moveSelectionBy], no column and one row in the direction read: the row
    before or after exists when the row of the position is one of the table's
    rows, and the selection goes to the start of the cell at the same column
    index in it. *)
Theorem onUpDown_spec opts event change b pos g :
  let up := bool_decide (event_key event = "UpArrow") in
  let direction := if up then (-1)%Z else 1%Z in
  let declines := TablePosition.isFirstRow opts pos && up
                  || TablePosition.isLastRow opts pos && negb up in
  startBlock (state change) = Some b →
  TablePosition.create opts (state change) b g = Return (pos, g) →
  (declines = true → onUpDown event change opts g = Return ((event, change), g))
  ∧ (declines = false →
     onUpDown event change opts g
     = (let* change' := moveSelectionBy opts change 0 direction in
        ret (preventDefault event, change')) g
     ∧ ((0 ≤ TablePosition.getRowIndex opts pos)%Z →
        ∃ targetRow,
          getZ (TablePosition.rows opts pos)
            (TablePosition.getRowIndex opts pos + direction) = Some targetRow)
     ∧ ∀ targetRow targetCell t,
         getZ (TablePosition.rows opts pos)
           (TablePosition.getRowIndex opts pos + direction) = Some targetRow →
         getZ (TablePosition.cellsOf opts targetRow)
           (TablePosition.getColumnIndex opts pos) = Some targetCell →
         getFirstText targetCell = Some t →
         onUpDown event change opts g
         = Return ((preventDefault event,
                    {| state := {| document := document (state change);
                                   selection := {| startKey := key t;
                                                   startOffset := 0 |} |};
                       operations := operations change |}), g)).
Proof.
  intros up direction declines Hb Hpos.
  assert (assertStartBlock (state change) g = Return (b, g)) as Hb'.
  { unfold assertStartBlock. by rewrite Hb. }
  assert (onUpDown event change opts g
          = if declines then Return ((event, change), g)
            else (let* change' := moveSelectionBy opts change 0 direction in
                  ret (preventDefault event, change')) g) as Hon.
  { unfold onUpDown. erewrite bind_Return; [|exact Hb'].
    erewrite bind_Return; [|exact Hpos]. fold up.
    replace ((if up then (-1)%Z else 1%Z) =? -1)%Z with up by by destruct up.
    replace ((if up then (-1)%Z else 1%Z) =? 1)%Z with (negb up) by by destruct up.
    fold declines. destruct declines; [done|]. reflexivity. }
  rewrite Hon. split; intros Hdec; rewrite Hdec; [done|]. split_and!; [done| |].
  - intros Hrow.
    pose proof (findIndex_lt (λ r, bool_decide (key r = key (TablePosition.row pos)))
                  (TablePosition.rows opts pos)) as Hlt.
    fold (TablePosition.getRowIndex opts pos) in Hlt.
    unfold declines, TablePosition.isFirstRow, TablePosition.isLastRow,
      TablePosition.getHeight in Hdec.
    assert (0 ≤ TablePosition.getRowIndex opts pos + direction
            < Z.of_nat (length (TablePosition.rows opts pos)))%Z as Hin.
    { subst direction. destruct up; cbn [negb] in Hdec;
        rewrite ?andb_true_r, ?andb_false_r, ?orb_false_r in Hdec;
        cbn [orb] in Hdec; apply Z.eqb_neq in Hdec; lia. }
    unfold getZ. destruct (Z.ltb_spec (TablePosition.getRowIndex opts pos + direction) 0);
      [lia|].
    apply lookup_lt_is_Some_2. lia.
  - intros targetRow targetCell t Hrow Hcell Ht.
    erewrite bind_Return; [reflexivity|].
    unfold moveSelectionBy. erewrite bind_Return; [|exact Hb'].
    erewrite bind_Return; [|exact Hpos].
    rewrite Hrow, Z.add_0_r, Hcell, Ht. reflexivity.
Qed.

(** ** Rules 2 and 3: the containment rules *)

(** Wrapping, by key, each child that satisfies [P]. *)
Lemma wrap_loop (P : Node → bool) ty pd (f : Node → Change → JS Change) p s k d todo :
  (∀ x c g, P x = true →
     f x c g = wrapBlockByKey c (key x) {| p_type := Some ty; p_data := pd x |} g) →
  ∀ seen c g,
    wellKeyed g (document (state c)) →
    getAt (document (state c)) p = Some (Nd s k d (seen ++ todo)) →
    ∃ c',
      forEach (List.filter P todo) f c g
      = Return (c', g + length (List.filter P todo))
      ∧ document (state c')
        = updateAt p (λ _, Nd s k d (seen ++ wrapEach P ty pd todo g))
            (document (state c))
      ∧ wellKeyed (g + length (List.filter P todo)) (document (state c')).
Proof.
  intros Hf. induction todo as [|x todo IH]; intros seen c g Hwk Hat.
  - exists c. cbn. rewrite Nat.add_0_r. split_and!; [done| |done].
    symmetry. by apply updateAt_same.
  - cbn [List.filter wrapEach]. destruct (P x) eqn:HP.
    + cbn [forEach length].
      erewrite bind_Return;
        [|rewrite Hf by done;
          eapply wrapBlockByKey_child; [apply Hwk|done|apply lookup_app_length]].
      rewrite insert_app_length. set (c1 := applied c _ _).
      set (w := Nd (Block ty) g (default ∅ (pd x)) [x]).
      destruct (IH (seen ++ [w]) c1 (S g)) as (c' & Hrun & Hdoc & Hwk').
      * subst c1. cbn [document state applied].
        eapply (wellKeyed_updateAt_fresh g (S g) _ _ _ _ [g]); [done..| | | |lia].
        -- apply (keys_Nd_replace _ _ _ _ _ _ _ [g]). cbn. by rewrite app_nil_r.
        -- apply NoDup_singleton.
        -- repeat constructor; lia.
      * subst c1. cbn [document state applied].
        by rewrite getAt_updateAt, Hat, <-app_assoc.
      * exists c'. replace (g + S (length (List.filter P todo)))
          with (S g + length (List.filter P todo)) by lia.
        split_and!; [done| |done].
        rewrite Hdoc. subst c1. cbn [document state applied].
        by rewrite updateAt_updateAt, <-app_assoc.
    + destruct (IH (seen ++ [x]) c g) as (c' & Hrun & Hdoc & Hwk');
        [done|by rewrite <-app_assoc|].
      exists c'. split_and!; [done| |done]. by rewrite Hdoc, <-app_assoc.
Qed.

Lemma findViolation_app_quiet rules l1 l2 g :
  Forall (quiet rules) l1 →
  findViolation rules (l1 ++ l2) g = findViolation rules l2 g.
Proof.
  induction 1 as [|n l1 Hn _ IH]; [done|]. cbn [app findViolation].
  by erewrite bind_Return; [|apply Hn].
Qed.

Lemma findViolation_quiet rules l g :
  Forall (quiet rules) l → findViolation rules l g = Return (None, g).
Proof.
  intros H. rewrite <-(app_nil_r l). by rewrite findViolation_app_quiet.
Qed.

Lemma hasType_same t k d ns : hasType t (Nd (Block t) k d ns) = true.
Proof. by apply bool_decide_eq_true_2. Qed.

Lemma hasType_other t t' k d ns : t' ≠ t → hasType t (Nd (Block t') k d ns) = false.
Proof. intros H. apply bool_decide_eq_false_2. cbn. congruence. Qed.

Lemma hasType_Document t k d ns : hasType t (Nd Document k d ns) = false.
Proof. by apply bool_decide_eq_false_2. Qed.

Lemma hasType_Text t n : isText n = true → hasType t n = false.
Proof.
  intros H%bool_decide_eq_true. apply bool_decide_eq_false_2.
  by destruct n as [[]|].
Qed.

Lemma isBlock_Text n : isText n = true → isBlock n = false.
Proof.
  intros H%bool_decide_eq_true. apply bool_decide_eq_false_2.
  by destruct n as [[]|].
Qed.

Lemma filter_texts (P : Node → bool) (l : list Node) :
  (∀ n, isText n = true → P n = false) →
  Forall (λ n, isText n = true) l → List.filter P l = [].
Proof.
  intros HP Hl. apply filter_none. eapply Forall_impl; [exact Hl|]. exact HP.
Qed.

Section Quiet.

Context (host : Host) (DEF : string) (opts : Options).
Context (Htr : typeTable opts ≠ typeRow opts)
        (Htc : typeTable opts ≠ typeCell opts)
        (Hrc : typeRow opts ≠ typeCell opts).

Local Abbreviation rules := (makeSchema host DEF opts).

Local Ltac unfold_schema :=
  unfold quiet, makeSchema; intros;
  cbn [validateNode match_ validate noBlocksWithinCell cellsWithinTable
         rowsWithinTable tablesContainOnlyRows rowsContainRequiredColumns
         tableContainAlignData];
  unfold noBlocksWithinCell_match, cellsWithinTable_match, rowsWithinTable_match,
    tablesContainOnlyRows_match, rowsContainRequiredColumns_match,
    tableContainAlignData_match.

Local Ltac kinds :=
  cbn [kind andb orb negb];
  rewrite ?(bool_decide_eq_false_2 ("block" = "document")),
    ?(bool_decide_eq_false_2 ("document" = "block")) by done;
  rewrite ?bool_decide_eq_true_2 by done;
  cbn [andb orb negb].

Lemma quiet_text n : isText n = true → quiet rules n.
Proof using Type.
  intros Ht. unfold_schema. rewrite !(hasType_Text _ _ Ht).
  apply bool_decide_eq_true in Ht. destruct n as [[]|]; try done.
Qed.

Lemma quiet_cell k d ts :
  Forall (λ n, isText n = true) ts →
  quiet rules (Nd (Block (typeCell opts)) k d ts).
Proof using Htc Hrc.
  intros Hts. unfold_schema.
  rewrite hasType_same, !hasType_other by done. kinds.
  unfold bind.
  rewrite noBlocksWithinCell_validate_Nd.
  rewrite (filter_texts isBlock) by (done || apply isBlock_Text). cbn -[hasType].
  rewrite !(filter_texts (hasType _)) by (done || apply hasType_Text).
  done.
Qed.

Lemma quiet_row kr dr k d ts :
  quiet rules (Nd (Block (typeRow opts)) kr dr [Nd (Block (typeCell opts)) k d ts]).
Proof using Htr Hrc.
  unfold_schema.
  rewrite hasType_same, !hasType_other by done. kinds.
  unfold bind. rewrite rowsWithinTable_validate_Nd. cbn [List.filter].
  by rewrite hasType_other by done.
Qed.

Lemma quiet_table kt kr dr k d ts :
  quiet rules
    (Nd (Block (typeTable opts)) kt {[ "align" := JArr [JStr DEF] ]}
       [Nd (Block (typeRow opts)) kr dr [Nd (Block (typeCell opts)) k d ts]]).
Proof using Htr Htc Hrc.
  unfold_schema.
  rewrite hasType_same, !hasType_other by done. kinds.
  unfold bind. rewrite cellsWithinTable_validate_Nd. cbn [List.filter].
  rewrite hasType_other by done. cbn -[hasType].
  rewrite !hasType_same. cbn -[hasType]. unfold countCells. cbn -[hasType].
  rewrite !hasType_same. cbn -[hasType]. unfold checkRow, countCells. cbn -[hasType].
  rewrite !hasType_same. cbn -[hasType].
  unfold Map_get. rewrite lookup_singleton_eq. reflexivity.
Qed.

(** On a document whose children are cells, rule 2 is the first to report. *)
Lemma findViolation_cells k0 d0 k1 d1 ts1 k2 d2 ts2 g :
  let c1 := Nd (Block (typeCell opts)) k1 d1 ts1 in
  let c2 := Nd (Block (typeCell opts)) k2 d2 ts2 in
  let doc := Nd Document k0 d0 [c1; c2] in
  Forall (λ n, isText n = true) ts1 → Forall (λ n, isText n = true) ts2 →
  findViolation rules (subtree doc) g
  = Return (Some (doc, cellsWithinTable opts, PCells [c1; c2]), g).
Proof using Htc Hrc.
  intros c1 c2 doc H1 H2.
  assert (∀ ts, Forall (λ n, isText n = true) ts →
                Forall (quiet rules) (concat (map subtree ts))) as Hsub.
  { induction 1 as [|t ts Ht _ IH]; [constructor|]. cbn.
    apply bool_decide_eq_true in Ht as Ht'. destruct t as [[]|]; try done.
    cbn. constructor; [by apply quiet_text|done]. }
  cbn [subtree map concat doc c1 c2].
  rewrite app_nil_r, <-!app_assoc.
  rewrite findViolation_app_quiet by by apply Hsub.
  cbn [app findViolation]. erewrite bind_Return; [|by apply quiet_cell].
  cbn beta iota.
  rewrite findViolation_app_quiet by by apply Hsub.
  cbn [app findViolation]. erewrite bind_Return; [|by apply quiet_cell].
  cbn beta iota.
  assert (validateNode rules (Nd Document k0 d0 [c1; c2]) g
          = Return (Some (cellsWithinTable opts, PCells [c1; c2]), g)) as Hdoc.
  { unfold makeSchema.
    cbn [validateNode match_ validate noBlocksWithinCell cellsWithinTable].
    unfold noBlocksWithinCell_match, cellsWithinTable_match.
    rewrite !hasType_Document. kinds.
    unfold bind. rewrite cellsWithinTable_validate_Nd. cbn [List.filter].
    subst c1 c2. rewrite !hasType_same. reflexivity. }
  by erewrite bind_Return; [|exact Hdoc].
Qed.

(** On a document whose children are rows of one cell, it is rule 3. *)
Lemma findViolation_rows k0 d0 kr1 kr2 k1 d1 ts1 k2 d2 ts2 g :
  let r1 := Nd (Block (typeRow opts)) kr1 ∅ [Nd (Block (typeCell opts)) k1 d1 ts1] in
  let r2 := Nd (Block (typeRow opts)) kr2 ∅ [Nd (Block (typeCell opts)) k2 d2 ts2] in
  let doc := Nd Document k0 d0 [r1; r2] in
  Forall (λ n, isText n = true) ts1 → Forall (λ n, isText n = true) ts2 →
  findViolation rules (subtree doc) g
  = Return (Some (doc, rowsWithinTable DEF opts, PRows [r1; r2]), g).
Proof using Htr Htc Hrc.
  intros r1 r2 doc H1 H2.
  assert (∀ ts, Forall (λ n, isText n = true) ts →
                Forall (quiet rules) (concat (map subtree ts))) as Hsub.
  { induction 1 as [|t ts Ht _ IH]; [constructor|]. cbn.
    apply bool_decide_eq_true in Ht as Ht'. destruct t as [[]|]; try done.
    cbn. constructor; [by apply quiet_text|done]. }
  cbn [subtree map concat doc r1 r2].
  rewrite !app_nil_r, <-!app_assoc.
  rewrite findViolation_app_quiet by by apply Hsub.
  cbn [app findViolation]. erewrite bind_Return; [|by apply quiet_cell].
  cbn beta iota. erewrite bind_Return; [|by apply quiet_row]. cbn beta iota.
  rewrite findViolation_app_quiet by by apply Hsub.
  cbn [app findViolation]. erewrite bind_Return; [|by apply quiet_cell].
  cbn beta iota. erewrite bind_Return; [|by apply quiet_row]. cbn beta iota.
  assert (validateNode rules (Nd Document k0 d0 [r1; r2]) g
          = Return (Some (rowsWithinTable DEF opts, PRows [r1; r2]), g)) as Hdoc.
  { unfold makeSchema.
    cbn [validateNode match_ validate noBlocksWithinCell cellsWithinTable rowsWithinTable].
    unfold noBlocksWithinCell_match, cellsWithinTable_match, rowsWithinTable_match.
    rewrite !hasType_Document. kinds.
    unfold bind. rewrite cellsWithinTable_validate_Nd. cbn [List.filter].
    subst r1 r2. rewrite !hasType_other by done. cbn -[hasType].
    rewrite !hasType_same. reflexivity. }
  by erewrite bind_Return; [|exact Hdoc].
Qed.

(** And a document whose children are tables of one row of one cell, each
    with one default tag, is normalized. *)
Lemma findViolation_tables k0 d0 kt1 kt2 kr1 kr2 k1 d1 ts1 k2 d2 ts2 g :
  let t1 := Nd (Block (typeTable opts)) kt1 {[ "align" := JArr [JStr DEF] ]}
              [Nd (Block (typeRow opts)) kr1 ∅ [Nd (Block (typeCell opts)) k1 d1 ts1]] in
  let t2 := Nd (Block (typeTable opts)) kt2 {[ "align" := JArr [JStr DEF] ]}
              [Nd (Block (typeRow opts)) kr2 ∅ [Nd (Block (typeCell opts)) k2 d2 ts2]] in
  let doc := Nd Document k0 d0 [t1; t2] in
  Forall (λ n, isText n = true) ts1 → Forall (λ n, isText n = true) ts2 →
  findViolation rules (subtree doc) g = Return (None, g).
Proof using Htr Htc Hrc.
  intros t1 t2 doc H1 H2.
  assert (∀ ts, Forall (λ n, isText n = true) ts →
                Forall (quiet rules) (concat (map subtree ts))) as Hsub.
  { induction 1 as [|t ts Ht _ IH]; [constructor|]. cbn.
    apply bool_decide_eq_true in Ht as Ht'. destruct t as [[]|]; try done.
    cbn. constructor; [by apply quiet_text|done]. }
  apply findViolation_quiet. subst doc t1 t2.
  cbn [subtree map concat]. rewrite !app_nil_r.
  rewrite !Forall_app. split_and!; try (by apply Hsub);
    try (apply Forall_singleton; (by apply quiet_cell) || apply quiet_row
                                 || apply quiet_table).
  apply Forall_singleton. unfold_schema.
  rewrite !hasType_Document. kinds.
  unfold bind. rewrite cellsWithinTable_validate_Nd. cbn [List.filter].
  rewrite !hasType_other by done. cbn -[hasType].
  by rewrite !hasType_other by done.
Qed.

(** C5 (amended): for a document of two sibling cells that hold text, with
    no row or table above them, normalisation comes to its fixpoint after two
    repairs and produces two table nodes, one per cell: each table wraps a
    single row that wraps one of the original cells, and each table's
    alignment vector has length 1 and holds the default tag. *)
Theorem orphan_cells_normalized fuel k0 d0 k1 d1 ts1 k2 d2 ts2 sel g :
  let c1 := Nd (Block (typeCell opts)) k1 d1 ts1 in
  let c2 := Nd (Block (typeCell opts)) k2 d2 ts2 in
  let doc := Nd Document k0 d0 [c1; c2] in
  Forall (λ n, isText n = true) ts1 → Forall (λ n, isText n = true) ts2 →
  wellKeyed g doc →
  ∃ c',
    normalizeWith rules (S (S fuel))
      (Change_create {| document := doc; selection := sel |}) g
    = Return (c', g + 4)
    ∧ document (state c')
      = Nd Document k0 d0
          [Nd (Block (typeTable opts)) (g + 2) {[ "align" := JArr [JStr DEF] ]}
             [Nd (Block (typeRow opts)) g ∅ [c1]];
           Nd (Block (typeTable opts)) (g + 3) {[ "align" := JArr [JStr DEF] ]}
             [Nd (Block (typeRow opts)) (S g) ∅ [c2]]].
Proof using Htr Htc Hrc.
  intros c1 c2 doc H1 H2 Hwk.
  set (c0 := Change_create {| document := doc; selection := sel |}).
  (* first repair: each cell is wrapped in a row *)
  destruct (wrap_loop (hasType (typeCell opts)) (typeRow opts) (λ _, None)
              (λ cell change, wrapBlockByKey change (key cell)
                 {| p_type := Some (typeRow opts); p_data := None |})
              [] Document k0 d0 [c1; c2] (λ _ _ _ _, eq_refl) [] c0 g Hwk eq_refl)
    as (cA & HrunA & HdocA & HwkA).
  cbn [List.filter wrapEach app updateAt default from_option] in HrunA, HdocA, HwkA.
  subst c1 c2. rewrite !hasType_same in HrunA, HdocA, HwkA.
  cbn [length] in HrunA, HwkA.
  set (c1 := Nd (Block (typeCell opts)) k1 d1 ts1) in *.
  set (c2 := Nd (Block (typeCell opts)) k2 d2 ts2) in *.
  (* second repair: each row is wrapped in a table *)
  destruct (wrap_loop (hasType (typeRow opts)) (typeTable opts)
              (λ row, Some {[ "align" :=
                 JArr (createAlign DEF (length (children row)) JUndefined) ]})
              (λ row change,
                 let* cells := getNodes row in
                 wrapBlockByKey change (key row)
                   {| p_type := Some (typeTable opts);
                      p_data := Some {[ "align" :=
                        JArr (createAlign DEF (length cells) JUndefined) ]} |})
              [] Document k0 d0
              [Nd (Block (typeRow opts)) g ∅ [c1]; Nd (Block (typeRow opts)) (S g) ∅ [c2]]
              (λ x c g Hx, ltac:(by destruct (hasType_Nd _ _ Hx) as (? & ? & ? & ? & ->)))
              [] cA (g + 2) HwkA ltac:(by rewrite HdocA))
    as (cB & HrunB & HdocB & HwkB).
  cbn [List.filter wrapEach app updateAt default from_option] in HrunB, HdocB, HwkB.
  rewrite !hasType_same in HrunB, HdocB, HwkB.
  cbn [length children nodes default from_option id] in HrunB, HdocB, HwkB.
  replace (g + 2 + 2) with (g + 4) in * by lia.
  replace (S (g + 2)) with (g + 3) in * by lia.
  exists cB. split; [|exact HdocB].
  rewrite normalizeWith_unfold. unfold normalizeStep at 1.
  erewrite bind_Return;
    [|erewrite bind_Return; [|by apply (findViolation_cells k0 d0 k1 d1 ts1 k2 d2 ts2)];
      cbn beta iota; cbn [normalize cellsWithinTable];
      erewrite bind_Return; [reflexivity|exact HrunA]].
  cbn beta iota. rewrite normalizeWith_unfold. unfold normalizeStep at 1.
  erewrite bind_Return;
    [|erewrite bind_Return;
        [|rewrite HdocA;
          by apply (findViolation_rows k0 d0 g (S g) k1 d1 ts1 k2 d2 ts2)];
      cbn beta iota; cbn [normalize rowsWithinTable];
      erewrite bind_Return; [reflexivity|exact HrunB]].
  cbn beta iota. rewrite normalizeWith_unfold. unfold normalizeStep.
  erewrite bind_Return;
    [|erewrite bind_Return;
        [|rewrite HdocB;
          by apply (findViolation_tables k0 d0 (g + 2) (g + 3) g (S g)
                      k1 d1 ts1 k2 d2 ts2)];
      reflexivity].
  reflexivity.
Qed.

End Quiet.

(** * Further properties of the schema and the commands *)

(** ** The validations *)

Lemma fold_max_bounds {A} (f : A → nat) (l : list A) :
  ∀ a, a ≤ fold_left (λ count x, Nat.max count (f x)) l a
       ∧ (∀ x, x ∈ l → f x ≤ fold_left (λ count x, Nat.max count (f x)) l a)
       ∧ (fold_left (λ count x, Nat.max count (f x)) l a = a
          ∨ ∃ x, x ∈ l ∧ f x = fold_left (λ count x, Nat.max count (f x)) l a).
Proof.
  induction l as [|y l IH]; intros a; cbn [fold_left].
  - split_and!; [done|by intros x ?%elem_of_nil|by left].
  - destruct (IH (Nat.max a (f y))) as (Hge & Hall & Hhit). split_and!.
    + lia.
    + intros x [->|Hx]%elem_of_cons; [lia|by apply Hall].
    + destruct Hhit as [Heq|(x & Hx & Heq)].
      * destruct (Nat.max_spec a (f y)) as [[_ Hm]|[_ Hm]].
        -- right. exists y. split; [left|]. by rewrite Heq.
        -- left. by rewrite Heq.
      * right. exists x. split; [by right|done].
Qed.

Lemma countCells_le_columnsOf opts rows r :
  r ∈ rows → countCells opts r ≤ columnsOf opts rows.
Proof. intros Hr. by apply (fold_max_bounds (countCells opts) rows 1). Qed.

(** X1: the number of columns the row rule computes for a table is at least
    1, it is at least the cell count of every row, and it is the cell count of
    one of the rows unless it is 1: the reduction never yields a width no row
    has, except the floor of one column. *)
Theorem columnsOf_bounds opts rows :
  1 ≤ columnsOf opts rows
  ∧ (∀ r, r ∈ rows → countCells opts r ≤ columnsOf opts rows)
  ∧ (columnsOf opts rows = 1
     ∨ ∃ r, r ∈ rows ∧ countCells opts r = columnsOf opts rows).
Proof.
  unfold columnsOf.
  destruct (fold_max_bounds (countCells opts) rows 1) as (Hfloor & Hbound & Hhit).
  split_and!.
  - exact Hfloor.
  - intros r Hr. by apply Hbound.
  - destruct Hhit as [Hone|(r & Hr & Heq)]; [by left|right; by exists r].
Qed.

Lemma omap_checkRow opts columns rows :
  map row (omap (checkRow opts columns) rows)
  = List.filter (offending opts columns) rows
  ∧ Forall (λ e, row e ∈ rows
                 ∧ invalids e = nonCells opts (row e)
                 ∧ add e = columns - countCells opts (row e))
      (omap (checkRow opts columns) rows).
Proof.
  induction rows as [|x rows [IH1 IH2]]; [by split|].
  cbn [omap list_omap List.filter]. rewrite checkRow_offending.
  destruct (offending opts columns x); cbn [map]; split.
  - by rewrite <-IH1.
  - constructor; [cbn; split_and!; [left|done|done]|].
    eapply Forall_impl; [exact IH2|]. intros e (? & ? & ?). split_and!; [by right|done..].
  - done.
  - eapply Forall_impl; [exact IH2|]. intros e (? & ? & ?). split_and!; [by right|done..].
Qed.

Lemma offending_false opts columns r :
  offending opts columns r = false
  ↔ nonCells opts r = [] ∧ countCells opts r = columns.
Proof.
  unfold offending. rewrite negb_false_iff, andb_true_iff.
  by rewrite bool_decide_eq_true, Nat.eqb_eq.
Qed.

(** X2: on a table, the row rule's [validate] returns without drawing a key.
    It reports nothing exactly when every row child of the table has no child
    that is not a cell and has as many cells as the table has columns.
    Otherwise it reports exactly the offending rows, in the order they have in
    the table; each entry carries the row's children that are not cells, and
    a number of cells to add that, put on top of the row's own cells, gives
    the number of columns: the difference [columns - cells] is never
    negative. *)
Theorem rowsContainRequiredColumns_validate_spec opts s k d ns g :
  let rows := List.filter (hasType (typeRow opts)) ns in
  let columns := columnsOf opts rows in
  ∃ v,
    rowsContainRequiredColumns_validate opts (Nd s k d ns) g = Return (v, g)
    ∧ (v = None
       ↔ ∀ r, r ∈ rows → nonCells opts r = [] ∧ countCells opts r = columns)
    ∧ ∀ l, v = Some l →
        l ≠ []
        ∧ map row l = List.filter (offending opts columns) rows
        ∧ Forall (λ e, invalids e = nonCells opts (row e)
                       ∧ countCells opts (row e) + add e = columns) l.
Proof.
  intros rows columns. eexists. split; [apply rowsContainRequiredColumns_validate_Nd|].
  fold rows columns.
  destruct (omap_checkRow opts columns rows) as [Hmap Hall].
  destruct (omap (checkRow opts columns) rows) as [|e l] eqn:Hl; cbn [length Nat.ltb Nat.leb].
  - split; [|done]. split; [|done]. intros _ r Hr.
    apply offending_false. pose proof (omap_nil _ _ Hl r Hr) as Hc.
    rewrite checkRow_offending in Hc. by destruct (offending opts columns r).
  - split.
    + split; [done|]. intros Hok. exfalso.
      assert (row e ∈ rows) as He by by inversion Hall as [|? ? (? & _)].
      assert (offending opts columns (row e) = true) as Hoff.
      { assert (row e ∈ List.filter (offending opts columns) rows) as Hin
          by (rewrite <-Hmap; left).
        apply list_elem_of_In, List.filter_In in Hin. tauto. }
      apply Hok, offending_false in He. congruence.
    + intros l' [= <-]. split_and!; [done|done|].
      eapply Forall_impl; [exact Hall|]. intros e' (Hin & Hinv & Hadd).
      split; [done|]. rewrite Hadd.
      pose proof (countCells_le_columnsOf opts rows _ Hin) as Hle.
      fold columns in Hle. lia.
Qed.

Lemma match_not_text host DEF opts r n :
  r ∈ makeSchema host DEF opts → match_ r n = true →
  ∃ s k d ns, n = Nd s k d ns.
Proof.
  intros Hr Hm. destruct n as [s k d ns|k t]; [eauto|]. exfalso.
  unfold makeSchema in Hr.
  repeat (apply elem_of_cons in Hr as [->|Hr]); [..|by apply elem_of_nil in Hr];
    by vm_compute in Hm.
Qed.

(** X3: a rule of the schema matches no text node, and the [validate] of each
    of the first five rules returns on every node its [match] accepts, a
    payload or nothing, and never throws; the key counter does not go back.
    (The [validate] of the sixth rule has no such guarantee.) *)
Theorem validate_returns_on_match host DEF opts i r n :
  makeSchema host DEF opts !! i = Some r →
  match_ r n = true →
  isText n = false
  ∧ (i < 5 → ∀ g, ∃ v g', validate r n g = Return (v, g') ∧ g ≤ g').
Proof.
  intros Hi Hm.
  destruct (match_not_text host DEF opts r n) as (s & k & d & ns & ->);
    [by eapply list_elem_of_lookup_2|done|].
  split; [by destruct s|]. intros Hlt g.
  destruct i as [|[|[|[|[|i]]]]]; [..|lia]; injection Hi as <-;
    cbn [validate noBlocksWithinCell cellsWithinTable rowsWithinTable
           tablesContainOnlyRows rowsContainRequiredColumns]; unfold bind.
  - rewrite noBlocksWithinCell_validate_Nd. eauto.
  - rewrite cellsWithinTable_validate_Nd. eauto.
  - rewrite rowsWithinTable_validate_Nd. eauto.
  - rewrite tablesContainOnlyRows_validate_Nd. cbn zeta.
    destruct (_ =? _); unfold ret; eexists _, _; (split; [reflexivity|lia]).
  - rewrite rowsContainRequiredColumns_validate_Nd. eauto.
Qed.

(** ** The synthesized row *)

Lemma quiet_validate host DEF opts n r g :
  quiet (makeSchema host DEF opts) n →
  r ∈ makeSchema host DEF opts → match_ r n = true →
  validate r n g = Return (None, g).
Proof.
  intros Hq Hr Hm.
  destruct (validateNode_None _ _ _ _ (Hq g) r Hr Hm) as (g1 & g1' & Hv).
  pose proof (makeSchema_steady host DEF opts) as Hst.
  rewrite Forall_forall in Hst. by eapply Hst.
Qed.

(** X4: [makeEmptyRow] never throws and draws exactly three keys: the first
    for the empty text, the second for the cell that holds it, the third for
    the row that holds the cell.  Put next to a document that is well keyed
    below the counter, the row shares no key with it.  And when the options
    name three different types, no rule of the schema reports anything on the
    row, on its cell or on its text: what the rules synthesize needs no repair
    of its own. *)
Theorem makeEmptyRow_needs_no_repair host DEF opts g :
  typeTable opts ≠ typeRow opts →
  typeTable opts ≠ typeCell opts →
  typeRow opts ≠ typeCell opts →
  ∃ r,
    makeEmptyRow opts g = Return (r, g + 3)
    ∧ r = Nd (Block (typeRow opts)) (g + 2) ∅
            [Nd (Block (typeCell opts)) (g + 1) ∅ [Text g ""]]
    ∧ (∀ doc, wellKeyed g doc → NoDup (keys r ++ keys doc))
    ∧ ∀ n rule g0,
        n ∈ subtree r → rule ∈ makeSchema host DEF opts →
        match_ rule n = true → validate rule n g0 = Return (None, g0).
Proof.
  intros Htr Htc Hrc. eexists. split_and!.
  - rewrite makeEmptyRow_eq. do 2 f_equal. lia.
  - unfold emptyRowAt, emptyCellAt. do 2 f_equal; [lia|]. do 2 f_equal. lia.
  - intros doc [Hnd Hlt]. rewrite Forall_forall in Hlt.
    apply NoDup_app. split_and!; [|intros x Hx Hin; specialize (Hlt _ Hin)|done].
    + cbn. repeat (apply NoDup_cons; split); [..|apply NoDup_nil_2];
        rewrite ?elem_of_cons, ?elem_of_nil; lia.
    + cbn in Hx. repeat (apply elem_of_cons in Hx as [->|Hx]; [lia|]).
      by apply elem_of_nil in Hx.
  - intros n rule g0 Hn Hrule Hm. apply (quiet_validate host DEF opts); [|done..].
    cbn in Hn. repeat (apply elem_of_cons in Hn as [->|Hn]).
    + by apply quiet_text.
    + apply quiet_cell; [done..|]. by repeat constructor.
    + by apply quiet_row.
    + by apply elem_of_nil in Hn.
Qed.

(** ** Rules 2 and 3: what the containment rules do to any node *)

Lemma wrapEach_length P ty pd cs g : length (wrapEach P ty pd cs g) = length cs.
Proof.
  revert g. induction cs as [|x cs IH]; intros g; [done|].
  cbn [wrapEach]. destruct (P x); cbn; by rewrite IH.
Qed.

Lemma wrapEach_lookup P ty pd cs g j x :
  cs !! j = Some x →
  wrapEach P ty pd cs g !! j
  = Some (if P x
          then Nd (Block ty) (g + length (List.filter P (take j cs)))
                 (default ∅ (pd x)) [x]
          else x).
Proof.
  revert g j. induction cs as [|y cs IH]; intros g j Hj; [done|].
  cbn [wrapEach]. destruct j as [|j]; cbn in Hj.
  - injection Hj as ->. cbn. rewrite Nat.add_0_r. by destruct (P x).
  - cbn [take List.filter]. destruct (P y) eqn:Hy.
    + change ((?w :: ?l) !! S j) with (l !! j).
      rewrite (IH (S g) j Hj). cbn [length]. destruct (P x); [|done].
      do 2 f_equal. lia.
    + change ((?w :: ?l) !! S j) with (l !! j). by rewrite (IH g j Hj).
Qed.

(** The children that satisfy [Q] after the wrapping, when [Q] decides the
    same on a child the wrapping leaves alone. *)
Lemma wrapEach_filter P Q ty pd cs g :
  (∀ x, P x = false → Q x = false) →
  (∀ k d ns, Q (Nd (Block ty) k d ns) = false) →
  List.filter Q (wrapEach P ty pd cs g) = [].
Proof.
  intros Hkeep Hwrap. revert g. induction cs as [|x cs IH]; intros g; [done|].
  cbn [wrapEach]. destruct (P x) eqn:Hx; cbn [List.filter].
  - by rewrite Hwrap.
  - by rewrite (Hkeep x Hx).
Qed.

Lemma wrapEach_filter_length P ty pd cs g :
  (∀ k d ns, P (Nd (Block ty) k d ns) = true) →
  length (List.filter P (wrapEach P ty pd cs g)) = length (List.filter P cs).
Proof.
  intros Hwrap. revert g. induction cs as [|x cs IH]; intros g; [done|].
  cbn [wrapEach List.filter]. destruct (P x) eqn:Hx; cbn [List.filter].
  - rewrite Hwrap. cbn. by rewrite IH.
  - rewrite Hx. apply IH.
Qed.

(** X5: in a well-keyed document, on any node with a child of the cell type,
    the cell-containment rule reports these children, and its [normalize]
    wraps each of them, by key, in a row block of its own, with a new key and
    no data; the new keys are drawn in the order of the children.  The other
    children, their order and the rest of the document stay as they are.  When
    the options name different types for row and cell the node is then
    accepted by the rule; when they name the same type it is reported again,
    with as many children as before. *)
Theorem cellsWithinTable_wraps opts c p s k d cs g :
  let doc := document (state c) in
  let node := Nd s k d cs in
  let isCell := hasType (typeCell opts) in
  let cells := List.filter isCell cs in
  let g' := g + length cells in
  wellKeyed g doc →
  getAt doc p = Some node →
  cells ≠ [] →
  ∃ c' ns',
    cellsWithinTable_validate opts node g = Return (Some cells, g)
    ∧ cellsWithinTable_normalize opts c node cells g = Return (c', g')
    ∧ document (state c') = updateAt p (λ _, Nd s k d ns') doc
    ∧ length ns' = length cs
    ∧ (∀ j x, cs !! j = Some x →
         ns' !! j
         = Some (if isCell x
                 then Nd (Block (typeRow opts))
                        (g + length (List.filter isCell (take j cs))) ∅ [x]
                 else x))
    ∧ (typeRow opts ≠ typeCell opts →
       cellsWithinTable_validate opts (Nd s k d ns') g' = Return (None, g'))
    ∧ (typeRow opts = typeCell opts →
       ∃ cells',
         cellsWithinTable_validate opts (Nd s k d ns') g' = Return (Some cells', g')
         ∧ length cells' = length cells).
Proof.
  intros doc node isCell cells g' Hwk Hat Hne. subst doc node.
  destruct (wrap_loop isCell (typeRow opts) (λ _, None)
              (λ cell change, wrapBlockByKey change (key cell)
                 {| p_type := Some (typeRow opts); p_data := None |})
              p s k d cs (λ _ _ _ _, eq_refl) [] c g Hwk Hat)
    as (c' & Hrun & Hdoc & _).
  cbn [app] in Hdoc.
  exists c', (wrapEach isCell (typeRow opts) (λ _, None) cs g).
  split_and!.
  - rewrite cellsWithinTable_validate_Nd. fold isCell cells.
    by rewrite bool_decide_eq_false_2.
  - exact Hrun.
  - exact Hdoc.
  - apply wrapEach_length.
  - intros j x Hj. by rewrite (wrapEach_lookup _ _ _ _ _ _ _ Hj).
  - intros Hrc. rewrite cellsWithinTable_validate_Nd. fold isCell.
    rewrite wrapEach_filter; [done|done|].
    intros k0 d0 ns0. by apply hasType_other.
  - intros Hrc. rewrite cellsWithinTable_validate_Nd. fold isCell.
    assert (length (List.filter isCell (wrapEach isCell (typeRow opts) (λ _, None) cs g))
            = length cells) as Hlen.
    { apply wrapEach_filter_length. intros k0 d0 ns0. subst isCell.
      rewrite Hrc. apply hasType_same. }
    destruct (List.filter isCell (wrapEach isCell (typeRow opts) (λ _, None) cs g))
      as [|y l] eqn:Hf.
    + exfalso. apply Hne. apply length_zero_iff_nil. by rewrite <-Hlen.
    + rewrite bool_decide_eq_false_2 by done. eexists. split; [reflexivity|done].
Qed.

Lemma createAlign_omitted DEF w :
  createAlign DEF w JUndefined = replicate w (JStr DEF).
Proof.
  unfold createAlign. generalize 0. induction w as [|w IH]; intros i; [done|].
  cbn. by rewrite IH.
Qed.

(** X6: in a well-keyed document, on any node with a child of the row type,
    the row-containment rule reports these children, and its [normalize] wraps
    each of them, by key, in a table block of its own, with a new key; the
    table's data holds an align vector with one default tag per child of the
    row, whatever the type of that child.  The other children, their order and
    the rest of the document stay as they are.  Each table made this way is
    accepted at once by the table-content rule and by the alignment rule, and
    when the options name different types for table and row, the node is then
    accepted by the row-containment rule. *)
Theorem rowsWithinTable_wraps host DEF opts c p s k d cs g :
  let doc := document (state c) in
  let node := Nd s k d cs in
  let isRow := hasType (typeRow opts) in
  let rows := List.filter isRow cs in
  let g' := g + length rows in
  wellKeyed g doc →
  getAt doc p = Some node →
  rows ≠ [] →
  ∃ c' ns',
    rowsWithinTable_validate opts node g = Return (Some rows, g)
    ∧ rowsWithinTable_normalize DEF opts c node rows g = Return (c', g')
    ∧ document (state c') = updateAt p (λ _, Nd s k d ns') doc
    ∧ length ns' = length cs
    ∧ (∀ j x, cs !! j = Some x →
         ns' !! j
         = Some (if isRow x
                 then Nd (Block (typeTable opts))
                        (g + length (List.filter isRow (take j cs)))
                        {[ "align" := JArr (replicate (length (children x)) (JStr DEF)) ]}
                        [x]
                 else x))
    ∧ (∀ j x T, cs !! j = Some x → isRow x = true → ns' !! j = Some T →
         ∀ g0, tablesContainOnlyRows_validate opts T g0 = Return (None, g0)
               ∧ tableContainAlignData_validate host opts T g0 = Return (None, g0))
    ∧ (typeTable opts ≠ typeRow opts →
       rowsWithinTable_validate opts (Nd s k d ns') g' = Return (None, g')).
Proof.
  intros doc node isRow rows g' Hwk Hat Hne. subst doc node.
  set (pd := λ row : Node, Some ({[ "align" :=
                JArr (createAlign DEF (length (children row)) JUndefined) ]} : Data)).
  destruct (wrap_loop isRow (typeTable opts) pd
              (λ row change,
                 let* cells := getNodes row in
                 wrapBlockByKey change (key row)
                   {| p_type := Some (typeTable opts);
                      p_data := Some {[ "align" :=
                        JArr (createAlign DEF (length cells) JUndefined) ]} |})
              p s k d cs
              (λ x c g Hx, ltac:(by destruct (hasType_Nd _ _ Hx) as (? & ? & ? & ? & ->)))
              [] c g Hwk Hat)
    as (c' & Hrun & Hdoc & _).
  cbn [app] in Hdoc.
  assert (∀ j x, cs !! j = Some x →
            wrapEach isRow (typeTable opts) pd cs g !! j
            = Some (if isRow x
                    then Nd (Block (typeTable opts))
                           (g + length (List.filter isRow (take j cs)))
                           {[ "align" := JArr (replicate (length (children x)) (JStr DEF)) ]}
                           [x]
                    else x)) as Hlook.
  { intros j x Hj. rewrite (wrapEach_lookup _ _ _ _ _ _ _ Hj).
    unfold pd. cbn [default from_option id]. by rewrite createAlign_omitted. }
  exists c', (wrapEach isRow (typeTable opts) pd cs g).
  split_and!.
  - rewrite rowsWithinTable_validate_Nd. fold isRow rows.
    by rewrite bool_decide_eq_false_2.
  - exact Hrun.
  - exact Hdoc.
  - apply wrapEach_length.
  - exact Hlook.
  - intros j x T Hj Hx HT g0. rewrite (Hlook j x Hj), Hx in HT. injection HT as <-.
    destruct (hasType_Nd _ _ Hx) as (xs & xk & xd & xcs & ->).
    change (children (Nd xs xk xd xcs)) with xcs. split.
    + rewrite tablesContainOnlyRows_validate_Nd. cbn zeta. cbn [List.filter].
      fold isRow. by rewrite Hx.
    + unfold tableContainAlignData_validate. cbn [getData data getNodes nodes head].
      erewrite bind_Return; [|reflexivity]. erewrite bind_Return; [|reflexivity].
      erewrite bind_Return; [|reflexivity].
      unfold Map_get. rewrite lookup_singleton_eq. cbn [default getLength from_option id].
      erewrite bind_Return; [|reflexivity].
      erewrite bind_Return; [|apply looseEqNumber_JNum]. unfold ret.
      rewrite length_replicate. by rewrite bool_decide_eq_true_2.
  - intros Htr. rewrite rowsWithinTable_validate_Nd. fold isRow.
    rewrite wrapEach_filter; [done|done|].
    intros k0 d0 ns0. by apply hasType_other.
Qed.

(** ** Keys under the repairs *)

Lemma filter_sublist {A} (P : A → bool) (l : list A) : List.filter P l `sublist_of` l.
Proof.
  induction l as [|x l IH]; cbn; [done|]. destruct (P x); by constructor.
Qed.

Lemma Forall_keys_updateAt (P : Key → Prop) doc p t t' :
  getAt doc p = Some t → Forall P (keys doc) → Forall P (keys t') →
  Forall P (keys (updateAt p (λ _, t') doc)).
Proof.
  intros Hat Hdoc Ht'.
  destruct (keys_updateAt _ _ _ Hat) as (pre & post & Hk & Hf).
  rewrite Hf. rewrite Hk in Hdoc. rewrite !Forall_app in Hdoc |- *. tauto.
Qed.

Lemma keys_updateAt_subset doc p t t' :
  getAt doc p = Some t → (∀ x, x ∈ keys t → x ∈ keys t') →
  ∀ x, x ∈ keys doc → x ∈ keys (updateAt p (λ _, t') doc).
Proof.
  intros Hat Hsub x.
  destruct (keys_updateAt _ _ _ Hat) as (pre & post & Hk & Hf).
  rewrite Hf, Hk, !elem_of_app. intros [?|[?|?]]; auto.
Qed.

(** The table-content rule at work: the payload [validate] builds for a table
    at the counter [g], and the outcome of [normalize] on it. *)
Lemma tablesContainOnlyRows_run opts c p s k d ns g :
  let doc := document (state c) in
  let isRow := hasType (typeRow opts) in
  let invalids := List.filter (λ n, negb (isRow n)) ns in
  let norows := bool_decide (List.filter isRow ns = []) in
  let add := if norows then [emptyRowAt opts g] else [] in
  let g1 := if norows then S (S (S g)) else g in
  wellKeyed g doc →
  getAt doc p = Some (Nd s k d ns) →
  tablesContainOnlyRows_validate opts (Nd s k d ns) g
  = Return (if norows || negb (bool_decide (invalids = []))
            then Some (invalids, add) else None, g1)
  ∧ ∃ c',
      tablesContainOnlyRows_normalize opts c (Nd s k d ns) (invalids, add) g1
      = Return (c', g1)
      ∧ document (state c')
        = updateAt p (λ _, Nd s k d (add ++ List.filter isRow ns)) doc
      ∧ wellKeyed g1 (document (state c')).
Proof.
  intros doc isRow invalids norows add g1 Hwk Hat. subst doc. split.
  - rewrite tablesContainOnlyRows_validate_Nd. cbn zeta. fold isRow.
    subst invalids norows add g1. destruct (decide (List.filter isRow ns = [])) as [Hnil|Hrows].
    + rewrite (proj2 (Nat.eqb_eq _ _) (proj2 (filter_negb_length isRow ns) Hnil)).
      by rewrite bool_decide_eq_true_2.
    + rewrite (proj2 (Nat.eqb_neq _ _)) by by rewrite filter_negb_length.
      rewrite (bool_decide_eq_false_2 _ Hrows). cbn [orb].
      by destruct (bool_decide _).
  - destruct (remove_children_loop (λ n, negb (isRow n)) p s k d ns [] c g1
                (proj1 Hwk) Hat) as (c1 & Hrun & Hdoc & _).
    cbn [app] in Hdoc.
    assert (List.filter (λ n, negb (negb (isRow n))) ns = List.filter isRow ns) as Hnn.
    { apply List.filter_ext. intros n. apply negb_involutive. }
    rewrite Hnn in Hdoc.
    assert (keys (Nd s k d (List.filter isRow ns)) `sublist_of` keys (Nd s k d ns))
      as Hsub by apply keys_children_sublist, filter_sublist.
    pose proof (wellKeyed_getAt _ _ _ _ Hwk Hat) as [Hndt Hltt].
    assert (wellKeyed g (document (state c1))) as Hwk1.
    { rewrite Hdoc. eapply wellKeyed_updateAt; [done..| | | |done].
      - by eapply sublist_NoDup.
      - intros x Hx. left. by eapply elem_of_sublist.
      - rewrite Forall_forall in Hltt |- *. intros x Hx. apply Hltt.
        by eapply elem_of_sublist. }
    assert (getAt (document (state c1)) p = Some (Nd s k d (List.filter isRow ns)))
      as Hat1 by by rewrite Hdoc, getAt_updateAt, Hat.
    unfold tablesContainOnlyRows_normalize. fold isRow invalids.
    erewrite bind_Return; [|exact Hrun].
    subst norows add g1. destruct (decide (List.filter isRow ns = [])) as [Hnil|Hrows].
    + rewrite (bool_decide_eq_true_2 _ Hnil). cbn [forEach key].
      erewrite bind_Return; [|by eapply insertNodeByKey_at; [apply Hwk1|]].
      eexists. split; [reflexivity|]. cbn [document state applied]. split.
      * rewrite Hdoc, updateAt_updateAt. unfold compose. by rewrite Hnil.
      * eapply (wellKeyed_updateAt_fresh g (S (S (S g))) _ _ _ _ [S (S g); S g; g]);
          [done|done| | | |lia].
        -- unfold insertAt, emptyRowAt, emptyCellAt.
           cbn [take drop app keys map concat].
           apply (Permutation_middle [S (S g); S g; g]).
        -- repeat (apply NoDup_cons; split); [..|apply NoDup_nil_2];
             rewrite ?elem_of_cons, ?elem_of_nil; lia.
        -- repeat constructor; lia.
    + rewrite (bool_decide_eq_false_2 _ Hrows). cbn [forEach app].
      exists c1. by split_and!.
Qed.

(** X7: in a well-keyed document, whenever the table-content rule reports a
    table, its [normalize] returns on the payload reported, and the table it
    leaves has at least one child and only rows as children: the rule accepts
    it, so one repair is enough for this rule. *)
Theorem tablesContainOnlyRows_resolves opts c p s k d ns g v g1 :
  let doc := document (state c) in
  let table := Nd s k d ns in
  wellKeyed g doc →
  getAt doc p = Some table →
  tablesContainOnlyRows_validate opts table g = Return (Some v, g1) →
  ∃ c' T',
    tablesContainOnlyRows_normalize opts c table v g1 = Return (c', g1)
    ∧ document (state c') = updateAt p (λ _, T') doc
    ∧ key T' = k
    ∧ Invariant.tableContent opts T'
    ∧ tablesContainOnlyRows_validate opts T' g1 = Return (None, g1).
Proof.
  intros doc table Hwk Hat Hval. subst doc table.
  destruct (tablesContainOnlyRows_run opts c p s k d ns g Hwk Hat)
    as (Hv & c' & Hrun & Hdoc & _).
  rewrite Hv in Hval. clear Hv.
  set (isRow := hasType (typeRow opts)) in *.
  set (norows := bool_decide (List.filter isRow ns = [])) in *.
  set (add := if norows then [emptyRowAt opts g] else []) in *.
  destruct (norows || _) in Hval; [|done]. injection Hval as <- <-.
  exists c', (Nd s k d (add ++ List.filter isRow ns)).
  assert (Forall (λ n, type n = Some (typeRow opts)) (add ++ List.filter isRow ns))
    as Hall.
  { apply Forall_app. split.
    - subst add. destruct norows; by repeat constructor.
    - apply Forall_forall. intros x Hx.
      apply list_elem_of_In, List.filter_In in Hx as [_ Hx]. by apply hasType_true. }
  assert (add ++ List.filter isRow ns ≠ []) as Hne.
  { subst add norows. destruct (decide (List.filter isRow ns = [])) as [Hnil|Hrows].
    - by rewrite bool_decide_eq_true_2.
    - rewrite bool_decide_eq_false_2 by done. done. }
  split_and!; [exact Hrun|exact Hdoc|done|by split|].
  rewrite tablesContainOnlyRows_validate_Nd. cbn zeta.
  rewrite filter_none.
  - destruct (add ++ List.filter isRow ns); [done|]. done.
  - eapply Forall_impl; [exact Hall|]. intros x Hx. cbn.
    by rewrite (proj2 (hasType_true _ _) Hx).
Qed.

(** ** Rule 6: one repair is enough *)

Lemma tableContainAlignData_validate_Some host opts n g a cols g1 :
  tableContainAlignData_validate host opts n g = Return (Some (a, cols), g1) →
  g1 = g
  ∧ ∃ s k d fs fk fd cs rest,
      n = Nd s k d (Nd fs fk fd cs :: rest)
      ∧ a = Map_get d "align" (JList []) ∧ cols = length cs.
Proof.
  unfold tableContainAlignData_validate.
  destruct n as [s k d [|[fs fk fd cs|] rest]|]; try done.
  cbn [getData data getNodes nodes head].
  erewrite bind_Return; [|reflexivity]. erewrite bind_Return; [|reflexivity].
  erewrite bind_Return; [|reflexivity].
  unfold bind, ret.
  destruct (getLength (Map_get d "align" (JList [])) g) as [[len g2]|e] eqn:Hlen; [|done].
  assert (g2 = g) as ->.
  { by destruct (Map_get d "align" (JList [])); cbn in Hlen; try done;
      injection Hlen as _ <-. }
  destruct (looseEqNumber host len (length cs) g) as [[same g3]|e] eqn:Heq; [|done].
  destruct (looseEqNumber_counter _ _ _ _ _ _ g Heq) as [-> _].
  destruct same; [done|].
  intros [= <- <- <-]. split; [done|]. eauto 12.
Qed.

Lemma tableContainAlignData_run DEF opts c p s k d ns a cols g :
  let d' := Object_assign (Data_toJS d) "align" (JArr (createAlign DEF cols a)) in
  NoDup (keys (document (state c))) →
  getAt (document (state c)) p = Some (Nd s k d ns) →
  tableContainAlignData_normalize DEF opts c (Nd s k d ns) (a, cols) g
  = Return (applied c (updateAt p (λ _, Nd s k d' ns) (document (state c)))
              (op_set_node k {| p_type := None; p_data := Some d' |}), g).
Proof.
  intros d' Hnd Hat. unfold tableContainAlignData_normalize.
  cbn [getData data]. erewrite bind_Return; [|reflexivity].
  apply (setNodeByKey_at c p (Nd s k d ns)); [done..|]. by destruct s.
Qed.

(** X8: in a document with unique keys, whenever the alignment rule reports a
    table, its [normalize] returns on the payload reported and draws no key;
    the table keeps its key, its type and its children, its align entry is
    then an array with as many tags as the payload has columns, and the rule
    accepts the table: one repair is enough for this rule.  On a table whose
    children are rows holding only cells, as many as the table is wide, that
    number of columns is the table's width, and the table then satisfies the
    invariant of the rule. *)
Theorem tableContainAlignData_resolves host DEF opts c p s k d ns g a cols g1 :
  let doc := document (state c) in
  let table := Nd s k d ns in
  NoDup (keys doc) →
  getAt doc p = Some table →
  tableContainAlignData_validate host opts table g = Return (Some (a, cols), g1) →
  ∃ c' d' l,
    tableContainAlignData_normalize DEF opts c table (a, cols) g1 = Return (c', g1)
    ∧ document (state c') = updateAt p (λ _, Nd s k d' ns) doc
    ∧ d' !! "align" = Some (JArr l) ∧ length l = cols
    ∧ tableContainAlignData_validate host opts (Nd s k d' ns) g1 = Return (None, g1)
    ∧ (Invariant.tableContent opts table → Invariant.rowColumns opts table →
       cols = width opts table ∧ Invariant.alignment opts (Nd s k d' ns)).
Proof.
  intros doc table Hnd Hat Hval. subst doc table.
  apply tableContainAlignData_validate_Some in Hval
    as (-> & s0 & k0 & d0 & fs & fk & fd & cs & rest & [= <- <- <- ->] & -> & ->).
  set (a := Map_get d "align" (JList [])).
  set (d' := Object_assign (Data_toJS d) "align" (JArr (createAlign DEF (length cs) a))).
  eexists _, d', (createAlign DEF (length cs) a). split_and!.
  - by apply tableContainAlignData_run.
  - done.
  - apply lookup_insert_eq.
  - apply createAlign_length.
  - unfold tableContainAlignData_validate. cbn [getData data getNodes nodes head].
    erewrite bind_Return; [|reflexivity]. erewrite bind_Return; [|reflexivity].
    erewrite bind_Return; [|reflexivity].
    unfold Map_get, d', Object_assign. rewrite lookup_insert_eq.
    cbn [default getLength from_option id].
    erewrite bind_Return; [|reflexivity].
    erewrite bind_Return; [|apply looseEqNumber_JNum]. unfold ret.
    rewrite createAlign_length. by rewrite bool_decide_eq_true_2.
  - intros [_ Hall] Hcols.
    change (children (Nd s k d (Nd fs fk fd cs :: rest)))
      with (Nd fs fk fd cs :: rest) in *.
    assert (type (Nd fs fk fd cs) = Some (typeRow opts)) as Hrow by by inversion Hall.
    destruct (Hcols (Nd fs fk fd cs)) as [Hcount Hcells]; [left|done|].
    assert (length cs = countCells opts (Nd fs fk fd cs)) as Hlen.
    { symmetry. apply countCells_all. eapply Forall_impl; [exact Hcells|].
      intros x Hx. by apply hasType_true. }
    split.
    + rewrite Hlen, Hcount. reflexivity.
    + exists d', (createAlign DEF (length cs) a), (Nd fs fk fd cs). split_and!.
      * done.
      * apply lookup_insert_eq.
      * change (children (Nd s k d' (Nd fs fk fd cs :: rest)))
          with (Nd fs fk fd cs :: rest).
        cbn [List.filter]. by rewrite (proj2 (hasType_true _ _) Hrow).
      * by rewrite createAlign_length.
Qed.

(** ** Rule 5: one repair is enough when no row is too long *)

Lemma padRow_shape opts columns r g :
  type (padRow opts columns r g).1 = type r ∧ key (padRow opts columns r g).1 = key r.
Proof.
  unfold padRow. destruct (convertAll opts (children r) g) as [cs' g1].
  by destruct r as [[]|].
Qed.

Lemma padRow_cells opts columns r g :
  hasType (typeRow opts) r = true →
  length (children r) ≤ columns →
  countCells opts (padRow opts columns r g).1 = columns
  ∧ Forall (λ n, hasType (typeCell opts) n = true) (children (padRow opts columns r g).1).
Proof.
  intros Hrow Hlen. destruct (hasType_Nd _ _ Hrow) as (rs & rk & rd & rcs & ->).
  unfold padRow, nonCells. change (children (Nd rs rk rd rcs)) with rcs in *.
  pose proof (convertAll_length opts rcs g) as Hlen'.
  pose proof (convertAll_cells opts rcs g) as Hcells.
  destruct (convertAll opts rcs g) as [cs' g1]. cbn [fst snd] in *.
  set (inv := length (List.filter (λ n, negb (hasType (typeCell opts) n)) rcs)).
  assert (countCells opts (Nd rs rk rd rcs) + inv = length rcs) as Hsum
    by apply List.filter_length.
  rewrite Range_length_le by lia.
  cbn [withNodes children nodes default from_option id].
  assert (Forall (λ n, hasType (typeCell opts) n = true)
            (take inv cs'
             ++ emptyCells opts g1 (columns - countCells opts (Nd rs rk rd rcs) - inv)
             ++ drop inv cs')) as Hall.
  { rewrite !Forall_app. split_and!;
      [by apply Forall_take|apply emptyCells_cells|by apply Forall_drop]. }
  split; [|done]. unfold countCells at 1.
  cbn [children nodes default from_option id]. rewrite filter_all by done.
  rewrite !length_app, length_take, length_drop.
  unfold emptyCells. rewrite length_map, length_seq. lia.
Qed.

(** The children of a table after the row rule, one by one. *)
Lemma padRows_row opts columns ns g j r' :
  (∀ r, r ∈ ns → hasType (typeRow opts) r = true → length (children r) ≤ columns) →
  (padRows opts columns ns g).1 !! j = Some r' →
  ∃ r, ns !! j = Some r ∧ type r' = type r ∧ key r' = key r
       ∧ (hasType (typeRow opts) r = true →
          countCells opts r' = columns
          ∧ Forall (λ n, hasType (typeCell opts) n = true) (children r')).
Proof.
  intros Hlen Hj.
  assert (j < length ns) as Hlt.
  { rewrite <-(padRows_length opts columns ns g). by eapply lookup_lt_Some. }
  destruct (lookup_lt_is_Some_2 ns j Hlt) as [r Hr]. exists r. split; [done|].
  destruct (padRows_lookup opts columns ns g j r Hr) as [gr Hlook].
  rewrite Hlook in Hj. injection Hj as <-.
  destruct (hasType (typeRow opts) r) eqn:Hrow; cbn [andb]; [|by split_and!].
  destruct (offending opts columns r) eqn:Hoff.
  - destruct (padRow_shape opts columns r gr) as [Ht Hk]. split_and!; [done|done|].
    intros _. apply padRow_cells; [done|].
    apply Hlen; [by eapply list_elem_of_lookup_2|done].
  - split_and!; [done|done|]. intros _.
    apply offending_false in Hoff as [Hnc Hcount]. split; [done|].
    unfold nonCells in Hnc. apply filter_negb_nil in Hnc.
    rewrite <-Hnc. apply Forall_forall. intros x Hx.
    apply list_elem_of_In, List.filter_In in Hx. tauto.
Qed.

Lemma columnsOf_const opts rows c :
  1 ≤ c → rows ≠ [] → (∀ r, r ∈ rows → countCells opts r = c) →
  columnsOf opts rows = c.
Proof.
  intros Hc Hne Hall.
  destruct (fold_max_bounds (countCells opts) rows 1) as (_ & Hle & [H1|(r & Hr & Heq)]).
  - fold (columnsOf opts rows) in *. destruct rows as [|r rows]; [done|].
    specialize (Hle r ltac:(left)). rewrite (Hall r) in Hle by left. lia.
  - fold (columnsOf opts rows) in *. rewrite <-Heq. by apply Hall.
Qed.

(** X9: in a well-keyed document, whenever the row rule reports a table none
    of whose rows has more children than the table has columns, its
    [normalize] returns on the payload reported, the table keeps its width,
    every row of it then holds only cells, exactly as many as the table is
    wide, and the rule accepts the table: one repair is enough for this rule.
    (A row with more children than columns ends with more cells than the
    table had columns.) *)
Theorem rowsContainRequiredColumns_resolves opts c p s k d ns g rows :
  let doc := document (state c) in
  let table := Nd s k d ns in
  let columns := width opts table in
  wellKeyed g doc →
  getAt doc p = Some table →
  rowsContainRequiredColumns_validate opts table g = Return (Some rows, g) →
  (∀ r, r ∈ ns → hasType (typeRow opts) r = true → length (children r) ≤ columns) →
  ∃ c' g' ns',
    rowsContainRequiredColumns_normalize opts c table rows g = Return (c', g')
    ∧ document (state c') = updateAt p (λ _, Nd s k d ns') doc
    ∧ width opts (Nd s k d ns') = columns
    ∧ Invariant.rowColumns opts (Nd s k d ns')
    ∧ rowsContainRequiredColumns_validate opts (Nd s k d ns') g' = Return (None, g').
Proof.
  intros doc table columns Hwk Hat Hval Hlen. subst doc table.
  unfold width in columns. change (children (Nd s k d ns)) with ns in columns.
  rewrite rowsContainRequiredColumns_validate_Nd in Hval. cbn zeta in Hval.
  fold columns in Hval.
  assert (rows = omap (checkRow opts columns) (List.filter (hasType (typeRow opts)) ns)
          ∧ rows ≠ []) as [-> Hne].
  { destruct (omap _ _) as [|e l] in Hval |- *; [done|]. by injection Hval as <-. }
  destruct (rows_loop opts columns p s k d ns [] c g Hwk Hat) as (c' & Hrun & Hdoc & _).
  cbn [app] in Hrun, Hdoc.
  set (ns' := (padRows opts columns ns g).1) in *.
  assert (∀ r', r' ∈ List.filter (hasType (typeRow opts)) ns' →
            countCells opts r' = columns
            ∧ Forall (λ n, hasType (typeCell opts) n = true) (children r')) as Hrows.
  { intros r' Hr'. apply list_elem_of_In, List.filter_In in Hr' as [Hin Hrow'].
    apply list_elem_of_In, list_elem_of_lookup_1 in Hin as [j Hj].
    destruct (padRows_row opts columns ns g j r' Hlen Hj) as (r & Hr & Ht & _ & Hok).
    apply Hok. unfold hasType in *. by rewrite <-Ht. }
  assert (List.filter (hasType (typeRow opts)) ns' ≠ []) as Hne'.
  { destruct (List.filter (hasType (typeRow opts)) ns) as [|r l] eqn:Hf; [done|].
    assert (r ∈ List.filter (hasType (typeRow opts)) ns) as Hr by (rewrite Hf; left).
    apply list_elem_of_In, List.filter_In in Hr as [Hin Hrow].
    apply list_elem_of_In, list_elem_of_lookup_1 in Hin as [j Hj].
    assert (j < length ns') as Hlt.
    { unfold ns'. rewrite padRows_length. by eapply lookup_lt_Some. }
    destruct (lookup_lt_is_Some_2 ns' j Hlt) as [r' Hr'].
    destruct (padRows_row opts columns ns g j r' Hlen Hr') as (r0 & Hr0 & Ht & _).
    rewrite Hj in Hr0. injection Hr0 as <-.
    intros Hnil. assert (r' ∈ List.filter (hasType (typeRow opts)) ns') as Hin'.
    { apply list_elem_of_In, List.filter_In. split.
      - apply list_elem_of_In. by eapply list_elem_of_lookup_2.
      - unfold hasType in *. by rewrite Ht. }
    rewrite Hnil in Hin'. by apply elem_of_nil in Hin'. }
  assert (width opts (Nd s k d ns') = columns) as Hw.
  { unfold width. change (children (Nd s k d ns')) with ns'.
    apply columnsOf_const; [|done|by intros r' Hr'; apply Hrows].
    apply (fold_max_bounds (countCells opts) _ 1). }
  exists c', (padRows opts columns ns g).2, ns'.
  split_and!; [exact Hrun|exact Hdoc|exact Hw| |].
  - intros r' Hin Hrow. rewrite Hw.
    destruct (Hrows r') as [Hcount Hcells].
    { apply list_elem_of_In, List.filter_In. split; [by apply list_elem_of_In|].
      by apply hasType_true. }
    split; [done|]. eapply Forall_impl; [exact Hcells|].
    intros x Hx. by apply hasType_true.
  - rewrite rowsContainRequiredColumns_validate_Nd. cbn zeta.
    unfold width in Hw. change (children (Nd s k d ns')) with ns' in Hw. rewrite Hw.
    rewrite omap_all_None; [done|]. intros r' Hr'.
    destruct (Hrows r' Hr') as [Hcount Hcells].
    rewrite checkRow_offending.
    assert (offending opts columns r' = false) as ->; [|done].
    apply offending_false. split; [|done]. unfold nonCells. apply filter_none.
    eapply Forall_impl; [exact Hcells|]. intros x Hx. cbn. by rewrite Hx.
Qed.

(** ** Rule 1: when one repair is enough, and what becomes of the text *)

Lemma isBlock_markText index n : isBlock (markText index n) = isBlock n.
Proof. destruct n as [|k t]; [done|]. cbn. by destruct (index =? 0). Qed.

Lemma unwrapBlocks_blocks index cs :
  Forall (λ n, isBlock n = false) (unwrapBlocks index cs)
  ↔ ∀ b, b ∈ cs → isBlock b = true →
         children b ≠ [] ∧ Forall (λ n, isBlock n = false) (children b).
Proof.
  revert index. induction cs as [|x cs IH]; intros index.
  - split; [by intros _ b ?%elem_of_nil|constructor].
  - cbn [unwrapBlocks]. destruct (isBlock x) eqn:Hx.
    + rewrite Forall_app, IH. split.
      * intros [Hfirst Hrest] b [->|Hb]%elem_of_cons Hblock; [|by apply Hrest].
        destruct (children x) as [|y gs] eqn:Hgs.
        -- inversion Hfirst as [|? ? Hb' _]. congruence.
        -- split; [done|]. rewrite Forall_map in Hfirst.
           eapply Forall_impl; [exact Hfirst|]. intros n Hn.
           rewrite <-(isBlock_markText index). exact Hn.
      * intros Hall. split; [|intros b Hb; apply Hall; by right].
        destruct (Hall x ltac:(left) Hx) as [Hne Hflat].
        destruct (children x) as [|y gs] eqn:Hgs; [done|].
        rewrite Forall_map. eapply Forall_impl; [exact Hflat|]. intros n Hn.
        cbn. by rewrite isBlock_markText.
    + rewrite Forall_cons, IH. split.
      * intros [_ Hrest] b [->|Hb]%elem_of_cons Hblock; [congruence|by apply Hrest].
      * intros Hall. split; [done|]. intros b Hb. apply Hall. by right.
Qed.

(** X10: in a document with unique keys, where the normalisation that the
    host runs after each insertion of a newline finds nothing to change in
    the nested block it is handed, the cell rule's [normalize] returns on the
    block children of any cell and draws no key, and the cell it leaves is
    accepted by the rule exactly when every block child of the cell had
    children and none of them was a block: then one repair is enough.  A
    block child without children stays in the cell, and a block inside a
    block child arrives in the cell as a block, so that the cell is reported
    again. *)
Theorem noBlocksWithinCell_resolves host opts c q s k d cs g :
  let doc := document (state c) in
  let cell := Nd s k d cs in
  NoDup (keys doc) →
  getAt doc q = Some cell →
  hostLeaves (normalizeCore host) cs →
  ∃ c' cs',
    noBlocksWithinCell_normalize host opts c cell (List.filter isBlock cs) g = Return (c', g)
    ∧ document (state c') = updateAt q (λ _, Nd s k d cs') doc
    ∧ (noBlocksWithinCell_validate opts (Nd s k d cs') g = Return (None, g)
       ↔ ∀ b, b ∈ cs → isBlock b = true →
              children b ≠ [] ∧ Forall (λ n, isBlock n = false) (children b))
    ∧ (Invariant.cellContent (Nd s k d cs')
       ↔ noBlocksWithinCell_validate opts (Nd s k d cs') g = Return (None, g)).
Proof.
  intros doc cell Hnd Hat Halone. subst doc cell.
  destruct (unwrap_blocks_loop (normalizeCore host) q s k d cs [] 0 c g Halone Hnd Hat)
    as (c' & Hrun & Hdoc & _).
  cbn [app] in Hdoc. exists c', (unwrapBlocks 0 cs).
  assert (∀ l, noBlocksWithinCell_validate opts (Nd s k d l) g = Return (None, g)
               ↔ Forall (λ n, isBlock n = false) l) as Hv.
  { intros l. rewrite noBlocksWithinCell_validate_Nd. split.
    - intros H. destruct (List.filter isBlock l) as [|b bs] eqn:Hf; [|done].
      apply Forall_forall. by apply filter_nil_iff.
    - intros H. by rewrite filter_none. }
  split_and!; [exact Hrun|exact Hdoc| |].
  - rewrite Hv. apply unwrapBlocks_blocks.
  - rewrite Hv. unfold Invariant.cellContent.
    change (children (Nd s k d (unwrapBlocks 0 cs))) with (unwrapBlocks 0 cs).
    apply Forall_iff. intros n. unfold isBlock. by rewrite bool_decide_eq_false.
Qed.

Lemma filter_concat {A} (P : A → bool) (ls : list (list A)) :
  List.filter P (concat ls) = concat (map (List.filter P) ls).
Proof.
  induction ls as [|l ls IH]; [done|]. cbn. by rewrite List.filter_app, IH.
Qed.

Lemma texts_Nd s k d ns : texts (Nd s k d ns) = concat (map texts ns).
Proof.
  unfold texts. cbn [subtree]. rewrite List.filter_app, filter_concat, map_map.
  cbn [List.filter]. replace (isText (Nd s k d ns)) with false by by destruct s.
  by rewrite app_nil_r.
Qed.

(** The texts of a tree are listed in document order: an update at a path
    replaces one segment of the list. *)
Lemma texts_updateAt n p t :
  getAt n p = Some t →
  ∃ pre post, texts n = pre ++ texts t ++ post
              ∧ ∀ f, texts (updateAt p f n) = pre ++ texts (f t) ++ post.
Proof.
  revert n. induction p as [|i q IH]; intros n H.
  - injection H as ->. exists [], []. split; [|intros f]; cbn; by rewrite app_nil_r.
  - destruct n as [s k d ns|]; [|done]. cbn in H.
    destruct (ns !! i) as [c|] eqn:Hc; [|done].
    destruct (IH _ H) as (pre & post & Hk & Hf).
    apply list_elem_of_split_length in Hc as (l1 & l2 & -> & ->).
    exists (concat (map texts l1) ++ pre), (post ++ concat (map texts l2)).
    split.
    + rewrite texts_Nd, map_app, concat_app. cbn. rewrite Hk. by rewrite <-!app_assoc.
    + intros f. cbn [updateAt withNodes]. rewrite alter_app_r_alt by lia.
      rewrite Nat.sub_diag. cbn [alter list_alter].
      rewrite texts_Nd, map_app, concat_app. cbn. rewrite Hf. by rewrite <-!app_assoc.
Qed.

Lemma sameOrNewline_refl l : Forall2 sameOrNewline l l.
Proof. induction l; constructor; [by left|done]. Qed.

Lemma texts_Text k t : texts (Text k t) = [Text k t].
Proof. reflexivity. Qed.

Lemma texts_markText index x : Forall2 sameOrNewline (texts x) (texts (markText index x)).
Proof.
  destruct x as [|k t]; [apply sameOrNewline_refl|].
  cbn [markText]. destruct (negb (index =? 0)); [|apply sameOrNewline_refl].
  rewrite !texts_Text. constructor; [|constructor]. right. eauto.
Qed.

Lemma texts_map_markText index l :
  Forall2 sameOrNewline (concat (map texts l))
    (concat (map texts (map (markText index) l))).
Proof.
  induction l as [|z l IHl]; [constructor|]. cbn [map concat].
  apply Forall2_app; [apply texts_markText|apply IHl].
Qed.

Lemma texts_unwrapBlocks index cs :
  Forall2 sameOrNewline (concat (map texts cs)) (concat (map texts (unwrapBlocks index cs))).
Proof.
  revert index. induction cs as [|x cs IH]; intros index; [constructor|].
  cbn [unwrapBlocks map concat]. destruct (isBlock x) eqn:Hx.
  - rewrite map_app, concat_app. apply Forall2_app; [|apply IH].
    apply isBlock_Nd in Hx as (t & xk & xd & gs & ->).
    change (children (Nd (Block t) xk xd gs)) with gs.
    destruct gs as [|y gs]; [cbn; rewrite app_nil_r; apply sameOrNewline_refl|].
    rewrite texts_Nd. cbv iota. apply (texts_map_markText index (y :: gs)).
  - cbn [map concat]. apply Forall2_app; [apply sameOrNewline_refl|apply IH].
Qed.

(** X11: in a document with unique keys, where the normalisation that the
    host runs after each insertion of a newline finds nothing to change in
    the nested block it is handed (it joins no text nodes there), the cell
    rule's repair of any cell loses no text: the text nodes of the document
    afterwards are those from before, with their keys and in their order, and
    each holds the characters it held, or these behind one newline. *)
Theorem noBlocksWithinCell_keeps_text host opts c q s k d cs g :
  let doc := document (state c) in
  let cell := Nd s k d cs in
  NoDup (keys doc) →
  getAt doc q = Some cell →
  hostLeaves (normalizeCore host) cs →
  ∃ c',
    noBlocksWithinCell_normalize host opts c cell (List.filter isBlock cs) g = Return (c', g)
    ∧ Forall2 sameOrNewline (texts doc) (texts (document (state c')))
    ∧ map key (texts (document (state c'))) = map key (texts doc).
Proof.
  intros doc cell Hnd Hat Halone. subst doc cell.
  destruct (unwrap_blocks_loop (normalizeCore host) q s k d cs [] 0 c g Halone Hnd Hat)
    as (c' & Hrun & Hdoc & _).
  cbn [app] in Hdoc. exists c'.
  assert (Forall2 sameOrNewline (texts (document (state c)))
            (texts (document (state c')))) as Hsame.
  { destruct (texts_updateAt _ _ _ Hat) as (pre & post & Hk & Hf).
    rewrite Hdoc, Hf, Hk, !texts_Nd.
    repeat apply Forall2_app; [apply sameOrNewline_refl| |apply sameOrNewline_refl].
    apply texts_unwrapBlocks. }
  split_and!; [exact Hrun|exact Hsame|].
  induction Hsame as [|a b l l' Hab _ IH]; [done|]. cbn [map]. f_equal; [|exact IH].
  by destruct Hab as [->|(k0 & t & -> & ->)].
Qed.

(** ** The text of the document under the other repairs *)

Lemma grownByEmpty_refl l : grownByEmpty l l.
Proof. split; [done|]. intros t Ht. by left. Qed.

Lemma grownByEmpty_app l1 l1' l2 l2' :
  grownByEmpty l1 l1' → grownByEmpty l2 l2' → grownByEmpty (l1 ++ l2) (l1' ++ l2').
Proof.
  intros [Hs1 Hm1] [Hs2 Hm2]. split; [by apply sublist_app|].
  intros t [Ht|Ht]%elem_of_app.
  - destruct (Hm1 t Ht) as [?|?]; [left; apply elem_of_app|]; auto.
  - destruct (Hm2 t Ht) as [?|?]; [left; apply elem_of_app|]; auto.
Qed.

Lemma grownByEmpty_insert l1 l2 e :
  Forall (λ t, ∃ k, t = Text k "") e → grownByEmpty (l1 ++ l2) (l1 ++ e ++ l2).
Proof.
  intros He. split.
  - apply sublist_app; [done|]. by apply sublist_inserts_l.
  - rewrite Forall_forall in He. intros t. rewrite !elem_of_app.
    intros [?|[?|?]]; auto.
Qed.

Lemma texts_wrapEach P ty pd cs g :
  concat (map texts (wrapEach P ty pd cs g)) = concat (map texts cs).
Proof.
  revert g. induction cs as [|x cs IH]; intros g; [done|].
  cbn [wrapEach]. destruct (P x); cbn [map concat]; rewrite IH; [|done].
  rewrite texts_Nd. cbn. by rewrite app_nil_r.
Qed.

Lemma texts_convertChild opts x g : texts (convertChild opts x g).1 = texts x.
Proof.
  unfold convertChild. destruct (hasType (typeCell opts) x); [done|].
  destruct x as [[| |]|]; cbn [fst]; rewrite ?texts_Nd; cbn [map concat];
    rewrite ?app_nil_r; try done; by rewrite texts_Nd.
Qed.

Lemma texts_convertAll opts cs g :
  concat (map texts (convertAll opts cs g).1) = concat (map texts cs).
Proof.
  revert g. induction cs as [|x cs IH]; intros g; [done|]. cbn [convertAll].
  pose proof (texts_convertChild opts x g) as Hx.
  destruct (convertChild opts x g) as [x' g1]. specialize (IH g1).
  destruct (convertAll opts cs g1) as [cs' g2]. cbn [fst map concat] in *.
  by rewrite Hx, IH.
Qed.

Lemma texts_emptyCells opts g m :
  Forall (λ t, ∃ k, t = Text k "") (concat (map texts (emptyCells opts g m))).
Proof.
  unfold emptyCells. induction (seq 0 m) as [|j l IH]; [constructor|].
  cbn [map concat]. apply Forall_app. split; [|exact IH].
  unfold emptyCellAt. rewrite texts_Nd. cbn. repeat constructor. eauto.
Qed.

Lemma texts_padRow opts columns r g :
  hasType (typeRow opts) r = true →
  grownByEmpty (texts r) (texts (padRow opts columns r g).1).
Proof.
  intros Hrow. destruct (hasType_Nd _ _ Hrow) as (rs & rk & rd & rcs & ->).
  unfold padRow. change (children (Nd rs rk rd rcs)) with rcs.
  pose proof (texts_convertAll opts rcs g) as Hconv.
  destruct (convertAll opts rcs g) as [cs' g1]. cbn [fst withNodes] in *.
  rewrite !texts_Nd, <-Hconv.
  set (inv := length (nonCells opts (Nd rs rk rd rcs))).
  rewrite <-(take_drop inv cs') at 1. rewrite !map_app, !concat_app.
  apply grownByEmpty_insert, texts_emptyCells.
Qed.

Lemma texts_padRows opts columns ns g :
  grownByEmpty (concat (map texts ns)) (concat (map texts (padRows opts columns ns g).1)).
Proof.
  revert g. induction ns as [|x ns IH]; intros g; [apply grownByEmpty_refl|].
  cbn [padRows].
  assert (grownByEmpty (texts x)
            (texts (if hasType (typeRow opts) x && offending opts columns x
                    then padRow opts columns x g else (x, g)).1)) as Hx.
  { destruct (hasType (typeRow opts) x) eqn:Hrow; [|apply grownByEmpty_refl].
    destruct (offending opts columns x); [|apply grownByEmpty_refl].
    by apply texts_padRow. }
  destruct (if hasType (typeRow opts) x && offending opts columns x
            then padRow opts columns x g else (x, g)) as [x' g1].
  specialize (IH g1). destruct (padRows opts columns ns g1) as [ns' g2].
  cbn [fst map concat] in *. by apply grownByEmpty_app.
Qed.

Lemma keys_unwrapBlocks index cs x :
  x ∈ concat (map keys (unwrapBlocks index cs)) → x ∈ concat (map keys cs).
Proof.
  revert index. induction cs as [|y cs IH]; intros index; [done|].
  cbn [unwrapBlocks map concat]. destruct (isBlock y) eqn:Hy.
  - rewrite map_app, concat_app, !elem_of_app. intros [Hx|Hx]; [left|right; by eapply IH].
    apply isBlock_Nd in Hy as (t & yk & yd & gs & ->).
    change (children (Nd (Block t) yk yd gs)) with gs in Hx.
    destruct gs as [|z gs]; [cbn in Hx |- *; by rewrite ?app_nil_r in Hx|].
    cbv iota in Hx. cbn [keys]. right.
    change (markText index z :: map (markText index) gs)
      with (map (markText index) (z :: gs)) in Hx.
    rewrite map_map in Hx. erewrite map_ext in Hx; [exact Hx|].
    intros a. apply keys_markText.
  - cbn [map concat]. rewrite !elem_of_app. intros [Hx|Hx]; [by left|right; by eapply IH].
Qed.

(** ** Every repair returns and keeps the document well keyed *)

Lemma convertAll_counter opts cs (g : Key) : g ≤ (convertAll opts cs g).2.
Proof.
  revert g. induction cs as [|x cs IH]; intros g; [done|]. cbn [convertAll].
  assert (g ≤ (convertChild opts x g).2) as Hx.
  { unfold convertChild. destruct (hasType (typeCell opts) x); [done|].
    destruct x as [[]|]; cbn; lia. }
  destruct (convertChild opts x g) as [x' g1]. specialize (IH g1).
  destruct (convertAll opts cs g1) as [cs' g2]. cbn [snd] in *. lia.
Qed.

Lemma padRows_counter opts columns ns (g : Key) : g ≤ (padRows opts columns ns g).2.
Proof.
  revert g. induction ns as [|x ns IH]; intros g; [done|]. cbn [padRows].
  destruct (if hasType (typeRow opts) x && offending opts columns x
            then padRow opts columns x g else (x, g)) as [x' g1] eqn:Hx.
  assert (g ≤ g1) as Hle.
  { destruct (_ && _) in Hx; [|by injection Hx as _ <-]. unfold padRow in Hx.
    pose proof (convertAll_counter opts (children x) g) as Hc.
    destruct (convertAll opts (children x) g) as [cs' g0]. cbn [snd] in Hc.
    injection Hx as _ <-. lia. }
  specialize (IH g1). destruct (padRows opts columns ns g1) as [ns' g2].
  cbn [snd] in *. lia.
Qed.

(** What a repair of the schema does, for the rule at index [i] and the
    payload its [validate] has just reported on a node of the document. *)
Lemma normalize_run host DEF opts i r c p n v g g1 :
  makeSchema host DEF opts !! i = Some r →
  (i = 0 → hostLeaves (normalizeCore host) (children n)) →
  wellKeyed g (document (state c)) →
  getAt (document (state c)) p = Some n →
  validate r n g = Return (Some v, g1) →
  ∃ c' g2 n',
    normalize r c n v g1 = Return (c', g2)
    ∧ g ≤ g2
    ∧ document (state c') = updateAt p (λ _, n') (document (state c))
    ∧ wellKeyed g2 (document (state c'))
    ∧ (i = 1 ∨ i = 2 ∨ i = 5 → texts n' = texts n)
    ∧ (i = 4 → grownByEmpty (texts n) (texts n')).
Proof.
  intros Hi Halone Hwk Hat Hval. destruct n as [s k d ns|k t].
  2:{ exfalso. destruct i as [|[|[|[|[|[|i]]]]]]; [..|done]; injection Hi as <-;
        by vm_compute in Hval. }
  pose proof (wellKeyed_getAt _ _ _ _ Hwk Hat) as [Hndt Hltt].
  destruct i as [|[|[|[|[|[|i]]]]]]; [..|done]; injection Hi as <-;
    cbn [validate normalize noBlocksWithinCell cellsWithinTable rowsWithinTable
           tablesContainOnlyRows rowsContainRequiredColumns tableContainAlignData] in *;
    unfold bind in Hval.
  - (* rule 1 *)
    rewrite noBlocksWithinCell_validate_Nd in Hval. unfold ret in Hval.
    destruct (0 <? _) in Hval; [|done]. injection Hval as <- <-.
    destruct (unwrap_blocks_loop (normalizeCore host) p s k d ns [] 0 c g
                (Halone eq_refl) (proj1 Hwk) Hat)
      as (c' & Hrun & Hdoc & Hnd').
    cbn [app] in Hdoc. exists c', g, (Nd s k d (unwrapBlocks 0 ns)).
    split_and!; [exact Hrun|done|exact Hdoc| |by intros [?|[?|?]]|done].
    split; [done|]. rewrite Hdoc. eapply Forall_keys_updateAt; [done|apply Hwk|].
    cbn [keys] in Hltt |- *. inversion_clear Hltt as [|? ? Hk Hrest].
    constructor; [done|]. rewrite Forall_forall in Hrest |- *.
    intros x Hx. by eapply Hrest, keys_unwrapBlocks.
  - (* rule 2 *)
    rewrite cellsWithinTable_validate_Nd in Hval. unfold ret in Hval.
    destruct (bool_decide _) in Hval; [done|]. injection Hval as <- <-.
    destruct (wrap_loop (hasType (typeCell opts)) (typeRow opts) (λ _, None)
                (λ cell change, wrapBlockByKey change (key cell)
                   {| p_type := Some (typeRow opts); p_data := None |})
                p s k d ns (λ _ _ _ _, eq_refl) [] c g Hwk Hat)
      as (c' & Hrun & Hdoc & Hwk').
    cbn [app] in Hdoc. eexists c', _, (Nd s k d _).
    split_and!; [exact Hrun|lia|exact Hdoc|exact Hwk'| |done].
    intros _. by rewrite !texts_Nd, texts_wrapEach.
  - (* rule 3 *)
    rewrite rowsWithinTable_validate_Nd in Hval. unfold ret in Hval.
    destruct (bool_decide _) in Hval; [done|]. injection Hval as <- <-.
    destruct (wrap_loop (hasType (typeRow opts)) (typeTable opts)
                (λ row, Some {[ "align" :=
                   JArr (createAlign DEF (length (children row)) JUndefined) ]})
                (λ row change,
                   let* cells := getNodes row in
                   wrapBlockByKey change (key row)
                     {| p_type := Some (typeTable opts);
                        p_data := Some {[ "align" :=
                          JArr (createAlign DEF (length cells) JUndefined) ]} |})
                p s k d ns
                (λ x c g Hx, ltac:(by destruct (hasType_Nd _ _ Hx) as (? & ? & ? & ? & ->)))
                [] c g Hwk Hat)
      as (c' & Hrun & Hdoc & Hwk').
    cbn [app] in Hdoc. eexists c', _, (Nd s k d _).
    split_and!; [exact Hrun|lia|exact Hdoc|exact Hwk'| |done].
    intros _. by rewrite !texts_Nd, texts_wrapEach.
  - (* rule 4 *)
    destruct (tablesContainOnlyRows_run opts c p s k d ns g Hwk Hat)
      as (Hv & c' & Hrun & Hdoc & Hwk').
    rewrite Hv in Hval. unfold ret in Hval.
    destruct (_ || _) in Hval; [|done]. injection Hval as <- <-.
    eexists c', _, (Nd s k d _).
    split_and!; [exact Hrun| |exact Hdoc|exact Hwk'|by intros [?|[?|?]]|done].
    destruct (bool_decide _); lia.
  - (* rule 5 *)
    rewrite rowsContainRequiredColumns_validate_Nd in Hval. cbn zeta in Hval.
    unfold ret in Hval. destruct (0 <? _) in Hval; [|done]. injection Hval as <- <-.
    destruct (rows_loop opts
                (columnsOf opts (List.filter (hasType (typeRow opts)) ns))
                p s k d ns [] c g Hwk Hat) as (c' & Hrun & Hdoc & Hwk').
    cbn [app] in Hrun, Hdoc. eexists c', _, (Nd s k d _).
    split_and!; [exact Hrun|apply padRows_counter|exact Hdoc|exact Hwk'
                |by intros [?|[?|?]]|].
    intros _. rewrite !texts_Nd. apply texts_padRows.
  - (* rule 6 *)
    destruct (tableContainAlignData_validate host opts (Nd s k d ns) g)
      as [[[[a cols]|] g2]|e] eqn:Hv; try done.
    unfold ret in Hval. injection Hval as <- <-.
    apply tableContainAlignData_validate_Some in Hv as (-> & _).
    pose proof (tableContainAlignData_run DEF opts c p s k d ns a cols g
                  (proj1 Hwk) Hat) as Hrun.
    cbn zeta in Hrun. eexists _, g, (Nd s k _ ns).
    split_and!; [exact Hrun|done|reflexivity| |by rewrite !texts_Nd|done].
    cbn [document state applied].
    by eapply (wellKeyed_updateAt_fresh g g _ _ _ _ []); [done|done|done|constructor..|].
Qed.

(** X12: in a well-keyed document, the repairs of the two containment rules
    (indices 1 and 2 of the schema), of the row rule (index 4) and of the
    alignment rule (index 5) remove no text: on the payload [validate] has
    reported for a node of the document, [normalize] returns, and the text
    nodes of the document afterwards are those from before, in their order
    and unchanged, with nothing in between but the empty texts of the cells
    the row rule has synthesized; after a repair of the containment rules or
    of the alignment rule the text nodes are exactly those from before. *)
Theorem repairs_keep_text host DEF opts i r c p n v g g1 :
  let doc := document (state c) in
  makeSchema host DEF opts !! i = Some r →
  i ≠ 0 → i ≠ 3 →
  wellKeyed g doc →
  getAt doc p = Some n →
  validate r n g = Return (Some v, g1) →
  ∃ c' g2,
    normalize r c n v g1 = Return (c', g2)
    ∧ grownByEmpty (texts doc) (texts (document (state c')))
    ∧ (i ≠ 4 → texts (document (state c')) = texts doc).
Proof.
  intros doc Hi H0 H3 Hwk Hat Hval. subst doc.
  destruct (normalize_run host DEF opts i r c p n v g g1 Hi
              (λ Hz, False_ind _ (H0 Hz)) Hwk Hat Hval)
    as (c' & g2 & n' & Hrun & _ & Hdoc & _ & Hsame & Hgrown).
  destruct (texts_updateAt _ _ _ Hat) as (pre & post & Hk & Hf).
  exists c', g2. rewrite Hdoc, Hf, Hk.
  assert (i = 4 ∨ texts n' = texts n) as [->|Heq].
  { destruct i as [|[|[|[|[|[|i]]]]]]; [done|right|right|done|left|right|done];
      (done || apply Hsame; auto). }
  - split_and!; [exact Hrun| |done].
    repeat apply grownByEmpty_app; [apply grownByEmpty_refl|by apply Hgrown
                                   |apply grownByEmpty_refl].
  - rewrite Heq. split_and!; [exact Hrun|apply grownByEmpty_refl|done].
Qed.

(** X13: in a well-keyed document, for every rule of the schema and every
    node of the document, on the payload the rule's [validate] has reported
    for the node, the rule's [normalize] returns and never throws (for the
    cell rule, at index 0 of the schema: where the normalisation that the
    host runs after each insertion of a newline finds nothing to change in
    the nested block it is handed); the repair is confined to the node, the
    rest of the document staying as it is; the key counter does not go back,
    and the document is well keyed again below the new counter: its keys are
    pairwise different and all drawn, which is what an edit by key relies
    on. *)
Theorem normalize_keeps_well_keyed host DEF opts i r c p n v g g1 :
  let doc := document (state c) in
  makeSchema host DEF opts !! i = Some r →
  (i = 0 → hostLeaves (normalizeCore host) (children n)) →
  wellKeyed g doc →
  getAt doc p = Some n →
  validate r n g = Return (Some v, g1) →
  ∃ c' g2 n',
    normalize r c n v g1 = Return (c', g2)
    ∧ g ≤ g2
    ∧ document (state c') = updateAt p (λ _, n') doc
    ∧ wellKeyed g2 (document (state c')).
Proof.
  intros doc Hi Halone Hwk Hat Hval. subst doc.
  destruct (normalize_run host DEF opts i r c p n v g g1 Hi Halone Hwk Hat Hval)
    as (c' & g2 & n' & Hrun & Hle & Hdoc & Hwk' & _).
  by exists c', g2, n'.
Qed.

(** ** The column alignment command *)




(** ** Rule 5: a row with more children than the table has columns *)

Lemma Range_length_gt start stop : stop < start → length (Range start stop) = start - stop.
Proof.
  intros H. unfold Range. rewrite decide_False by lia.
  by rewrite length_map, length_seq.
Qed.

(** X15: in a well-keyed document, when a row of a table has more children
    than the table has columns, the row rule reports the table, its
    [normalize] returns, and that row is left with more cells than the table
    had columns: all its children made cells, and as many synthesized empty
    cells again as it had children beyond the number of columns, twice its
    number of children less the number of columns in all.  (The range the
    second loop runs over then descends from the number of converted children
    to the number of missing cells.) *)
Theorem rowsContainRequiredColumns_long_row opts c p s k d ns g j r :
  let doc := document (state c) in
  let table := Nd s k d ns in
  let columns := width opts table in
  wellKeyed g doc →
  getAt doc p = Some table →
  ns !! j = Some r →
  hasType (typeRow opts) r = true →
  columns < length (children r) →
  ∃ rows c' g' ns' r',
    rowsContainRequiredColumns_validate opts table g = Return (Some rows, g)
    ∧ rowsContainRequiredColumns_normalize opts c table rows g = Return (c', g')
    ∧ document (state c') = updateAt p (λ _, Nd s k d ns') doc
    ∧ ns' !! j = Some r'
    ∧ Forall (λ n, hasType (typeCell opts) n = true) (children r')
    ∧ countCells opts r' = 2 * length (children r) - columns
    ∧ columns < countCells opts r'.
Proof.
  intros doc table columns Hwk Hat Hj Hrow Hlong. subst doc table.
  unfold width in columns. change (children (Nd s k d ns)) with ns in columns.
  set (rows := List.filter (hasType (typeRow opts)) ns) in *.
  assert (r ∈ rows) as Hin.
  { apply list_elem_of_In, List.filter_In. split; [|done].
    apply list_elem_of_In. by eapply list_elem_of_lookup_2. }
  pose proof (countCells_le_columnsOf opts rows r Hin) as Hle. fold columns in Hle.
  destruct (hasType_Nd _ _ Hrow) as (rs & rk & rd & rcs & ->).
  change (children (Nd rs rk rd rcs)) with rcs in *.
  set (inv := length (nonCells opts (Nd rs rk rd rcs))).
  assert (countCells opts (Nd rs rk rd rcs) + inv = length rcs) as Hsum
    by apply List.filter_length.
  assert (offending opts columns (Nd rs rk rd rcs) = true) as Hoff.
  { destruct (offending opts columns (Nd rs rk rd rcs)) eqn:Hoff; [done|].
    apply offending_false in Hoff as [Hnc Hcount]. fold inv in Hsum.
    subst inv. rewrite Hnc in Hsum. cbn [length] in Hsum. lia. }
  destruct (rows_loop opts columns p s k d ns [] c g Hwk Hat) as (c' & Hrun & Hdoc & _).
  cbn [app] in Hrun, Hdoc. fold rows in Hrun.
  destruct (padRows_lookup opts columns ns g j _ Hj) as [gr Hlook].
  rewrite Hrow, Hoff in Hlook. cbn [andb] in Hlook.
  assert (omap (checkRow opts columns) rows ≠ []) as Hne.
  { intros Hnil. pose proof (omap_nil _ _ Hnil _ Hin) as Hc.
    rewrite checkRow_offending, Hoff in Hc. done. }
  eexists _, c', _, _, _. split_and!; [|exact Hrun|exact Hdoc|exact Hlook| | |].
  - rewrite rowsContainRequiredColumns_validate_Nd. cbn zeta. fold rows columns.
    destruct (omap (checkRow opts columns) rows); [done|]. reflexivity.
  - unfold padRow. change (children (Nd rs rk rd rcs)) with rcs.
    pose proof (convertAll_cells opts rcs gr) as Hcells.
    destruct (convertAll opts rcs gr) as [cs' g1]. cbn [fst snd withNodes] in *.
    cbn [children nodes default from_option id].
    rewrite !Forall_app. split_and!;
      [by apply Forall_take|apply emptyCells_cells|by apply Forall_drop].
  - unfold padRow. change (children (Nd rs rk rd rcs)) with rcs.
    pose proof (convertAll_cells opts rcs gr) as Hcells.
    pose proof (convertAll_length opts rcs gr) as Hlen.
    destruct (convertAll opts rcs gr) as [cs' g1]. cbn [fst snd withNodes] in *.
    fold inv. rewrite Range_length_gt by lia.
    unfold countCells at 1. cbn [children nodes default from_option id].
    rewrite filter_all.
    + rewrite !length_app, length_take, length_drop.
      unfold emptyCells. rewrite length_map, length_seq. lia.
    + rewrite !Forall_app. split_and!;
        [by apply Forall_take|apply emptyCells_cells|by apply Forall_drop].
  - unfold padRow. change (children (Nd rs rk rd rcs)) with rcs.
    pose proof (convertAll_cells opts rcs gr) as Hcells.
    pose proof (convertAll_length opts rcs gr) as Hlen.
    destruct (convertAll opts rcs gr) as [cs' g1]. cbn [fst snd withNodes] in *.
    fold inv. rewrite Range_length_gt by lia.
    unfold countCells at 1. cbn [children nodes default from_option id].
    rewrite filter_all.
    + rewrite !length_app, length_take, length_drop.
      unfold emptyCells. rewrite length_map, length_seq. lia.
    + rewrite !Forall_app. split_and!;
        [by apply Forall_take|apply emptyCells_cells|by apply Forall_drop].
Qed.

(** ** A table without children, through the three table rules *)

(** X16: in a well-keyed document, for a table without children and without
    alignment data, the table-content rule reports the table and its repair
    gives it one synthesized row of one empty cell; the row rule accepts that
    table as it is, with one column; the alignment rule reports it, for want
    of a vector, and its repair sets the vector to one default tag.  The
    three table rules then accept the table, which has kept its key and its
    type, and nothing else in the document has changed. *)
Theorem empty_table_repaired host DEF opts c p s k d g :
  let doc := document (state c) in
  let table := Nd s k d [] in
  let T1 := Nd s k d [emptyRowAt opts g] in
  let g1 := S (S (S g)) in
  wellKeyed g doc →
  getAt doc p = Some table →
  d !! "align" = None →
  ∃ c1 c2 d2,
    tablesContainOnlyRows_validate opts table g
    = Return (Some ([], [emptyRowAt opts g]), g1)
    ∧ tablesContainOnlyRows_normalize opts c table ([], [emptyRowAt opts g]) g1
      = Return (c1, g1)
    ∧ document (state c1) = updateAt p (λ _, T1) doc
    ∧ rowsContainRequiredColumns_validate opts T1 g1 = Return (None, g1)
    ∧ tableContainAlignData_validate host opts T1 g1
      = Return (Some (JList [], 1), g1)
    ∧ tableContainAlignData_normalize DEF opts c1 T1 (JList [], 1) g1
      = Return (c2, g1)
    ∧ document (state c2) = updateAt p (λ _, Nd s k d2 [emptyRowAt opts g]) doc
    ∧ d2 !! "align" = Some (JArr [JStr DEF])
    ∧ tablesContainOnlyRows_validate opts (Nd s k d2 [emptyRowAt opts g]) g1
      = Return (None, g1)
    ∧ rowsContainRequiredColumns_validate opts (Nd s k d2 [emptyRowAt opts g]) g1
      = Return (None, g1)
    ∧ tableContainAlignData_validate host opts (Nd s k d2 [emptyRowAt opts g]) g1
      = Return (None, g1).
Proof.
  intros doc table T1 g1 Hwk Hat Hd. subst doc table T1 g1.
  destruct (tablesContainOnlyRows_run opts c p s k d [] g Hwk Hat)
    as (Hv4 & c1 & Hrun1 & Hdoc1 & Hwk1).
  cbn [List.filter app] in Hv4, Hrun1, Hdoc1, Hwk1.
  rewrite bool_decide_eq_true_2 in Hv4, Hrun1, Hdoc1, Hwk1 by done.
  cbn [orb] in Hv4.
  assert (getAt (document (state c1)) p = Some (Nd s k d [emptyRowAt opts g])) as Hat1
    by by rewrite Hdoc1, getAt_updateAt, Hat.
  pose proof (tableContainAlignData_run DEF opts c1 p s k d [emptyRowAt opts g]
                (JList []) 1 (S (S (S g))) (proj1 Hwk1) Hat1) as Hrun2.
  cbn zeta in Hrun2.
  set (d2 := Object_assign (Data_toJS d) "align" (JArr (createAlign DEF 1 (JList []))))
    in *.
  assert (∀ d0 g0, rowsContainRequiredColumns_validate opts
                     (Nd s k d0 [emptyRowAt opts g]) g0 = Return (None, g0)) as Hv5.
  { intros d0 g0. rewrite rowsContainRequiredColumns_validate_Nd. cbn zeta.
    unfold emptyRowAt, emptyCellAt. cbn [List.filter]. rewrite !hasType_same.
    unfold columnsOf, checkRow, countCells.
    cbn [omap list_omap fold_left children nodes default from_option id List.filter].
    rewrite !hasType_same. reflexivity. }
  eexists c1, _, d2. split_and!.
  - exact Hv4.
  - exact Hrun1.
  - exact Hdoc1.
  - apply Hv5.
  - unfold tableContainAlignData_validate, emptyRowAt.
    cbn [getData data getNodes nodes head].
    erewrite bind_Return; [|reflexivity]. erewrite bind_Return; [|reflexivity].
    erewrite bind_Return; [|reflexivity].
    unfold Map_get. rewrite Hd. reflexivity.
  - exact Hrun2.
  - cbn [document state applied]. rewrite Hdoc1, updateAt_updateAt. reflexivity.
  - apply lookup_insert_eq.
  - rewrite tablesContainOnlyRows_validate_Nd. cbn zeta. unfold emptyRowAt.
    cbn [List.filter]. by rewrite hasType_same.
  - apply Hv5.
  - unfold tableContainAlignData_validate, emptyRowAt.
    cbn [getData data getNodes nodes head].
    erewrite bind_Return; [|reflexivity]. erewrite bind_Return; [|reflexivity].
    erewrite bind_Return; [|reflexivity].
    unfold Map_get, d2, Object_assign. rewrite lookup_insert_eq. reflexivity.
Qed.

(** ** Examples, counterexamples and witnesses *)

Section Examples.

Import Example.

Local Ltac by_computation := vm_compute; reflexivity.
Local Ltac decide_by_computation := apply (bool_decide_unpack _); vm_compute; exact I.
Local Ltac host_leaves :=
  unfold hostLeaves; cbn; repeat (constructor; try (intros ?; reflexivity)).

(** The table-content rule on a table with a text, a row and a paragraph:
    the row alone is left. *)
Lemma tablesContainOnlyRows_repairs_witness :
  let T := Nd (Block "table") 1 (aligned ["default"])
             [Text 2 "x"; row 3 [cell 4 "a"]; paragraph 6 "y"] in
  wellKeyed 20 littered
  ∧ getAt littered [0] = Some T
  ∧ tablesContainOnlyRows_match opts T = true
  ∧ ∃ c',
      tablesContainOnlyRows_validate opts T 20
      = Return (Some ([Text 2 "x"; paragraph 6 "y"], []), 20)
      ∧ tablesContainOnlyRows_normalize opts (changeOf littered 5) T
          ([Text 2 "x"; paragraph 6 "y"], []) 20 = Return (c', 20)
      ∧ document (state c')
        = Nd Document 0 ∅
            [Nd (Block "table") 1 (aligned ["default"]) [row 3 [cell 4 "a"]]].
Proof.
  intros T.
  assert (wellKeyed 20 littered) as Hnd by (split; decide_by_computation).
  split_and!; [done|done|done|].
  destruct (tablesContainOnlyRows_repairs opts (changeOf littered 5) [0]
              (Block "table") 1 (aligned ["default"])
              [Text 2 "x"; row 3 [cell 4 "a"]; paragraph 6 "y"] 20)
    as (invalids & add & g1 & c' & Hv & -> & -> & Hn & _ & Hdoc);
    [exact Hnd|reflexivity|reflexivity| |].
  - left. exists (Text 2 "x"). split; [left|reflexivity].
  - exists c'. split_and!.
    + by_computation.
    + vm_compute in Hv. injection Hv as <-. exact Hn.
    + rewrite Hdoc. by_computation.
Defined.

(** C4, at the failing input: in a table with a row of three cells and a row
    of one cell, the row rule does pad the short row to three cells, but the
    two synthesized cells are inserted at indices 0 and 1, in front of the
    row's own cell; they are not appended at the end of the row, as the
    comment in the rule's [normalize] has it. *)
Lemma rowsContainRequiredColumns_inserts_in_front :
  let T := Nd (Block "table") 1 (aligned ["default"; "default"; "default"])
             [row 2 [cell 3 "a"; cell 5 "b"; cell 7 "c"]; row 9 [cell 10 "d"]] in
  getAt ragged [0] = Some T
  ∧ ∃ rows c',
      rowsContainRequiredColumns_validate opts T 20 = Return (Some rows, 20)
      ∧ rowsContainRequiredColumns_normalize opts (changeOf ragged 4) T rows 20
        = Return (c', 24)
      ∧ getAt (document (state c')) [0; 1]
        = Some (row 9 [emptyCellAt opts 20; emptyCellAt opts 22; cell 10 "d"])
      ∧ getAt (document (state c')) [0; 1]
        ≠ Some (row 9 [cell 10 "d"; emptyCellAt opts 20; emptyCellAt opts 22]).
Proof.
  intros T. split; [reflexivity|]. eexists _, _. split_and!.
  - by_computation.
  - by_computation.
  - by_computation.
  - vm_compute. discriminate.
Qed.

(** When a row has more children than the table has columns, the second loop
    of the row rule runs over a descending range: a row of one cell and two
    paragraphs, in a table of one column, ends with five cells. *)
Example rowsContainRequiredColumns_crowded_row :
  let T := Nd (Block "table") 1 (aligned ["default"])
             [row 2 [cell 3 "a"; paragraph 5 "b"; paragraph 7 "c"]] in
  ∃ rows c',
    rowsContainRequiredColumns_validate opts T 20 = Return (Some rows, 20)
    ∧ rowsContainRequiredColumns_normalize opts (changeOf crowded 4) T rows 20
      = Return (c', 24)
    ∧ (getAt (document (state c')) [0; 0] ≫= λ r, Some (countCells opts r)) = Some 5.
Proof. intros T. eexists _, _. split_and!; by_computation. Qed.

Lemma rowsContainRequiredColumns_pads_witness :
  let T := Nd (Block "table") 1 (aligned ["default"; "default"; "default"])
             [row 2 [cell 3 "a"; cell 5 "b"; cell 7 "c"]; row 9 [cell 10 "d"]] in
  wellKeyed 20 ragged
  ∧ getAt ragged [0] = Some T
  ∧ rowsContainRequiredColumns_match opts T = true
  ∧ ∃ rows,
      rowsContainRequiredColumns_validate opts T 20 = Return (Some rows, 20)
      ∧ ∃ c' g' (ns' : list Node) r',
          rowsContainRequiredColumns_normalize opts (changeOf ragged 4) T rows 20
          = Return (c', g')
          ∧ ns' !! 0 = Some (row 2 [cell 3 "a"; cell 5 "b"; cell 7 "c"])
          ∧ ns' !! 1 = Some r'
          ∧ countCells opts r' = 3.
Proof.
  intros T.
  assert (wellKeyed 20 ragged) as Hwk by (split; decide_by_computation).
  split_and!; [done|done|done|].
  eexists. split; [by_computation|].
  destruct (rowsContainRequiredColumns_pads opts (changeOf ragged 4) [0]
              (Block "table") 1 (aligned ["default"; "default"; "default"])
              [row 2 [cell 3 "a"; cell 5 "b"; cell 7 "c"]; row 9 [cell 10 "d"]] 20
              _ Hwk eq_refl eq_refl eq_refl)
    as (c' & g' & ns' & Hn & _ & _ & Hrows).
  destruct (Hrows 0 _ eq_refl) as [Hkeep _].
  destruct (Hrows 1 _ eq_refl) as [_ Hpad].
  destruct Hpad as (gr & r' & Hr' & _ & _ & _ & Hcount);
    [reflexivity|reflexivity|vm_compute; lia|].
  exists c', g', ns', r'. split_and!; [exact Hn|by apply Hkeep|exact Hr'|exact Hcount].
Defined.



(** Where the host does step in: the second paragraph of the cell holds two
    adjacent text nodes.  After the newline has gone into the first of them,
    the host, which here joins adjacent text nodes, makes one text node of
    the two; the rule moves it into the cell and finds the second text node
    gone.  The cell ends with two text nodes, not three. *)
Example noBlocksWithinCell_joined_texts :
  let cs := [paragraph 4 "x"; Nd (Block "paragraph") 6 ∅ [Text 7 "a"; Text 8 "b"]] in
  let cell := Nd (Block "table_cell") 3 ∅ cs in
  getAt adjacentTexts [0; 0; 0] = Some cell
  ∧ ¬ hostLeaves (normalizeCore host) cs
  ∧ ∃ c',
      noBlocksWithinCell_normalize host opts (changeOf adjacentTexts 5) cell cs 20
      = Return (c', 20)
      ∧ getAt (document (state c')) [0; 0; 0]
        = Some (Nd (Block "table_cell") 3 ∅
                  [Text 5 "x"; Text 7 (newline ++ "ab")])
      ∧ unwrapBlocks 0 cs
        = [Text 5 "x"; Text 7 (newline ++ "a"); Text 8 (newline ++ "b")].
Proof.
  intros cs cell. split_and!; [reflexivity| |].
  - unfold hostLeaves. cbn. intros H.
    apply Forall_cons in H as [H _]. apply Forall_cons in H as [H _].
    specialize (H 0). vm_compute in H. discriminate H.
  - eexists. split_and!; by_computation.
Qed.



(** C10, counterexample: a table node whose only child is a text node has a
    child, and the alignment rule matches it, yet [validate] throws: a text
    node has no node list to take the size of. *)
Lemma tableContainAlignData_validate_text_child :
  tableContainAlignData_match opts textTable = true
  ∧ children textTable = [Text 2 "x"]
  ∧ tableContainAlignData_validate host opts textTable 0
    = Throw (TypeError "Cannot read a property of undefined").
Proof. split_and!; by_computation. Qed.

(** The rule's [validate] on three tables: it throws on a table without
    children, returns on a table of two rows with an align array, and throws
    on a table whose align entry is an object with a length that the
    comparison cannot convert. *)
Lemma tableContainAlignData_validate_defined_witness :
  let T := Nd (Block "table") 1 (aligned ["left"; "right"])
             [row 2 [cell 3 "a"; cell 5 "b"]; row 7 [cell 8 "c"; cell 10 "d"]] in
  tableContainAlignData_match opts T = true
  ∧ tableContainAlignData_match opts unconvertible = true
  ∧ (∃ e, tableContainAlignData_validate host opts
            (Nd (Block "table") 1 ∅ []) 20 = Throw e)
  ∧ (∃ r, tableContainAlignData_validate host opts T 20 = Return (r, 20))
  ∧ ∃ e, tableContainAlignData_validate host opts unconvertible 20 = Throw e.
Proof.
  intros T. split_and!; [reflexivity|reflexivity| | |].
  - apply (tableContainAlignData_validate_defined host opts
             (Nd (Block "table") 1 ∅ []) 20 eq_refl). reflexivity.
  - destruct (tableContainAlignData_validate_defined host opts T 20 eq_refl)
      as (_ & _ & H).
    destruct (H (row 2 [cell 3 "a"; cell 5 "b"]) [row 7 [cell 8 "c"; cell 10 "d"]]
                [cell 3 "a"; cell 5 "b"] (aligned ["left"; "right"])
                eq_refl eq_refl eq_refl)
      as (len & Hlen & Hret & _ & Hprim); [vm_compute; discriminate..|].
    vm_compute in Hlen. injection Hlen as <-. apply Hret, Hprim. exact I.
  - destruct (tableContainAlignData_validate_defined host opts unconvertible 20 eq_refl)
      as (_ & _ & H).
    destruct (H (row 2 [cell 3 "a"]) [] [cell 3 "a"] _ eq_refl eq_refl eq_refl)
      as (len & Hlen & _ & Hthrow & _); [vm_compute; discriminate..|].
    vm_compute in Hlen. injection Hlen as <-.
    eexists. apply Hthrow. by_computation.
Defined.

(** The table whose align entry is the object with the entry "length" an
    object that has the entries "valueOf" and "toString", neither of them
    callable: the table has a row as its first child and an align entry that
    is neither null nor undefined, and [validate] throws in the comparison of
    the length with the column count. *)
Example tableContainAlignData_validate_unconvertible :
  tableContainAlignData_match opts unconvertible = true
  ∧ children unconvertible = [row 2 [cell 3 "a"]]
  ∧ tableContainAlignData_validate host opts unconvertible 0
    = Throw (TypeError "Cannot convert object to primitive value").
Proof. split_and!; by_computation. Qed.

(** C2, counterexample: the table satisfies the invariant of the alignment
    rule as the specification words it (one alignment tag, and one cell in
    the first row), the rule matches it, and [validate] still reports a
    violation: the first row has a second child, a paragraph. *)
Lemma tableContainAlignData_not_idempotent_alone :
  tableContainAlignData_match opts lopsided = true
  ∧ Invariant.alignment opts lopsided
  ∧ tableContainAlignData_validate host opts lopsided 0
    ≠ Return (None, 0).
Proof.
  split_and!.
  - reflexivity.
  - exists (aligned ["default"]), [JStr "default"], (row 2 [cell 3 "a"; paragraph 5 "b"]).
    split_and!; by_computation.
  - vm_compute. discriminate.
Qed.

Lemma rules_idempotent_witness :
  let T := Nd (Block "table") 1 (aligned ["left"; "right"])
             [row 2 [cell 3 "a"; cell 5 "b"]; row 7 [cell 8 "c"; cell 10 "d"]] in
  tableContainAlignData_match opts T = true
  ∧ Invariant.alignment opts T
  ∧ Invariant.tableContent opts T
  ∧ Invariant.rowColumns opts T
  ∧ tableContainAlignData_validate host opts T 20 = Return (None, 20)
  ∧ rowsContainRequiredColumns_validate opts T 20 = Return (None, 20)
  ∧ tablesContainOnlyRows_validate opts T 20 = Return (None, 20).
Proof.
  intros T.
  assert (Invariant.alignment opts T) as H6.
  { exists (aligned ["left"; "right"]), [JStr "left"; JStr "right"],
      (row 2 [cell 3 "a"; cell 5 "b"]). split_and!; by_computation. }
  assert (Invariant.tableContent opts T) as H4.
  { split; [discriminate|]. repeat constructor. }
  assert (Invariant.rowColumns opts T) as H5.
  { intros r Hr _. cbn in Hr.
    repeat (apply elem_of_cons in Hr as [->|Hr]); [..|by apply elem_of_nil in Hr];
      (split; [by_computation|repeat constructor]). }
  destruct (rules_idempotent host DEFAULT opts)
    as (_ & _ & _ & Hr4 & Hr5 & Hr6 & _).
  split_and!; [reflexivity|done|done|done| | |].
  - by apply Hr6.
  - by apply Hr5.
  - by apply Hr4.
Defined.

(** The width invariant on the outcome of normalising the ragged table. *)
Lemma width_invariant_witness :
  ∃ c' g' T,
    normalizeWith schema 20 (changeOf ragged 4) 20 = Return (c', g')
    ∧ T ∈ subtree (document (state c'))
    ∧ hasType (typeTable opts) T = true
    ∧ width opts T = 3
    ∧ (∀ r, r ∈ children T → countCells opts r = 3)
    ∧ ∃ d l, data T = Some d ∧ d !! "align" = Some (JArr l) ∧ length l = 3.
Proof.
  destruct (normalizeWith schema 20 (changeOf ragged 4) 20) as [[c' g']|e] eqn:Hrun;
    [|vm_compute in Hrun; discriminate].
  assert (∃ T, subtree (document (state c')) !! 14 = Some T
               ∧ hasType (typeTable opts) T = true
               ∧ width opts T = 3
               ∧ ∃ d l, data T = Some d ∧ d !! "align" = Some (JArr l))
    as (T & HT & Htable & Hw & d & l & Hd & Hl).
  { vm_compute in Hrun. injection Hrun as <- <-. eexists. split_and!;
      [by_computation..|]. eexists _, _. split; by_computation. }
  exists c', g', T.
  assert (T ∈ subtree (document (state c'))) as Hin
    by by eapply list_elem_of_lookup_2.
  destruct (width_invariant host DEFAULT opts 20 (changeOf ragged 4) 20 c' g' T
              Hrun Hin Htable) as (Hrows & d' & a & len & Hd' & Ha & _ & _ & Harr).
  split_and!; [reflexivity|exact Hin|exact Htable|exact Hw| |].
  - intros r Hr. rewrite <-Hw. by apply Hrows.
  - exists d, l. split_and!; [done|done|].
    rewrite Hd in Hd'. injection Hd' as <-. rewrite Hl in Ha. injection Ha as <-.
    rewrite <-Hw. by apply Harr.
Defined.

(** C5, counterexample: normalising a document of two sibling cells gives
    two tables, each of one row of one cell and with one alignment tag, not a
    single table of a single row holding both cells. *)
Lemma orphan_cells_two_tables :
  orphans = Nd Document 0 ∅ [cell 1 "a"; cell 3 "b"]
  ∧ ∃ c',
      normalizeWith schema 20 (changeOf orphans 2) 20 = Return (c', 24)
      ∧ document (state c')
        = Nd Document 0 ∅
            [Nd (Block "table") 22 (aligned ["default"]) [row 20 [cell 1 "a"]];
             Nd (Block "table") 23 (aligned ["default"]) [row 21 [cell 3 "b"]]]
      ∧ length (children (document (state c'))) = 2.
Proof. split; [reflexivity|]. eexists. split_and!; by_computation. Qed.

Lemma orphan_cells_normalized_witness :
  typeTable opts ≠ typeRow opts
  ∧ typeTable opts ≠ typeCell opts
  ∧ typeRow opts ≠ typeCell opts
  ∧ Forall (λ n, isText n = true) [Text 2 "a"]
  ∧ Forall (λ n, isText n = true) [Text 4 "b"]
  ∧ wellKeyed 20 orphans
  ∧ ∃ c',
      normalizeWith schema 2 (changeOf orphans 2) 20 = Return (c', 24)
      ∧ document (state c')
        = Nd Document 0 ∅
            [Nd (Block "table") 22 {[ "align" := JArr [JStr DEFAULT] ]}
               [Nd (Block "table_row") 20 ∅ [cell 1 "a"]];
             Nd (Block "table") 23 {[ "align" := JArr [JStr DEFAULT] ]}
               [Nd (Block "table_row") 21 ∅ [cell 3 "b"]]].
Proof.
  assert (typeTable opts ≠ typeRow opts) as Htr by discriminate.
  assert (typeTable opts ≠ typeCell opts) as Htc by discriminate.
  assert (typeRow opts ≠ typeCell opts) as Hrc by discriminate.
  assert (Forall (λ n, isText n = true) [Text 2 "a"]) as H1 by by constructor.
  assert (Forall (λ n, isText n = true) [Text 4 "b"]) as H2 by by constructor.
  assert (wellKeyed 20 orphans) as Hwk by (split; decide_by_computation).
  split_and!; [done..|].
  exact (orphan_cells_normalized host DEFAULT opts Htr Htc Hrc 0
           0 ∅ 1 ∅ [Text 2 "a"] 3 ∅ [Text 4 "b"]
           {| startKey := 2; startOffset := 0 |} 20 H1 H2 Hwk).
Defined.

(** In the first row of a table of two rows, a key that reads as down takes
    the selection from the second cell of the first row to the second cell of
    the second; a key with the name "UpArrow" there is left to the editor. *)
Lemma onUpDown_spec_witness :
  let down := {| event_key := "ArrowDown"; defaultPrevented := false |} in
  let up := {| event_key := "UpArrow"; defaultPrevented := false |} in
  ∃ b pos,
    startBlock (state (changeOf square 6)) = Some b
    ∧ TablePosition.create opts (state (changeOf square 6)) b 20 = Return (pos, 20)
    ∧ onUpDown up (changeOf square 6) opts 20 = Return ((up, changeOf square 6), 20)
    ∧ onUpDown down (changeOf square 6) opts 20
      = Return ((preventDefault down,
                 {| state := stateOf square 11; operations := [] |}), 20).
Proof.
  intros down up.
  destruct (startBlock (state (changeOf square 6))) as [b|] eqn:Hb;
    [|vm_compute in Hb; discriminate].
  destruct (TablePosition.create opts (state (changeOf square 6)) b 20)
    as [[pos g]|e] eqn:Hpos;
    [|vm_compute in Hb; injection Hb as <-; vm_compute in Hpos; discriminate].
  assert (g = 20) as ->.
  { vm_compute in Hb. injection Hb as <-. vm_compute in Hpos. by injection Hpos as _ <-. }
  exists b, pos. split_and!; [reflexivity|exact Hpos| |].
  - apply (onUpDown_spec opts up (changeOf square 6) b pos 20 Hb Hpos).
    vm_compute in Hb. injection Hb as <-. vm_compute in Hpos. injection Hpos as <-.
    by_computation.
  - destruct (onUpDown_spec opts down (changeOf square 6) b pos 20 Hb Hpos)
      as [_ Hmove].
    destruct Hmove as (_ & _ & Hsel).
    { vm_compute in Hb. injection Hb as <-. vm_compute in Hpos. injection Hpos as <-.
      by_computation. }
    vm_compute in Hb. injection Hb as <-. vm_compute in Hpos. injection Hpos as <-.
    apply (Hsel (row 7 [cell 8 "c"; cell 10 "d"]) (cell 10 "d") (Text 11 "d"));
      by_computation.
Defined.

(** C9, at the failing input: the up arrow key, whose name in a keyboard
    event is "ArrowUp", pressed in a table of two rows.  With the selection
    in the second cell of the first row the handler does not leave the key to
    the editor: it prevents the event's default and puts the selection in the
    second cell of the second row, one row down.  With the selection in the
    second cell of the last row it leaves event and change untouched, where
    the selection should go one row up.  The handler compares the name with
    "UpArrow" and so reads the up arrow key as down. *)
Theorem onUpDown_reads_up_as_down :
  let up := {| event_key := "ArrowUp"; defaultPrevented := false |} in
  (∃ b pos,
     startBlock (state (changeOf square 6)) = Some b
     ∧ TablePosition.create opts (state (changeOf square 6)) b 20 = Return (pos, 20)
     ∧ TablePosition.isFirstRow opts pos = true
     ∧ onUpDown up (changeOf square 6) opts 20
       = Return ((preventDefault up,
                  {| state := stateOf square 11; operations := [] |}), 20)
     ∧ onUpDown up (changeOf square 6) opts 20
       ≠ Return ((up, changeOf square 6), 20))
  ∧ ∃ b pos,
      startBlock (state (changeOf square 11)) = Some b
      ∧ TablePosition.create opts (state (changeOf square 11)) b 20 = Return (pos, 20)
      ∧ TablePosition.isLastRow opts pos = true
      ∧ onUpDown up (changeOf square 11) opts 20
        = Return ((up, changeOf square 11), 20)
      ∧ onUpDown up (changeOf square 11) opts 20
        ≠ Return ((preventDefault up,
                   {| state := stateOf square 6; operations := [] |}), 20).
Proof.
  intros up. split; eexists _, _; split_and!;
    try by_computation; vm_compute; discriminate.
Qed.

(** C3, at the failing input: in a table of two columns aligned left and
    right, with the selection in the second cell of the first row,
    [setColumnAlign] with the tag "center" makes one [set_node] operation on
    the table, but the data it sets has under "align" an object: the old
    data with its "align" replaced by the new vector.  The alignment vector
    of the table is then not the array [left; center]; the alignment rule
    flags the table, and its repair resets both columns to the default tag. *)
Theorem setColumnAlign_nests_the_vector :
  ∃ c' T' d',
    setColumnAlign DEFAULT opts (changeOf square 6) (Some (JStr "center")) None 20
    = Return (c', 20)
    ∧ length (operations c') = 1
    ∧ getAt (document (state c')) [0] = Some T'
    ∧ data T' = Some d'
    ∧ d' !! "align" = Some (JObj (aligned ["left"; "center"]))
    ∧ d' !! "align" ≠ Some (JArr [JStr "left"; JStr "center"])
    ∧ tableContainAlignData_validate host opts T' 20
      = Return (Some (JObj (aligned ["left"; "center"]), 2), 20)
    ∧ createAlign DEFAULT 2 (JObj (aligned ["left"; "center"]))
      = [JStr DEFAULT; JStr DEFAULT].
Proof.
  eexists _, _, _. split_and!; [by_computation..| | |].
  - vm_compute. discriminate.
  - by_computation.
  - by_computation.
Qed.

(** A nested block without children is reported by the cell rule and stays:
    the schema does not converge on it. *)
Example noBlocksWithinCell_empty_block :
  let doc := Nd Document 0 ∅
               [Nd (Block "table") 1 (aligned ["default"])
                  [row 2 [Nd (Block "table_cell") 3 ∅ [Nd (Block "paragraph") 4 ∅ []]]]] in
  normalizeWith schema 50 (changeOf doc 4) 20
  = Throw (Error "A schema rule could not be validated after sufficient iterations").
Proof. by_computation. Qed.

(** *** Witnesses of the further properties *)

Lemma validate_returns_on_match_witness :
  makeSchema host DEFAULT opts !! 0 = Some (noBlocksWithinCell host opts)
  ∧ match_ (noBlocksWithinCell host opts) mixedCell = true
  ∧ isText mixedCell = false
  ∧ ∃ v g', validate (noBlocksWithinCell host opts) mixedCell 20 = Return (v, g') ∧ 20 ≤ g'.
Proof.
  split_and!; [reflexivity|reflexivity|reflexivity|].
  destruct (validate_returns_on_match host DEFAULT opts 0
              (noBlocksWithinCell host opts) mixedCell eq_refl eq_refl) as [_ H].
  apply H. lia.
Defined.

Lemma makeEmptyRow_needs_no_repair_witness :
  typeTable opts ≠ typeRow opts
  ∧ typeTable opts ≠ typeCell opts
  ∧ typeRow opts ≠ typeCell opts
  ∧ ∃ r, makeEmptyRow opts 20 = Return (r, 23)
         ∧ r = row 22 [Nd (Block "table_cell") 21 ∅ [Text 20 ""]]
         ∧ validate (rowsWithinTable DEFAULT opts) r 23 = Return (None, 23).
Proof.
  assert (typeTable opts ≠ typeRow opts) as Htr by discriminate.
  assert (typeTable opts ≠ typeCell opts) as Htc by discriminate.
  assert (typeRow opts ≠ typeCell opts) as Hrc by discriminate.
  split_and!; [done..|].
  destruct (makeEmptyRow_needs_no_repair host DEFAULT opts 20 Htr Htc Hrc)
    as (r & Hrun & Hr & _ & Hok).
  exists r. split_and!; [exact Hrun|rewrite Hr; reflexivity|].
  apply (Hok r (rowsWithinTable DEFAULT opts) 23).
  - rewrite Hr. cbn [subtree]. apply elem_of_app. right. left.
  - apply (list_elem_of_lookup_2 _ 2). reflexivity.
  - rewrite Hr. reflexivity.
Defined.

Lemma cellsWithinTable_wraps_witness :
  wellKeyed 20 orphans
  ∧ getAt orphans [] = Some orphans
  ∧ List.filter (hasType (typeCell opts)) [cell 1 "a"; cell 3 "b"] ≠ []
  ∧ typeRow opts ≠ typeCell opts
  ∧ ∃ c' ns',
      cellsWithinTable_normalize opts (changeOf orphans 2) orphans
        [cell 1 "a"; cell 3 "b"] 20 = Return (c', 22)
      ∧ document (state c') = Nd Document 0 ∅ ns'
      ∧ ns' !! 0 = Some (row 20 [cell 1 "a"])
      ∧ ns' !! 1 = Some (row 21 [cell 3 "b"])
      ∧ cellsWithinTable_validate opts (Nd Document 0 ∅ ns') 22 = Return (None, 22).
Proof.
  assert (wellKeyed 20 orphans) as Hwk by (split; decide_by_computation).
  assert (List.filter (hasType (typeCell opts)) [cell 1 "a"; cell 3 "b"] ≠ [])
    as Hne by discriminate.
  assert (typeRow opts ≠ typeCell opts) as Hrc by discriminate.
  split_and!; [done..|].
  destruct (cellsWithinTable_wraps opts (changeOf orphans 2) [] Document 0 ∅
              [cell 1 "a"; cell 3 "b"] 20 Hwk eq_refl Hne)
    as (c' & ns' & _ & Hrun & Hdoc & _ & Hlook & Hok & _).
  exists c', ns'. split_and!.
  - exact Hrun.
  - exact Hdoc.
  - apply (Hlook 0 _ eq_refl).
  - apply (Hlook 1 _ eq_refl).
  - by apply Hok.
Defined.

Lemma rowsWithinTable_wraps_witness :
  let r := row 1 [cell 2 "a"; cell 4 "b"] in
  wellKeyed 20 strayRow
  ∧ getAt strayRow [] = Some strayRow
  ∧ List.filter (hasType (typeRow opts)) [r; paragraph 6 "p"] ≠ []
  ∧ typeTable opts ≠ typeRow opts
  ∧ ∃ c' ns',
      rowsWithinTable_normalize DEFAULT opts (changeOf strayRow 3) strayRow [r] 20
      = Return (c', 21)
      ∧ document (state c') = Nd Document 0 ∅ ns'
      ∧ ns' !! 0
        = Some (Nd (Block "table") 20
                  {[ "align" := JArr [JStr DEFAULT; JStr DEFAULT] ]} [r])
      ∧ ns' !! 1 = Some (paragraph 6 "p")
      ∧ rowsWithinTable_validate opts (Nd Document 0 ∅ ns') 21 = Return (None, 21).
Proof.
  intros r.
  assert (wellKeyed 20 strayRow) as Hwk by (split; decide_by_computation).
  assert (List.filter (hasType (typeRow opts)) [r; paragraph 6 "p"] ≠ [])
    as Hne by discriminate.
  assert (typeTable opts ≠ typeRow opts) as Htr by discriminate.
  split_and!; [done..|].
  destruct (rowsWithinTable_wraps host DEFAULT opts (changeOf strayRow 3) []
              Document 0 ∅ [r; paragraph 6 "p"] 20 Hwk eq_refl Hne)
    as (c' & ns' & _ & Hrun & Hdoc & _ & Hlook & _ & Hok).
  exists c', ns'. split_and!.
  - exact Hrun.
  - exact Hdoc.
  - apply (Hlook 0 _ eq_refl).
  - apply (Hlook 1 _ eq_refl).
  - by apply Hok.
Defined.

Lemma tablesContainOnlyRows_resolves_witness :
  let T := Nd (Block "table") 1 (aligned ["default"])
             [Text 2 "x"; row 3 [cell 4 "a"]; paragraph 6 "y"] in
  wellKeyed 20 littered
  ∧ getAt littered [0] = Some T
  ∧ tablesContainOnlyRows_validate opts T 20
    = Return (Some ([Text 2 "x"; paragraph 6 "y"], []), 20)
  ∧ ∃ c' T',
      tablesContainOnlyRows_normalize opts (changeOf littered 5) T
        ([Text 2 "x"; paragraph 6 "y"], []) 20 = Return (c', 20)
      ∧ Invariant.tableContent opts T'
      ∧ tablesContainOnlyRows_validate opts T' 20 = Return (None, 20).
Proof.
  intros T.
  assert (wellKeyed 20 littered) as Hwk by (split; decide_by_computation).
  assert (tablesContainOnlyRows_validate opts T 20
          = Return (Some ([Text 2 "x"; paragraph 6 "y"], []), 20)) as Hv
    by by_computation.
  split_and!; [done..|].
  destruct (tablesContainOnlyRows_resolves opts (changeOf littered 5) [0]
              (Block "table") 1 (aligned ["default"])
              [Text 2 "x"; row 3 [cell 4 "a"]; paragraph 6 "y"] 20 _ 20
              Hwk eq_refl Hv)
    as (c' & T' & Hrun & _ & _ & Hinv & Hok).
  by exists c', T'.
Defined.

Lemma rowsContainRequiredColumns_resolves_witness :
  let ns := [row 2 [cell 3 "a"; cell 5 "b"; cell 7 "c"]; row 9 [cell 10 "d"]] in
  let T := Nd (Block "table") 1 (aligned ["default"; "default"; "default"]) ns in
  wellKeyed 20 ragged
  ∧ getAt ragged [0] = Some T
  ∧ (∀ r, r ∈ ns → hasType (typeRow opts) r = true →
          length (children r) ≤ width opts T)
  ∧ ∃ rows,
      rowsContainRequiredColumns_validate opts T 20 = Return (Some rows, 20)
      ∧ ∃ c' g' ns',
          rowsContainRequiredColumns_normalize opts (changeOf ragged 4) T rows 20
          = Return (c', g')
          ∧ width opts (Nd (Block "table") 1
                          (aligned ["default"; "default"; "default"]) ns') = 3
          ∧ rowsContainRequiredColumns_validate opts
              (Nd (Block "table") 1 (aligned ["default"; "default"; "default"]) ns') g'
            = Return (None, g').
Proof.
  intros ns T.
  assert (wellKeyed 20 ragged) as Hwk by (split; decide_by_computation).
  assert (∀ r, r ∈ ns → hasType (typeRow opts) r = true →
               length (children r) ≤ width opts T) as Hlen.
  { intros r Hr _. subst ns.
    repeat (apply elem_of_cons in Hr as [->|Hr]); [..|by apply elem_of_nil in Hr];
      vm_compute; lia. }
  split_and!; [done..|].
  eexists. split; [by_computation|].
  destruct (rowsContainRequiredColumns_resolves opts (changeOf ragged 4) [0]
              (Block "table") 1 (aligned ["default"; "default"; "default"]) ns 20
              _ Hwk eq_refl eq_refl Hlen)
    as (c' & g' & ns' & Hrun & _ & Hw & _ & Hok).
  exists c', g', ns'. split_and!; [exact Hrun|exact Hw|exact Hok].
Defined.

Lemma tableContainAlignData_resolves_witness :
  let T := Nd (Block "table") 1 ∅ [row 2 [cell 3 "a"; cell 5 "b"]] in
  NoDup (keys unaligned)
  ∧ getAt unaligned [0] = Some T
  ∧ tableContainAlignData_validate host opts T 20
    = Return (Some (JList [], 2), 20)
  ∧ ∃ c' d' l,
      tableContainAlignData_normalize DEFAULT opts (changeOf unaligned 4) T
        (JList [], 2) 20 = Return (c', 20)
      ∧ d' !! "align" = Some (JArr l) ∧ length l = 2
      ∧ tableContainAlignData_validate host opts
          (Nd (Block "table") 1 d' [row 2 [cell 3 "a"; cell 5 "b"]]) 20
        = Return (None, 20).
Proof.
  intros T.
  assert (NoDup (keys unaligned)) as Hnd by decide_by_computation.
  assert (tableContainAlignData_validate host opts T 20
          = Return (Some (JList [], 2), 20)) as Hv by by_computation.
  split_and!; [done..|].
  destruct (tableContainAlignData_resolves host DEFAULT opts
              (changeOf unaligned 4) [0] (Block "table") 1 ∅
              [row 2 [cell 3 "a"; cell 5 "b"]] 20 (JList []) 2 20 Hnd eq_refl Hv)
    as (c' & d' & l & Hrun & _ & Hd' & Hlen & Hok & _).
  by exists c', d', l.
Defined.

Lemma noBlocksWithinCell_resolves_witness :
  let cs := [paragraph 4 "a"; paragraph 6 "b"] in
  NoDup (keys twoParagraphs)
  ∧ getAt twoParagraphs [0; 0; 0] = Some (Nd (Block "table_cell") 3 ∅ cs)
  ∧ hostLeaves (normalizeCore host) cs
  ∧ ∃ c' cs',
      noBlocksWithinCell_normalize host opts (changeOf twoParagraphs 5)
        (Nd (Block "table_cell") 3 ∅ cs) cs 20 = Return (c', 20)
      ∧ document (state c')
        = updateAt [0; 0; 0] (λ _, Nd (Block "table_cell") 3 ∅ cs') twoParagraphs
      ∧ noBlocksWithinCell_validate opts (Nd (Block "table_cell") 3 ∅ cs') 20
        = Return (None, 20).
Proof.
  intros cs.
  assert (NoDup (keys twoParagraphs)) as Hnd by decide_by_computation.
  assert (hostLeaves (normalizeCore host) cs) as Halone by host_leaves.
  split_and!; [done..|].
  destruct (noBlocksWithinCell_resolves host opts (changeOf twoParagraphs 5) [0; 0; 0]
              (Block "table_cell") 3 ∅ cs 20 Hnd eq_refl Halone)
    as (c' & cs' & Hrun & Hdoc & Hiff & _).
  exists c', cs'. split_and!; [exact Hrun|exact Hdoc|].
  apply Hiff. intros b Hb Hblock.
  repeat (apply elem_of_cons in Hb as [->|Hb]); [..|by apply elem_of_nil in Hb];
    (split; [discriminate|by repeat constructor]).
Defined.

Lemma noBlocksWithinCell_keeps_text_witness :
  let cs := [paragraph 4 "a"; paragraph 6 "b"] in
  NoDup (keys twoParagraphs)
  ∧ getAt twoParagraphs [0; 0; 0] = Some (Nd (Block "table_cell") 3 ∅ cs)
  ∧ hostLeaves (normalizeCore host) cs
  ∧ texts twoParagraphs = [Text 5 "a"; Text 7 "b"]
  ∧ ∃ c',
      noBlocksWithinCell_normalize host opts (changeOf twoParagraphs 5)
        (Nd (Block "table_cell") 3 ∅ cs) cs 20 = Return (c', 20)
      ∧ map key (texts (document (state c'))) = [5; 7].
Proof.
  intros cs.
  assert (NoDup (keys twoParagraphs)) as Hnd by decide_by_computation.
  assert (hostLeaves (normalizeCore host) cs) as Halone by host_leaves.
  split_and!; [done|done|done|reflexivity|].
  destruct (noBlocksWithinCell_keeps_text host opts (changeOf twoParagraphs 5) [0; 0; 0]
              (Block "table_cell") 3 ∅ cs 20 Hnd eq_refl Halone)
    as (c' & Hrun & _ & Hkeys).
  exists c'. split; [exact Hrun|exact Hkeys].
Defined.

Lemma repairs_keep_text_witness :
  makeSchema host DEFAULT opts !! 1 = Some (cellsWithinTable opts)
  ∧ wellKeyed 20 orphans
  ∧ getAt orphans [] = Some orphans
  ∧ validate (cellsWithinTable opts) orphans 20
    = Return (Some (PCells [cell 1 "a"; cell 3 "b"]), 20)
  ∧ ∃ c' g2,
      normalize (cellsWithinTable opts) (changeOf orphans 2) orphans
        (PCells [cell 1 "a"; cell 3 "b"]) 20 = Return (c', g2)
      ∧ texts (document (state c')) = [Text 2 "a"; Text 4 "b"].
Proof.
  assert (wellKeyed 20 orphans) as Hwk by (split; decide_by_computation).
  split_and!; [reflexivity|done|reflexivity|reflexivity|].
  destruct (repairs_keep_text host DEFAULT opts 1 (cellsWithinTable opts)
              (changeOf orphans 2) [] orphans (PCells [cell 1 "a"; cell 3 "b"]) 20 20
              eq_refl ltac:(lia) ltac:(lia) Hwk eq_refl eq_refl)
    as (c' & g2 & Hrun & _ & Heq).
  exists c', g2. split; [exact Hrun|]. by rewrite Heq by lia.
Defined.

Lemma normalize_keeps_well_keyed_witness :
  let cs := [paragraph 4 "a"; paragraph 6 "b"] in
  let cell := Nd (Block "table_cell") 3 ∅ cs in
  makeSchema host DEFAULT opts !! 0 = Some (noBlocksWithinCell host opts)
  ∧ hostLeaves (normalizeCore host) (children cell)
  ∧ wellKeyed 20 twoParagraphs
  ∧ getAt twoParagraphs [0; 0; 0] = Some cell
  ∧ ∃ v,
      validate (noBlocksWithinCell host opts) cell 20 = Return (Some v, 20)
      ∧ ∃ c' g2,
          normalize (noBlocksWithinCell host opts) (changeOf twoParagraphs 5) cell v 20
          = Return (c', g2)
          ∧ 20 ≤ g2
          ∧ wellKeyed g2 (document (state c')).
Proof.
  intros cs cell.
  assert (hostLeaves (normalizeCore host) (children cell)) as Halone by host_leaves.
  assert (wellKeyed 20 twoParagraphs) as Hwk by (split; decide_by_computation).
  split_and!; [done..|].
  eexists. split; [by_computation|].
  destruct (normalize_keeps_well_keyed host DEFAULT opts 0
              (noBlocksWithinCell host opts) (changeOf twoParagraphs 5) [0; 0; 0]
              cell _ 20 20 eq_refl (λ _, Halone) Hwk eq_refl eq_refl)
    as (c' & g2 & n' & Hrun & Hle & _ & Hwk').
  by exists c', g2.
Defined.


Lemma rowsContainRequiredColumns_long_row_witness :
  let r := row 2 [cell 3 "a"; paragraph 5 "b"; paragraph 7 "c"] in
  let T := Nd (Block "table") 1 (aligned ["default"]) [r] in
  wellKeyed 20 crowded
  ∧ getAt crowded [0] = Some T
  ∧ hasType (typeRow opts) r = true
  ∧ width opts T < length (children r)
  ∧ ∃ rows c' g' r',
      rowsContainRequiredColumns_validate opts T 20 = Return (Some rows, 20)
      ∧ rowsContainRequiredColumns_normalize opts (changeOf crowded 4) T rows 20
        = Return (c', g')
      ∧ getAt (document (state c')) [0; 0] = Some r'
      ∧ countCells opts r' = 5.
Proof.
  intros r T.
  assert (wellKeyed 20 crowded) as Hwk by (split; decide_by_computation).
  assert (width opts T < length (children r)) as Hlong by (vm_compute; lia).
  split_and!; [done|reflexivity|reflexivity|done|].
  destruct (rowsContainRequiredColumns_long_row opts (changeOf crowded 4) [0]
              (Block "table") 1 (aligned ["default"]) [r] 20 0 r
              Hwk eq_refl eq_refl eq_refl Hlong)
    as (rows & c' & g' & ns' & r' & Hv & Hrun & Hdoc & Hr' & _ & Hcount & _).
  exists rows, c', g', r'. split_and!; [exact Hv|exact Hrun| |exact Hcount].
  rewrite Hdoc. cbn. by rewrite Hr'.
Defined.

Lemma empty_table_repaired_witness :
  let T := Nd (Block "table") 1 ∅ [] in
  wellKeyed 20 bare
  ∧ getAt bare [0] = Some T
  ∧ (∅ : Data) !! "align" = None
  ∧ ∃ c1 c2,
      tablesContainOnlyRows_normalize opts (changeOf bare 1) T
        ([], [emptyRowAt opts 20]) 23 = Return (c1, 23)
      ∧ tableContainAlignData_normalize DEFAULT opts c1
          (Nd (Block "table") 1 ∅ [emptyRowAt opts 20]) (JList [], 1) 23
        = Return (c2, 23)
      ∧ ∃ d2, document (state c2)
              = Nd Document 0 ∅ [Nd (Block "table") 1 d2 [emptyRowAt opts 20]]
              ∧ d2 !! "align" = Some (JArr [JStr DEFAULT]).
Proof.
  intros T.
  assert (wellKeyed 20 bare) as Hwk by (split; decide_by_computation).
  split_and!; [done|reflexivity|reflexivity|].
  destruct (empty_table_repaired host DEFAULT opts (changeOf bare 1) [0]
              (Block "table") 1 ∅ 20 Hwk eq_refl eq_refl)
    as (c1 & c2 & d2 & _ & Hrun1 & _ & _ & _ & Hrun2 & Hdoc & Hd2 & _).
  exists c1, c2. split_and!; [exact Hrun1|exact Hrun2|].
  exists d2. split; [exact Hdoc|exact Hd2].
Defined.

End Examples.
